(** * A shallow embedding of [view/src/decoration.ts]

    The positional decoration index of the editor view: decorations and
    their descriptors, the persistent [DecorationSet] tree with its
    update algorithm ([update], [updateInner], [collapseSet],
    [appendDecorations], [rebalanceChildren]), the set iterator, the
    binary heap and the merged-spans builder.  Mapping is embedded for
    one decoration ([Decoration.map]) and for a whole set ([map],
    [mapInner], with [touchesChange]).  The snippet completion of
    [autocomplete/src/snippet.ts] is not embedded: it parses templates
    with regular expressions and acts on the editor state, which lie
    outside these files.

    Modelling conventions.
    - JavaScript numbers that hold positions, sizes and biases are
      integers of [Z]; sums and differences are exact, as they are in
      the code for safe integers (below 2^53 in absolute value).  The
      shifts [>>] and [<<] on sizes and lengths are [shiftRight] and
      [shiftLeft], which wrap their operand and their result to 32 bits
      as JavaScript does.  Indices into the heap array are natural
      numbers.
    - An optional property of a spec object is an [option].
    - A function that can throw returns an [outcome]; [OutOfFuel] is not
      a JavaScript behaviour, it marks a run of the model that stopped
      because the bound on its loops was too small.
    - The module-level array [noDecorations] is one shared JavaScript
      array.  The field [local] of a set is a reference, either to that
      shared array or to an array of the set's own, and every function
      that reads [local] receives the present content [g] of the shared
      array; the functions that can write to it return its new
      content.  The array is empty when the module is loaded.
    - A method that returns either its receiver or a new object returns
      an [updated] value, so that the tests [newChild != child] read as
      in the source. *)

From Stdlib Require Import ZArith Lia.
From stdpp Require Import base option list gmap strings.

Local Open Scope Z_scope.

(** ** Outcomes of a call *)

Inductive outcome (A : Type) : Type :=
| Ok (a : A)
| RangeError (msg : string)
| TypeError
| OutOfFuel.

Arguments Ok {A} a.
Arguments RangeError {A} msg.
Arguments TypeError {A}.
Arguments OutOfFuel {A}.

Definition bind {A B : Type} (m : outcome A) (k : A -> outcome B) : outcome B :=
  match m with
  | Ok a => k a
  | RangeError msg => RangeError msg
  | TypeError => TypeError
  | OutOfFuel => OutOfFuel
  end.

Notation "'do' x <- m ; k" := (bind m (fun x => k))
  (at level 10, x name, m at level 100, k at level 200).
Notation "'do' ' p <- m ; k" := (bind m (fun x => match x with p => k end))
  (at level 10, p strict pattern, m at level 100, k at level 200).

(** Reading [a[i]] and then a property of it: [undefined] out of range,
    whose property access throws a [TypeError]. *)
Definition at_index {A : Type} (a : list A) (i : Z) : outcome A :=
  if i <? 0 then TypeError
  else match a !! Z.to_nat i with
       | Some x => Ok x
       | None => TypeError
       end.

(** ** Specs and descriptors *)

Record DecorationRangeSpec : Type := mkRangeSpec {
  inclusiveStart : option bool;
  inclusiveEnd : option bool;
  attributes : option (gmap string string);
  rangeLineAttributes : option (gmap string string);
  tagName : option string;
  collapsed : option bool
}.

Record DecorationPointSpec : Type := mkPointSpec {
  side : option Z;
  pointLineAttributes : option (gmap string string)
}.

Inductive DecorationSpec : Type :=
| OfRangeSpec (spec : DecorationRangeSpec)
| OfPointSpec (spec : DecorationPointSpec).

Definition BIG_BIAS : Z := 2000000000.

(** Truthiness of the optional properties. *)
Definition truthy_bool (b : option bool) : bool :=
  match b with Some true => true | _ => false end.

Definition truthy_string (s : option string) : bool :=
  match s with
  | Some s => negb (String.eqb s EmptyString)
  | None => false
  end.

Definition truthy_object {A : Type} (o : option A) : bool :=
  match o with Some _ => true | None => false end.

(** The two descriptor classes.  Their fields [bias], [endBias] and
    [affectsSpans] are set once by the constructor from the spec. *)
Inductive DecorationDesc : Type :=
| RangeDesc (spec : DecorationRangeSpec)
| PointDesc (spec : DecorationPointSpec).

Definition desc_spec (d : DecorationDesc) : DecorationSpec :=
  match d with
  | RangeDesc s => OfRangeSpec s
  | PointDesc s => OfPointSpec s
  end.

Definition bias (d : DecorationDesc) : Z :=
  match d with
  | RangeDesc s => if truthy_bool (inclusiveStart s) then - BIG_BIAS else BIG_BIAS
  | PointDesc s => default 0 (side s)
  end.

Definition endBias (s : DecorationRangeSpec) : Z :=
  if truthy_bool (inclusiveEnd s) then BIG_BIAS else - BIG_BIAS.

Definition affectsSpans (s : DecorationRangeSpec) : bool :=
  truthy_object (attributes s) || truthy_string (tagName s)
  || truthy_bool (collapsed s).

(** ** Changes

    The class [Change] lives in the state module, outside this file.
    Of a change, the code embedded here uses the method
    [mapPos(pos, assoc)] only; a change is modelled as a record that
    carries the method as a function, so every statement below holds
    for whatever the method computes. *)
Module Change.
Record t : Type := mk {
  mapPos : Z -> Z -> Z
}.
End Change.

Fixpoint mapPos (pos : Z) (changes : list Change.t) (assoc : Z) : Z :=
  match changes with
  | [] => pos
  | c :: rest => mapPos (Change.mapPos c pos assoc) rest assoc
  end.

(** ** Decorations *)

Module Decoration.
Record t : Type := mk {
  from : Z;
  to : Z;
  desc : DecorationDesc
}.

Definition spec (d : t) : DecorationSpec := desc_spec (desc d).

Definition heapPos (d : t) : Z := to d.

Definition move (d : t) (offset : Z) : t :=
  if offset =? 0 then d
  else mk (from d + offset) (to d + offset) (desc d).

(** [RangeDesc.map] and [PointDesc.map], reached through
    [Decoration.map]; [None] is JavaScript's [null]. *)
Definition map (d : t) (changes : list Change.t) : option t :=
  match desc d with
  | RangeDesc s =>
      let from' := mapPos (from d) changes (bias (RangeDesc s)) in
      let to' := mapPos (to d) changes (endBias s) in
      if from' <? to' then Some (mk from' to' (RangeDesc s)) else None
  | PointDesc s =>
      let pos := mapPos (from d) changes (bias (PointDesc s)) in
      Some (mk pos pos (PointDesc s))
  end.

Definition range (from to : Z) (spec : DecorationRangeSpec) : outcome t :=
  if from >=? to then RangeError "Range decorations may not be empty"
  else Ok (mk from to (RangeDesc spec)).

Definition point (pos : Z) (spec : DecorationPointSpec) : outcome t :=
  Ok (mk pos pos (PointDesc spec)).
End Decoration.

Definition byPos (a b : Decoration.t) : Z :=
  if Decoration.from a - Decoration.from b =? 0
  then bias (Decoration.desc a) - bias (Decoration.desc b)
  else Decoration.from a - Decoration.from b.

(** [target.splice(i, 0, deco)] after the backward scan of
    [insertSorted]: the scan starts at the end of the array and passes
    every element that does not sort before [deco]. *)
Fixpoint insertSorted_scan (rev_target : list Decoration.t) (deco : Decoration.t)
  : list Decoration.t :=
  match rev_target with
  | [] => [deco]
  | last :: before =>
      if byPos last deco >=? 0 then last :: insertSorted_scan before deco
      else deco :: rev_target
  end.

Definition insertSorted (target : list Decoration.t) (deco : Decoration.t)
  : list Decoration.t :=
  reverse (insertSorted_scan (reverse target) deco).

(** [Array.prototype.sort] with a comparator, which is stable. *)
Fixpoint sort_insert (cmp : Decoration.t -> Decoration.t -> Z)
    (x : Decoration.t) (sorted : list Decoration.t) : list Decoration.t :=
  match sorted with
  | [] => [x]
  | y :: ys => if cmp y x <? 0 then y :: sort_insert cmp x ys else x :: sorted
  end.

Definition sort (cmp : Decoration.t -> Decoration.t -> Z)
    (a : list Decoration.t) : list Decoration.t :=
  foldr (sort_insert cmp) [] a.

Definition len {A : Type} (a : list A) : Z := Z.of_nat (length a).

(** [a.slice(i, j)] for [0 <= i]. *)
Definition slice {A : Type} (a : list A) (i j : Z) : list A :=
  take (Z.to_nat (j - i)) (drop (Z.to_nat i) a).

(** [a.splice(i, n, ...items)] for [0 <= i] and [0 <= n]. *)
Definition splice {A : Type} (a : list A) (i n : Z) (items : list A) : list A :=
  take (Z.to_nat i) a ++ items ++ drop (Z.to_nat (i + n)) a.

(** ** Decoration sets *)

(** [ToInt32]: the integer in [-2^31, 2^31) that is congruent to [x]
    modulo 2^32. *)
Definition toInt32 (x : Z) : Z := (x + 2 ^ 31) mod 2 ^ 32 - 2 ^ 31.

(** [x >> n] and [x << n]: the left operand is taken as a 32-bit
    integer, the count modulo 32, and [<<] wraps its result. *)
Definition shiftRight (x n : Z) : Z := Z.shiftr (toInt32 x) (n mod 32).

Definition shiftLeft (x n : Z) : Z := toInt32 (Z.shiftl (toInt32 x) (n mod 32)).

Definition BASE_NODE_SIZE_SHIFT : Z := 5.
Definition BASE_NODE_SIZE : Z := shiftLeft 1 BASE_NODE_SIZE_SHIFT.

Definition DecorationFilter : Type := Z -> Z -> DecorationSpec -> bool.

(** The array a [local] field refers to: the shared module-level array
    [noDecorations], or an array of the set's own. *)
Inductive LocalRef : Type :=
| NoDecorations
| OwnArray (a : list Decoration.t).

(** The content of a referenced array, given the present content [g] of
    the shared array. *)
Definition deref (g : list Decoration.t) (r : LocalRef) : list Decoration.t :=
  match r with
  | NoDecorations => g
  | OwnArray a => a
  end.

Module DecorationSet.
#[local] Unset Elimination Schemes.
Inductive t : Type := mk {
  length : Z;
  size : Z;
  local : LocalRef;
  children : list t
}.
#[local] Set Elimination Schemes.

Definition empty : t := mk 0 0 NoDecorations [].

Definition grow (this : t) (length' : Z) : t :=
  mk (length this + length') (size this) (local this) (children this).

(** [collect] pushes onto [target]; the result is the array after the
    call. *)
Fixpoint collect (g : list Decoration.t) (this : t)
    (target : list Decoration.t) (offset : Z) : list Decoration.t :=
  let target :=
    target ++ List.map (fun d => Decoration.move d offset) (deref g (local this)) in
  (fix over_children (cs : list t) (target : list Decoration.t) (offset : Z) :=
     match cs with
     | [] => target
     | child :: cs' =>
         over_children cs' (collect g child target offset) (offset + length child)
     end) (children this) target offset.
End DecorationSet.

(** What a method that may return its receiver returned: the receiver
    itself ([this]), or an object it built. *)
Inductive updated : Type :=
| This
| Built (s : DecorationSet.t).

Definition resolve (this : DecorationSet.t) (u : updated) : DecorationSet.t :=
  match u with
  | This => this
  | Built s => s
  end.

Definition is_built (u : updated) : bool :=
  match u with This => false | Built _ => true end.

(** [filterDecorations]: [seen] is [decorations.slice(0, i)]. *)
Fixpoint filterDecorations_loop (todo seen : list Decoration.t)
    (copy : option (list Decoration.t)) (filter : DecorationFilter)
    (filterFrom filterTo offset : Z) : option (list Decoration.t) :=
  match todo with
  | [] => copy
  | deco :: todo' =>
      let from := Decoration.from deco + offset in
      let to := Decoration.to deco + offset in
      if (filterFrom >? to) || (filterTo <? from)
         || filter from to (Decoration.spec deco)
      then
        filterDecorations_loop todo' (seen ++ [deco])
          (match copy with Some c => Some (c ++ [deco]) | None => None end)
          filter filterFrom filterTo offset
      else
        filterDecorations_loop todo' (seen ++ [deco])
          (match copy with Some c => Some c | None => Some seen end)
          filter filterFrom filterTo offset
  end.

Definition filterDecorations (decorations : list Decoration.t)
    (filter : option DecorationFilter) (filterFrom filterTo offset : Z)
  : option (list Decoration.t) :=
  match filter with
  | None => None
  | Some f => filterDecorations_loop decorations [] None f filterFrom filterTo offset
  end.

Definition collapseSet (g : list Decoration.t)
    (children : list DecorationSet.t) (local : list Decoration.t)
    (add : list Decoration.t) (start offset length : Z) : DecorationSet.t :=
  let wasEmpty := len local =? 0 in
  let local :=
    (fix over_children (cs : list DecorationSet.t) (local : list Decoration.t)
         (off : Z) :=
       match cs with
       | [] => local
       | child :: cs' =>
           over_children cs' (DecorationSet.collect g child local (- off))
             (off + DecorationSet.length child)
       end) children local 0 in
  let local := if wasEmpty then local else sort byPos local in
  let local :=
    local ++ List.map (fun d => Decoration.move d (- offset))
                      (slice add start (len add)) in
  DecorationSet.mk length (len local) (OwnArray local) [].

(** *** Update *)

(** The [while] loop of [updateInner] that hands the next additions to
    one child: [rest] is [decorations.slice(decI)], [thisLocal] is the
    content of [this.local]. *)
Fixpoint scan_additions (rest : list Decoration.t) (decI endPos offset : Z)
    (thisLocal : list Decoration.t)
    (local localDeco : option (list Decoration.t))
  : list Decoration.t * Z * option (list Decoration.t)
    * option (list Decoration.t) :=
  match rest with
  | [] => (rest, decI, local, localDeco)
  | next :: rest' =>
      if Decoration.from next >=? endPos then (rest, decI, local, localDeco)
      else if Decoration.to next >? endPos then
        scan_additions rest' (decI + 1) endPos offset thisLocal
          (Some (insertSorted (default thisLocal local)
                              (Decoration.move next (- offset))))
          localDeco
      else
        scan_additions rest' (decI + 1) endPos offset thisLocal local
          (Some (default [] localDeco ++ [next]))
  end.

(** The scan of [rebalanceChildren] for the siblings a wrapper node
    takes in: [nexts] is [children.slice(joinTo)]. *)
Fixpoint join_scan (nexts : list DecorationSet.t) (joinTo size length childSize : Z)
  : Z * Z * Z :=
  match nexts with
  | [] => (joinTo, size, length)
  | next :: nexts' =>
      let totalSize := size + DecorationSet.size next in
      if totalSize >? childSize then (joinTo, size, length)
      else join_scan nexts' (joinTo + 1) totalSize
             (length + DecorationSet.length next) childSize
  end.

Definition inJoined (off length : Z) (deco : Decoration.t) : bool :=
  (Decoration.from deco >=? off) && (Decoration.to deco <=? off + length).

(** The loop of [rebalanceChildren] that moves parent decorations into a
    wrapper node.  The variable [local] names the caller's array until
    that array is emptied by the loop; from then on ([detached]) it
    names the shared array [noDecorations], and the loop goes on over
    that array from index 0.  The result is the caller's array, the
    flag, the shared array and [joinedLocals]. *)
Definition reparent (local : list Decoration.t) (detached : bool)
    (g : list Decoration.t) (off length : Z)
  : list Decoration.t * bool * list Decoration.t * list Decoration.t :=
  let taken a := List.filter (inJoined off length) a in
  let left a := List.filter (fun d => negb (inJoined off length d)) a in
  let moved a := List.map (fun d => Decoration.move d (- off)) a in
  if detached then (local, true, left g, moved (taken g))
  else if (len (left local) =? 0) && negb (len (taken local) =? 0)
  then ([], true, left g, moved (taken local ++ taken g))
  else (left local, false, g, moved (taken local)).

(** [this.update(decorations, filter, filterFrom, filterTo)], over the
    [updateInner] it calls. *)
Definition update_with
    (updateInner : list Decoration.t -> DecorationSet.t -> list Decoration.t ->
                   option DecorationFilter -> Z -> Z -> Z -> Z ->
                   outcome (updated * list Decoration.t))
    (g : list Decoration.t) (this : DecorationSet.t)
    (decorations : list Decoration.t) (filter : option DecorationFilter)
    (filterFrom filterTo : Z) : outcome (updated * list Decoration.t) :=
  let maxLen :=
    foldl (fun l d => Z.max l (Decoration.to d)) (DecorationSet.length this)
          decorations in
  updateInner g this
    (if len decorations =? 0 then decorations else sort byPos decorations)
    filter filterFrom filterTo 0 maxLen.

(** [updateInner], [appendDecorations] and [rebalanceChildren] call each
    other; [fuel] bounds the depth of these calls and the turns of the
    two index loops.  Every function takes the content [g] of the shared
    array and returns it, as [rebalanceChildren] can write to it. *)
Fixpoint updateInner (fuel : nat) (g : list Decoration.t)
    (this : DecorationSet.t) (decorations : list Decoration.t)
    (filter : option DecorationFilter)
    (filterFrom filterTo offset length : Z) {struct fuel}
  : outcome (updated * list Decoration.t) :=
  match fuel with
  | O => OutOfFuel
  | S fuel' =>
    let local :=
      filterDecorations (deref g (DecorationSet.local this)) filter
                        filterFrom filterTo offset in
    do '(local, children, size, decI, pos, g) <-
      (fix over_children (todo done : list DecorationSet.t)
           (rest : list Decoration.t)
           (local : option (list Decoration.t))
           (children : option (list DecorationSet.t))
           (size decI pos : Z) (g : list Decoration.t) {struct todo} :=
         match todo with
         | [] => Ok (local, children, size, decI, pos, g)
         | child :: todo' =>
             let endPos := pos + DecorationSet.length child in
             let '(rest, decI, local, localDeco) :=
               scan_additions rest decI endPos offset
                 (deref g (DecorationSet.local this)) local None in
             do '(u, g) <-
               (if bool_decide (is_Some localDeco)
                   || (bool_decide (is_Some filter)
                       && (filterFrom <=? endPos) && (filterTo >=? pos))
                then updateInner fuel' g child (default g localDeco) filter
                       filterFrom filterTo pos (DecorationSet.length child)
                else Ok (This, g));
             let newChild := resolve child u in
             let children :=
               if is_built u then Some (default done children ++ [newChild])
               else match children with
                    | Some c => Some (c ++ [newChild])
                    | None => None
                    end in
             over_children todo' (done ++ [child]) rest local children
               (size + DecorationSet.size newChild) decI endPos g
         end)
        (DecorationSet.children this) [] decorations local None 0 0 offset g;
    if negb (bool_decide (is_Some local)) && negb (bool_decide (is_Some children))
       && (decI =? len decorations)
    then Ok (This, g)
    else
      let thisLocal := deref g (DecorationSet.local this) in
      let size := size + len (default thisLocal local) + len decorations - decI in
      if size <=? BASE_NODE_SIZE then
        Ok (Built (collapseSet g (default (DecorationSet.children this) children)
                     (default thisLocal local) decorations decI offset length), g)
      else
        let childSize :=
          Z.max BASE_NODE_SIZE (shiftRight size BASE_NODE_SIZE_SHIFT) in
        do '(local, children, g) <-
          (if decI <? len decorations then
             do '(local', children', g') <-
               appendDecorations fuel' g (default thisLocal local)
                 (default (DecorationSet.children this) children)
                 decorations decI offset length pos childSize;
             Ok (Some local', Some children', g')
           else Ok (local, children, g));
        do '(local, children, g) <-
          (match children with
           | Some children =>
               do '(local', children', g') <-
                 rebalanceChildren fuel' g
                   (default (deref g (DecorationSet.local this)) local)
                   false children childSize 0 0;
               Ok (Some local', Some children', g')
           | None => Ok (local, children, g)
           end);
        Ok (Built (DecorationSet.mk length size
                     (match local with
                      | Some a => OwnArray a
                      | None => DecorationSet.local this
                      end)
                     (default (DecorationSet.children this) children)), g)
  end

with appendDecorations (fuel : nat) (g : list Decoration.t)
    (local : list Decoration.t) (children : list DecorationSet.t)
    (decorations : list Decoration.t)
    (i offset length pos childSize : Z) {struct fuel}
  : outcome (list Decoration.t * list DecorationSet.t * list Decoration.t) :=
  match fuel with
  | O => OutOfFuel
  | S fuel' =>
    if i <? len decorations then
      let end_ := Z.min (i + childSize) (len decorations) in
      do endPos <-
        (if end_ =? len decorations then Ok (offset + length)
         else do d <- at_index decorations end_; Ok (Decoration.from d));
      let '(local, add) :=
        foldl (fun '(local, add) deco =>
                 if Decoration.to deco >? endPos
                 then (insertSorted local (Decoration.move deco (- offset)), add)
                 else (local, add ++ [deco]))
              (local, []) (slice decorations i end_) in
      let i := Z.max i end_ in
      if negb (len add =? 0) then
        do '(u, g) <-
          updateInner fuel' g DecorationSet.empty add None 0 0 pos (endPos - pos);
        appendDecorations fuel' g local
          (children ++ [resolve DecorationSet.empty u])
          decorations i offset length endPos childSize
      else
        appendDecorations fuel' g local children decorations i offset length pos
          childSize
    else Ok (local, children, g)
  end

(** [local] is the content of the caller's array and [detached] tells
    whether the variable [local] still names it (see [reparent]); [i]
    and [off] are the loop's variables. *)
with rebalanceChildren (fuel : nat) (g : list Decoration.t)
    (local : list Decoration.t) (detached : bool)
    (children : list DecorationSet.t) (childSize i off : Z) {struct fuel}
  : outcome (list Decoration.t * list DecorationSet.t * list Decoration.t) :=
  match fuel with
  | O => OutOfFuel
  | S fuel' =>
    if i <? len children then
      do child <- at_index children i;
      if (DecorationSet.size child =? 0) && ((i >? 0) || (len children =? 1))
      then
        (* Drop empty node *)
        let children := splice children i 1 [] in
        let i := i - 1 in
        do children <-
          (if i >=? 0 then
             do prev <- at_index children i;
             Ok (<[Z.to_nat i := DecorationSet.grow prev (DecorationSet.length child)]>
                   children)
           else Ok children);
        rebalanceChildren fuel' g local detached children childSize i off
      else if (DecorationSet.size child >? shiftLeft childSize 1)
              && (len (deref g (DecorationSet.local child))
                  <? shiftRight (DecorationSet.length child) 1)
      then
        (* Unwrap an overly big node *)
        match detached, DecorationSet.local child with
        | true, NoDecorations =>
            (* the loop inserts into the array it runs over: it ends
               only if that array is empty *)
            if len g =? 0
            then rebalanceChildren fuel' g local detached
                   (splice children i 1 (DecorationSet.children child))
                   childSize i off
            else OutOfFuel
        | _, _ =>
            let moved :=
              List.map (fun d => Decoration.move d off)
                       (deref g (DecorationSet.local child)) in
            let '(local, g) :=
              if detached then (local, foldl insertSorted g moved)
              else (foldl insertSorted local moved, g) in
            rebalanceChildren fuel' g local detached
              (splice children i 1 (DecorationSet.children child))
              childSize i off
        end
      else
        let join_leaves :=
          (len (DecorationSet.children child) =? 0) && (i <? len children - 1)
          && match children !! Z.to_nat (i + 1) with
             | Some next =>
                 (DecorationSet.size next + DecorationSet.size child
                  <=? BASE_NODE_SIZE)
                 && (len (DecorationSet.children next) =? 0)
             | None => false
             end in
        if join_leaves then
          (* Join two small leaf nodes *)
          do next <- at_index children (i + 1);
          let joined :=
            DecorationSet.mk
              (DecorationSet.length child + DecorationSet.length next)
              (DecorationSet.size child + DecorationSet.size next)
              (OwnArray
                 (deref g (DecorationSet.local child)
                  ++ List.map
                       (fun d => Decoration.move d (DecorationSet.length child))
                       (deref g (DecorationSet.local next))))
              [] in
          rebalanceChildren fuel' g local detached (splice children i 2 [joined])
            childSize i
            (off + DecorationSet.length child + DecorationSet.length next)
        else
          (* Join a number of nodes into a wrapper node *)
          let '(joinTo, size, length) :=
            if DecorationSet.size child <? shiftRight childSize 1
            then join_scan (drop (Z.to_nat (i + 1)) children) (i + 1)
                   (DecorationSet.size child) (DecorationSet.length child)
                   childSize
            else (i + 1, DecorationSet.size child, DecorationSet.length child) in
          if joinTo >? i + 1 then
            let joined :=
              DecorationSet.mk length size NoDecorations
                (slice children i joinTo) in
            let '(local, detached, g, joinedLocals) :=
              reparent local detached g off length in
            do '(joined, g) <-
              (if len joinedLocals =? 0 then Ok (joined, g)
               else
                 do '(u, g') <-
                   update_with (updateInner fuel') g joined
                     (sort byPos joinedLocals) None 0
                     (DecorationSet.length joined);
                 Ok (resolve joined u, g'));
            rebalanceChildren fuel' g local detached
              (splice children i (joinTo - i) [joined]) childSize joinTo
              (off + length)
          else
            rebalanceChildren fuel' g local detached children childSize (i + 1)
              (off + DecorationSet.length child)
    else Ok (local, children, g)
  end.

(** [this.update(decorations, filter, filterFrom, filterTo)]; the
    defaults of the last three arguments are [null], [0] and
    [this.length]. *)
Definition DecorationSet_update (fuel : nat) (g : list Decoration.t)
    (this : DecorationSet.t) (decorations : list Decoration.t)
    (filter : option DecorationFilter) (filterFrom filterTo : Z)
  : outcome (updated * list Decoration.t) :=
  update_with (updateInner fuel) g this decorations filter filterFrom filterTo.

(** The argument of [DecorationSet.of]: one decoration or an array. *)
Inductive of_argument : Type :=
| One (decoration : Decoration.t)
| Many (decorations : list Decoration.t).

(** [DecorationSet.of]; the receiver of [resolve] for its result is the
    sentinel [DecorationSet.empty], so [This] says that the sentinel
    object itself is returned. *)
Definition DecorationSet_of (fuel : nat) (g : list Decoration.t)
    (decorations : of_argument) : outcome (updated * list Decoration.t) :=
  match decorations with
  | One d =>
      DecorationSet_update fuel g DecorationSet.empty [d] None 0
        (DecorationSet.length DecorationSet.empty)
  | Many ds =>
      if negb (len ds =? 0)
      then DecorationSet_update fuel g DecorationSet.empty ds None 0
             (DecorationSet.length DecorationSet.empty)
      else Ok (This, g)
  end.

(** ** The set iterator *)

Module IteratedSet.
(** [index = -1]: the set's locals have not been yielded yet. *)
Record t : Type := mk {
  index : Z;
  offset : Z;
  set : DecorationSet.t
}.
End IteratedSet.

(** A [DecorationSetIterator] is its stack; the head of the list is the
    top of the stack, [stack[stack.length - 1]]. *)
Definition DecorationSetIterator : Type := list IteratedSet.t.

Definition newDecorationSetIterator (set : DecorationSet.t) (offset : Z)
  : DecorationSetIterator :=
  [IteratedSet.mk (-1) offset set].

Module LocalSet.
(** [decorations] is the content of the referenced array, which no
    reader of a cursor changes.  [next] is the iterator the cursor
    points back to, in the state the iterator has while the cursor is
    in use: nothing else advances it before the cursor is used up. *)
Record t : Type := mk {
  offset : Z;
  decorations : list Decoration.t;
  index : Z;
  next : option DecorationSetIterator
}.
End LocalSet.

(** The loop of [DecorationSetIterator.next]: the cursor it returns (or
    [null]) and the stack it leaves. *)
Fixpoint next_loop (fuel : nat) (g : list Decoration.t)
    (stack : DecorationSetIterator) (skip : Z)
  : outcome (option LocalSet.t * DecorationSetIterator) :=
  match fuel with
  | O => OutOfFuel
  | S fuel' =>
    match stack with
    | [] => Ok (None, [])
    | top :: below =>
      let set := IteratedSet.set top in
      let fresh := IteratedSet.index top <? 0 in
      let top :=
        if fresh then IteratedSet.mk 0 (IteratedSet.offset top) set else top in
      if fresh && (len (deref g (DecorationSet.local set)) >? 0) then
        Ok (Some (LocalSet.mk (IteratedSet.offset top)
                    (deref g (DecorationSet.local set)) 0
                    (if len (DecorationSet.children set) =? 0
                     then Some (top :: below) else None)),
            top :: below)
      else if IteratedSet.index top =? len (DecorationSet.children set) then
        next_loop fuel' g below skip
      else
        do next <- at_index (DecorationSet.children set) (IteratedSet.index top);
        let start := IteratedSet.offset top in
        let top :=
          IteratedSet.mk (IteratedSet.index top + 1)
            (IteratedSet.offset top + DecorationSet.length next) set in
        if skip >? DecorationSet.length next
        then next_loop fuel' g (top :: below) (skip - DecorationSet.length next)
        else next_loop fuel' g (IteratedSet.mk (-1) start next :: top :: below) skip
    end
  end.

(** The number of nodes of a tree, and a bound on the turns the loop of
    [next] can still take on a stack. *)
Fixpoint nodes (s : DecorationSet.t) : nat :=
  S (sum_list_with nodes (DecorationSet.children s)).

Definition frame_turns (f : IteratedSet.t) : nat :=
  ((if (IteratedSet.index f <? 0)%Z then 2 else 1)
   + 3 * sum_list_with nodes
           (drop (Z.to_nat (IteratedSet.index f))
                 (DecorationSet.children (IteratedSet.set f))))%nat.

Definition stack_turns (stack : DecorationSetIterator) : nat :=
  S (sum_list_with frame_turns stack).

Definition DecorationSetIterator_next (g : list Decoration.t)
    (stack : DecorationSetIterator) (skip : Z)
  : outcome (option LocalSet.t * DecorationSetIterator) :=
  next_loop (stack_turns stack) g stack skip.

(** ** The heap *)

(** A [Heapable] is a cursor or an active decoration.  An active
    decoration is an object of its own: [serial] numbers the pushes of
    the spans builder and stands for the identity of the object (the
    decorations of the sets given to the builder are taken to be
    distinct objects). *)
Inductive Heapable : Type :=
| HLocalSet (cursor : LocalSet.t)
| HDecoration (serial : nat) (deco : Decoration.t).

Definition heapPos (a : Heapable) : outcome Z :=
  match a with
  | HLocalSet c =>
      do d <- at_index (LocalSet.decorations c) (LocalSet.index c);
      Ok (Decoration.from d + LocalSet.offset c)
  | HDecoration _ d => Ok (Decoration.heapPos d)
  end.

Definition heapDesc (a : Heapable) : outcome DecorationDesc :=
  match a with
  | HLocalSet c =>
      do d <- at_index (LocalSet.decorations c) (LocalSet.index c);
      Ok (Decoration.desc d)
  | HDecoration _ d => Ok (Decoration.desc d)
  end.

Definition compareHeapable (a b : Heapable) : outcome Z :=
  do pa <- heapPos a;
  do pb <- heapPos b;
  if pa - pb =? 0 then
    do da <- heapDesc a;
    do db <- heapDesc b;
    Ok (bias da - bias db)
  else Ok (pa - pb).

(** Reading [heap[i]] and using the element. *)
Definition heap_at (heap : list Heapable) (i : nat) : outcome Heapable :=
  match heap !! i with
  | Some x => Ok x
  | None => TypeError
  end.

(** The [while] loop of [addToHeap]. *)
Fixpoint siftUp (fuel : nat) (heap : list Heapable) (elt : Heapable)
    (index : nat) : outcome (list Heapable) :=
  match fuel with
  | O => OutOfFuel
  | S fuel' =>
    if (0 <? index)%nat then
      let parentIndex := Nat.shiftr index 1 in
      do parent <- heap_at heap parentIndex;
      do c <- compareHeapable elt parent;
      if c >=? 0 then Ok heap
      else siftUp fuel' (<[parentIndex := elt]> (<[index := parent]> heap))
             elt parentIndex
    else Ok heap
  end.

Definition addToHeap (heap : list Heapable) (elt : Heapable)
  : outcome (list Heapable) :=
  let heap := heap ++ [elt] in
  let index := (length heap - 1)%nat in
  siftUp (S index) heap elt index.

(** The [for] loop of [takeFromHeap]. *)
Fixpoint siftDown (fuel : nat) (heap : list Heapable) (replacement : Heapable)
    (index : nat) : outcome (list Heapable) :=
  match fuel with
  | O => OutOfFuel
  | S fuel' =>
    let childIndex := (Nat.shiftl index 1 + 1)%nat in
    if (length heap <=? childIndex)%nat then Ok heap
    else
      do child <- heap_at heap childIndex;
      do '(child, childIndex) <-
        (if (childIndex + 1 <? length heap)%nat then
           do sibling <- heap_at heap (childIndex + 1);
           do c <- compareHeapable child sibling;
           if c >=? 0 then Ok (sibling, (childIndex + 1)%nat)
           else Ok (child, childIndex)
         else Ok (child, childIndex));
      do c <- compareHeapable replacement child;
      if c <? 0 then Ok heap
      else siftDown fuel' (<[index := child]> (<[childIndex := replacement]> heap))
             replacement childIndex
  end.

(** [takeFromHeap]: the element taken and the heap left.  On an empty
    array the JavaScript function returns [undefined], which its caller
    cannot use; the model gives [TypeError] at once. *)
Definition takeFromHeap (heap : list Heapable)
  : outcome (Heapable * list Heapable) :=
  match heap with
  | [] => TypeError
  | elt :: _ =>
      match last heap with
      | None => TypeError
      | Some replacement =>
          let heap := take (length heap - 1) heap in
          if (length heap =? 0)%nat then Ok (elt, heap)
          else
            do heap' <- siftDown (length heap) (<[0%nat := replacement]> heap)
                          replacement 0;
            Ok (elt, heap')
      end
  end.

(** [addIterToHeap(heap, iter, skip)]: the heap and the iterator are
    both changed by the call; the iterator lives on inside the last
    cursor pushed, when that cursor points back to it. *)
Fixpoint addIterToHeap_loop (fuel : nat) (g : list Decoration.t)
    (heap : list Heapable) (iter : DecorationSetIterator) (skip : Z)
  : outcome (list Heapable) :=
  match fuel with
  | O => OutOfFuel
  | S fuel' =>
    do '(next, iter) <- DecorationSetIterator_next g iter skip;
    match next with
    | None => Ok heap
    | Some cursor =>
        do heap <- addToHeap heap (HLocalSet cursor);
        if bool_decide (is_Some (LocalSet.next cursor)) then Ok heap
        else addIterToHeap_loop fuel' g heap iter skip
    end
  end.

Definition addIterToHeap (g : list Decoration.t) (heap : list Heapable)
    (iter : DecorationSetIterator) (skip : Z) : outcome (list Heapable) :=
  addIterToHeap_loop (stack_turns iter) g heap iter skip.

(** ** The spans builder *)

Definition spec_tagName (spec : DecorationRangeSpec) : option string :=
  tagName spec.

Module DecoratedRange.
Record t : Type := mk {
  from : Z;
  to : Z;
  tagName : option string;
  attrs : option (gmap string string)
}.

(** One turn of the [for (let name in spec.attributes)] loop.  The
    object [attrs] is a plain object, so the assignment
    [attrs[name] = value] stores an own property for every name but
    [__proto__]: that name reaches the accessor of [Object.prototype],
    whose setter ignores a string. *)
Definition add_attribute (name value : string)
    (attrs : option (gmap string string)) : option (gmap string string) :=
  let attrs := default ∅ attrs in
  let joined (sep : string) :=
    match attrs !! name with
    | Some old =>
        if String.eqb old EmptyString then value
        else String.append old (String.append sep value)
    | None => value
    end in
  let value :=
    if String.eqb name "style" then joined ";"
    else if String.eqb name "class" then joined " "
    else value in
  if String.eqb name "__proto__" then Some attrs
  else Some (<[name := value]> attrs).

Definition build (from to : Z) (ranges : list Decoration.t) : t :=
  let '(tagName, attrs) :=
    foldl (fun '(tagName, attrs) range =>
             match Decoration.desc range with
             | RangeDesc spec =>
                 (if truthy_string (spec_tagName spec)
                  then spec_tagName spec else tagName,
                  match attributes spec with
                  | Some a => map_fold add_attribute attrs a
                  | None => attrs
                  end)
             | PointDesc _ => (tagName, attrs)
             end)
          (None, None) ranges in
  mk from to tagName attrs.
End DecoratedRange.

(** [active.indexOf(deco)]: the first index that holds the object, or
    the length of the array when it holds it nowhere. *)
Fixpoint indexOf (active : list (nat * Decoration.t)) (serial : nat) : nat :=
  match active with
  | [] => O
  | (n, _) :: rest => if (n =? serial)%nat then O else S (indexOf rest serial)
  end.

(** [active.splice(active.indexOf(deco), 1)]; [indexOf] gives -1 for an
    absent object, and [splice(-1, 1)] removes the last element. *)
Definition remove_active (active : list (nat * Decoration.t)) (serial : nat)
  : list (nat * Decoration.t) :=
  let i := indexOf active serial in
  if (i <? length active)%nat then take i active ++ drop (S i) active
  else take (length active - 1) active.

(** The end of [decoratedSpansInRange], after its loop. *)
Definition finish_spans (result : list DecoratedRange.t)
    (active : list (nat * Decoration.t)) (pos to : Z) : list DecoratedRange.t :=
  if pos <? to
  then result ++ [DecoratedRange.build pos to (List.map snd active)]
  else result.

(** The [while] loop of [decoratedSpansInRange]; [serial] numbers the
    next active decoration. *)
Fixpoint spans_loop (fuel : nat) (g : list Decoration.t)
    (heap : list Heapable) (result : list DecoratedRange.t)
    (active : list (nat * Decoration.t)) (pos : Z) (serial : nat)
    (from to : Z) : outcome (list DecoratedRange.t) :=
  match fuel with
  | O => OutOfFuel
  | S fuel' =>
    if (0 <? length heap)%nat then
      do '(next, heap) <- takeFromHeap heap;
      match next with
      | HLocalSet next =>
          do deco <- at_index (LocalSet.decorations next) (LocalSet.index next);
          let next :=
            LocalSet.mk (LocalSet.offset next) (LocalSet.decorations next)
              (LocalSet.index next + 1) (LocalSet.next next) in
          do heap <-
            (if LocalSet.index next <? len (LocalSet.decorations next)
             then addToHeap heap (HLocalSet next)
             else match LocalSet.next next with
                  | Some iter => addIterToHeap g heap iter 0
                  | None => Ok heap
                  end);
          if Decoration.to deco + LocalSet.offset next <? from then
            spans_loop fuel' g heap result active pos serial from to
          else if Decoration.from deco + LocalSet.offset next >? to then
            Ok (finish_spans result active pos to)
          else
            match Decoration.desc deco with
            | RangeDesc spec =>
                if negb (affectsSpans spec) then
                  spans_loop fuel' g heap result active pos serial from to
                else
                  let deco := Decoration.move deco (LocalSet.offset next) in
                  let '(result, pos) :=
                    if Decoration.from deco >? pos
                    then (result ++ [DecoratedRange.build pos (Decoration.from deco)
                                       (List.map snd active)],
                          Decoration.from deco)
                    else (result, pos) in
                  let active := active ++ [(serial, deco)] in
                  do heap <- addToHeap heap (HDecoration serial deco);
                  spans_loop fuel' g heap result active pos (S serial) from to
            | PointDesc _ =>
                spans_loop fuel' g heap result active pos serial from to
            end
      | HDecoration id deco =>
          (* It is a decoration that ends here *)
          if Decoration.to deco >=? to then
            Ok (finish_spans result active pos to)
          else
            let '(result, pos) :=
              if Decoration.to deco >? pos
              then (result ++ [DecoratedRange.build pos (Decoration.to deco)
                                 (List.map snd active)],
                    Decoration.to deco)
              else (result, pos) in
            spans_loop fuel' g heap result (remove_active active id) pos serial
              from to
      end
    else Ok (finish_spans result active pos to)
  end.

(** The number of decorations stored in a tree. *)
Fixpoint stored (g : list Decoration.t) (s : DecorationSet.t) : nat :=
  (length (deref g (DecorationSet.local s))
   + sum_list_with (stored g) (DecorationSet.children s))%nat.

(** The first loop of [decoratedSpansInRange], over the sets. *)
Fixpoint seed_heap (g : list Decoration.t) (heap : list Heapable)
    (sets : list DecorationSet.t) (from : Z) : outcome (list Heapable) :=
  match sets with
  | [] => Ok heap
  | set :: sets' =>
      do heap <-
        (if DecorationSet.size set >? 0
         then addIterToHeap g heap (newDecorationSetIterator set 0) from
         else Ok heap);
      seed_heap g heap sets' from
  end.

(** Every turn of the [while] loop takes a decoration from a cursor or
    ends an active decoration, so twice the number of stored
    decorations bounds its turns. *)
Definition decoratedSpansInRange (g : list Decoration.t)
    (sets : list DecorationSet.t) (from to : Z)
  : outcome (list DecoratedRange.t) :=
  do heap <- seed_heap g [] sets from;
  spans_loop (S (2 * sum_list_with (stored g) sets)) g heap [] [] from O
    from to.


(** ** The structural invariants, as checks *)

Definition sum_sizes (cs : list DecorationSet.t) : Z :=
  foldr (fun c n => DecorationSet.size c + n) 0 cs.

Definition sum_lengths (cs : list DecorationSet.t) : Z :=
  foldr (fun c n => DecorationSet.length c + n) 0 cs.

(** P1 at every node: [size == local.length + sum(child.size)]. *)
Fixpoint size_sound (g : list Decoration.t) (s : DecorationSet.t) : bool :=
  (DecorationSet.size s
   =? len (deref g (DecorationSet.local s)) + sum_sizes (DecorationSet.children s))
  && forallb (size_sound g) (DecorationSet.children s).

Fixpoint sorted_byPos (a : list Decoration.t) : bool :=
  match a with
  | x :: (y :: _) as rest => (byPos x y <=? 0) && sorted_byPos rest
  | _ => true
  end.

(** P2 at every node: [local] sorted by [(from, desc.bias)]. *)
Fixpoint locals_sorted (g : list Decoration.t) (s : DecorationSet.t) : bool :=
  sorted_byPos (deref g (DecorationSet.local s))
  && forallb (locals_sorted g) (DecorationSet.children s).

Definition in_bounds (length : Z) (d : Decoration.t) : bool :=
  (0 <=? Decoration.from d) && (Decoration.from d <=? Decoration.to d)
  && (Decoration.to d <=? length).

(** P3 at every node: [0 <= from <= to <= length] for the locals. *)
Fixpoint locals_in_bounds (g : list Decoration.t) (s : DecorationSet.t) : bool :=
  forallb (in_bounds (DecorationSet.length s)) (deref g (DecorationSet.local s))
  && forallb (locals_in_bounds g) (DecorationSet.children s).

(** P4 at every node: the children have lengths that are not negative
    and sum to at most the length of the node. *)
Fixpoint children_fit (s : DecorationSet.t) : bool :=
  forallb (fun c => 0 <=? DecorationSet.length c) (DecorationSet.children s)
  && (sum_lengths (DecorationSet.children s) <=? DecorationSet.length s)
  && forallb children_fit (DecorationSet.children s).

Definition well_shaped (d : Decoration.t) : bool :=
  match Decoration.desc d with
  | RangeDesc _ => Decoration.from d <? Decoration.to d
  | PointDesc _ => Decoration.from d =? Decoration.to d
  end.

(** P5 at every node: ranges are not empty, points are. *)
Fixpoint locals_well_shaped (g : list Decoration.t) (s : DecorationSet.t) : bool :=
  forallb well_shaped (deref g (DecorationSet.local s))
  && forallb (locals_well_shaped g) (DecorationSet.children s).

Definition invariants (g : list Decoration.t) (s : DecorationSet.t) : bool :=
  size_sound g s && locals_sorted g s && locals_in_bounds g s
  && children_fit s && locals_well_shaped g s.

(** Whether an array holds a decoration with these ends. *)
Definition holds (from to : Z) (a : list Decoration.t) : bool :=
  existsb (fun d => (Decoration.from d =? from) && (Decoration.to d =? to)) a.

(** How many decorations of an array have these ends. *)
Definition occurrences (from to : Z) (a : list Decoration.t) : nat :=
  length (List.filter
            (fun d => (Decoration.from d =? from) && (Decoration.to d =? to)) a).

(** ** Concrete inputs *)

Definition plain_spec : DecorationRangeSpec :=
  mkRangeSpec None None None None None None.

(** [Decoration.range(from, to, {})], for [from < to]. *)
Definition plain (from to : Z) : Decoration.t :=
  Decoration.mk from to (RangeDesc plain_spec).

(** [Decoration.point(pos, {})] *)
Definition plain_point (pos : Z) : Decoration.t :=
  Decoration.mk pos pos (PointDesc (mkPointSpec None None)).

(** 33 ranges [10k, 10k + 5], for [k = 0 .. 32]. *)
Definition ranges33 : list Decoration.t :=
  List.map (fun k => plain (10 * Z.of_nat k) (10 * Z.of_nat k + 5)) (seq 0 33).

(** The filter that drops the decorations that start at 0. *)
Definition not_at_start : DecorationFilter :=
  fun from _ _ => negb (from =? 0).

(** 2048 ranges in 32 groups of 64: the range [j] of group [k] starts at
    [1000k + 10j]; it is 5 long for [j < 10] and 1500 long otherwise. *)
Definition ranges2048 : list Decoration.t :=
  flat_map
    (fun k =>
       List.map
         (fun j =>
            let from := 1000 * Z.of_nat k + 10 * Z.of_nat j in
            plain from (if (j <? 10)%nat then from + 5 else from + 1500))
         (seq 0 64))
    (seq 0 32).

(** 128 ranges in 4 groups of 32: the range [j] of group [k] is
    [1000k + 10j, 1000k + 10j + 5], but the last range of the first
    group is [310, 1500] and the last range of the last group is
    [3310, 30000]. *)
Definition ranges128 : list Decoration.t :=
  flat_map
    (fun k =>
       List.map
         (fun j =>
            let from := 1000 * Z.of_nat k + 10 * Z.of_nat j in
            plain from
              (if (j =? 31)%nat && (k =? 0)%nat then 1500
               else if (j =? 31)%nat && (k =? 3)%nat then 30000
               else from + 5))
         (seq 0 32))
    (seq 0 4).

(** 1920 ranges [4000 + 10m, 4005 + 10m], for [m = 0 .. 1919]. *)
Definition ranges1920 : list Decoration.t :=
  List.map (fun m => plain (4000 + 10 * Z.of_nat m) (4005 + 10 * Z.of_nat m))
           (seq 0 1920).

(** The heap after [addToHeap] of points at the given positions, in
    that order, into an empty array. *)
Fixpoint heap_of (heap : list Heapable) (positions : list Z)
  : outcome (list Heapable) :=
  match positions with
  | [] => Ok heap
  | p :: rest =>
      do heap <- addToHeap heap (HDecoration O (plain_point p));
      heap_of heap rest
  end.

(** The [heapPos] of the elements that [n] calls of [takeFromHeap]
    return, and the heap they leave. *)
Fixpoint take_all (n : nat) (heap : list Heapable)
  : outcome (list Z * list Heapable) :=
  match n with
  | O => Ok ([], heap)
  | S n' =>
      do '(elt, heap) <- takeFromHeap heap;
      do p <- heapPos elt;
      do '(ps, heap) <- take_all n' heap;
      Ok (p :: ps, heap)
  end.

(** ** Notions for the spans builder *)

(** A list of ranges that tiles [[from, to]]: each range is not empty
    and starts where the one before it ends. *)
Fixpoint tiles (from to : Z) (rs : list DecoratedRange.t) : Prop :=
  match rs with
  | [] => from = to
  | r :: rs' =>
      DecoratedRange.from r = from /\ from < DecoratedRange.to r
      /\ tiles (DecoratedRange.to r) to rs'
  end.

(** A stack frame whose index does not pass the end of the children. *)
Definition wf_frame (f : IteratedSet.t) : Prop :=
  IteratedSet.index f <= len (DecorationSet.children (IteratedSet.set f)).

(** The number of decorations a frame and a stack can still yield. *)
Definition frame_left (g : list Decoration.t) (f : IteratedSet.t) : nat :=
  ((if (IteratedSet.index f <? 0)%Z
    then length (deref g (DecorationSet.local (IteratedSet.set f)))
    else O)
   + sum_list_with (stored g)
       (drop (Z.to_nat (IteratedSet.index f))
             (DecorationSet.children (IteratedSet.set f))))%nat.

Definition stack_left (g : list Decoration.t) (stack : DecorationSetIterator)
  : nat :=
  sum_list_with (frame_left g) stack.

(** A heap element the comparator can read: a cursor stands on one of
    its decorations, and its iterator is well formed. *)
Definition valid_item (x : Heapable) : Prop :=
  match x with
  | HLocalSet c =>
      0 <= LocalSet.index c < len (LocalSet.decorations c)
      /\ match LocalSet.next c with
         | Some stack => Forall wf_frame stack
         | None => True
         end
  | HDecoration _ _ => True
  end.

(** The turns of the builder's loop an element still accounts for. *)
Definition item_weight (g : list Decoration.t) (x : Heapable) : nat :=
  match x with
  | HLocalSet c =>
      (2 * (length (LocalSet.decorations c) - Z.to_nat (LocalSet.index c))
       + 2 * match LocalSet.next c with
             | Some stack => stack_left g stack
             | None => O
             end)%nat
  | HDecoration _ _ => 1%nat
  end.

Definition heap_weight (g : list Decoration.t) (heap : list Heapable) : nat :=
  sum_list_with (item_weight g) heap.

(** The two sets of the merge scenario: [range(0, 10)] with class [a]
    and [range(5, 15)] with class [b], each as [DecorationSet.of]
    stores it. *)
Definition class_spec (name : string) : DecorationRangeSpec :=
  mkRangeSpec None None (Some {[ "class" := name ]}) None None None.

Definition set_a : DecorationSet.t :=
  DecorationSet.mk 10 1
    (OwnArray [Decoration.mk 0 10 (RangeDesc (class_spec "a"))]) [].

Definition set_b : DecorationSet.t :=
  DecorationSet.mk 15 1
    (OwnArray [Decoration.mk 5 15 (RangeDesc (class_spec "b"))]) [].

(** The frame of a stack after the iterator has passed [child]. *)
Definition passed (f : IteratedSet.t) (child : DecorationSet.t) : IteratedSet.t :=
  IteratedSet.mk (Z.max 0 (IteratedSet.index f) + 1)
    (IteratedSet.offset f + DecorationSet.length child) (IteratedSet.set f).

(** A root with two leaves, of lengths 4 and 6, that hold one point
    each. *)
Definition leaf4 : DecorationSet.t :=
  DecorationSet.mk 4 1 (OwnArray [plain_point 2]) [].

Definition leaf6 : DecorationSet.t :=
  DecorationSet.mk 6 1 (OwnArray [plain_point 3]) [].

Definition two_leaves : DecorationSet.t :=
  DecorationSet.mk 10 2 (OwnArray []) [leaf4; leaf6].

(** * More of the file: mapping a set *)

(** A change as [mapInner] and [touchesChange] read it: besides the
    method [mapPos] (the [Change.t] it carries), the fields [from],
    [to] and [text.length]. *)
Module TextChange.
Record t : Type := mk {
  change : Change.t;
  from : Z;
  to : Z;
  text_length : Z
}.
End TextChange.

Definition methods (changes : list TextChange.t) : list Change.t :=
  List.map TextChange.change changes.

Fixpoint touchesChange (from to : Z) (changes : list TextChange.t) : bool :=
  match changes with
  | [] => false
  | change :: rest =>
      if (TextChange.to change >=? from) && (TextChange.from change <=? to)
      then true
      else
        let diff :=
          TextChange.text_length change
          - (TextChange.to change - TextChange.from change) in
        let from := if from >? TextChange.from change then from + diff else from in
        let to := if to >? TextChange.to change then to + diff else to in
        touchesChange from to rest
  end.

(** The first loop of [mapInner], over [this.local]; [seen] is
    [this.local.slice(0, i)].  [deco.map] never returns its argument
    (it builds a decoration or returns [null]), so the test
    [deco != mapped] holds at every turn. *)
Fixpoint mapInner_locals (todo seen : list Decoration.t)
    (changes : list Change.t) (newLength : Z)
    (newLocal escaped : option (list Decoration.t))
  : option (list Decoration.t) * option (list Decoration.t) :=
  match todo with
  | [] => (newLocal, escaped)
  | deco :: todo' =>
      let mapped := Decoration.map deco changes in
      let newLocal :=
        match newLocal with
        | None => Some seen
        | Some a => Some a
        end in
      match mapped with
      | Some m =>
          if (Decoration.from m <? 0) || (Decoration.to m >? newLength)
          then mapInner_locals todo' (seen ++ [deco]) changes newLength newLocal
                 (Some (default [] escaped ++ [m]))
          else mapInner_locals todo' (seen ++ [deco]) changes newLength
                 (match newLocal with
                  | Some a => Some (a ++ [m])
                  | None => None
                  end)
                 escaped
      | None =>
          mapInner_locals todo' (seen ++ [deco]) changes newLength newLocal
            escaped
      end
  end.

(** The loop of [mapInner] over the decorations that escaped from a
    child; [thisLocal] is the content of [this.local]. *)
Fixpoint mapInner_escaped (inner : list Decoration.t) (shift newLength : Z)
    (thisLocal : list Decoration.t)
    (newLocal escaped : option (list Decoration.t))
  : option (list Decoration.t) * option (list Decoration.t) :=
  match inner with
  | [] => (newLocal, escaped)
  | d :: inner' =>
      let deco := Decoration.move d shift in
      if (Decoration.from deco <? 0) || (Decoration.to deco >? newLength)
      then mapInner_escaped inner' shift newLength thisLocal newLocal
             (Some (default [] escaped ++ [deco]))
      else mapInner_escaped inner' shift newLength thisLocal
             (Some (insertSorted (default thisLocal newLocal) deco)) escaped
  end.

(** What [mapInner] does with the new child in [newChildren]: [done] is
    [this.children.slice(0, i)], [count] is [this.children.length]. *)
Definition place_child (newChildren : option (list DecorationSet.t))
    (done : list DecorationSet.t) (child : DecorationSet.t) (u : updated)
    (i count : Z) : outcome (option (list DecorationSet.t)) :=
  let newChild := resolve child u in
  if is_built u then
    let children := default done newChildren in
    if (DecorationSet.size newChild =? 0)
       && ((DecorationSet.length newChild =? 0) || (i >? 0) || (i =? count))
    then
      if (DecorationSet.length newChild >? 0) && (i >? 0) then
        do last <- at_index children (i - 1);
        Ok (Some (<[Z.to_nat (i - 1) :=
                      DecorationSet.mk
                        (DecorationSet.length last + DecorationSet.length newChild)
                        (DecorationSet.size last) (DecorationSet.local last)
                        (DecorationSet.children last)]> children))
      else Ok (Some children)
    else Ok (Some (children ++ [newChild]))
  else
    match newChildren with
    | Some children => Ok (Some (children ++ [newChild]))
    | None => Ok None
    end.

(** [mapInner]: the set it returns (its receiver or a new one) and the
    decorations that escaped.  It reads the shared array and does not
    write to it. *)
Fixpoint mapInner (g : list Decoration.t) (this : DecorationSet.t)
    (changes : list TextChange.t) (oldStart newStart newEnd : Z)
  : outcome (updated * option (list Decoration.t)) :=
  let newLength := newEnd - newStart in
  let thisLocal := deref g (DecorationSet.local this) in
  let '(newLocal, escaped) :=
    mapInner_locals thisLocal [] (methods changes) newLength None None in
  do '(newLocal, escaped, newChildren, newSize) <-
    (fix over_children (todo done : list DecorationSet.t) (i oldPos newPos : Z)
         (newLocal escaped : option (list Decoration.t))
         (newChildren : option (list DecorationSet.t)) (newSize : Z)
         {struct todo} :=
       match todo with
       | [] => Ok (newLocal, escaped, newChildren, newSize)
       | child :: todo' =>
           let oldChildEnd := oldPos + DecorationSet.length child in
           let newChildEnd :=
             mapPos (oldPos + DecorationSet.length child) (methods changes) 1 in
           do '(u, newLocal, escaped) <-
             (if touchesChange oldPos oldChildEnd changes then
                do '(u, inner) <- mapInner g child changes oldPos newPos newChildEnd;
                let '(newLocal, escaped) :=
                  match inner with
                  | Some inner =>
                      mapInner_escaped inner (newPos - newStart) newLength
                        thisLocal newLocal escaped
                  | None => (newLocal, escaped)
                  end in
                Ok (u, newLocal, escaped)
              else if negb (newChildEnd - newPos =? oldChildEnd - oldPos) then
                Ok (Built (DecorationSet.mk (newChildEnd - newPos)
                             (DecorationSet.size child)
                             (DecorationSet.local child)
                             (DecorationSet.children child)),
                    newLocal, escaped)
              else Ok (This, newLocal, escaped));
           do newChildren <-
             place_child newChildren done child u i
               (len (DecorationSet.children this));
           over_children todo' (done ++ [child]) (i + 1) oldChildEnd newChildEnd
             newLocal escaped newChildren
             (newSize + DecorationSet.size (resolve child u))
       end)
      (DecorationSet.children this) [] 0 oldStart newStart newLocal escaped None 0;
  let set :=
    if (newLength =? DecorationSet.length this)
       && negb (bool_decide (is_Some newChildren))
       && negb (bool_decide (is_Some newLocal))
    then This
    else Built (DecorationSet.mk newLength
                  (newSize + len (default thisLocal newLocal))
                  (match newLocal with
                   | Some a => OwnArray a
                   | None => DecorationSet.local this
                   end)
                  (default (DecorationSet.children this) newChildren)) in
  Ok (set, escaped).

(** [this.map(changes)]; [sentinel] tells whether the receiver is the
    object [DecorationSet.empty] itself. *)
Definition DecorationSet_map (g : list Decoration.t) (this : DecorationSet.t)
    (sentinel : bool) (changes : list TextChange.t) : outcome updated :=
  if (len changes =? 0) || sentinel then Ok This
  else
    do '(set, _) <-
      mapInner g this changes 0 0
        (mapPos (DecorationSet.length this) (methods changes) 1);
    Ok set.

(** * Notions for the further properties *)

(** Whether [filterDecorations] keeps a decoration: it lies outside the
    window or the filter accepts it. *)
Definition kept_by (filter : DecorationFilter) (filterFrom filterTo offset : Z)
    (deco : Decoration.t) : bool :=
  (filterFrom >? Decoration.to deco + offset)
  || (filterTo <? Decoration.from deco + offset)
  || filter (Decoration.from deco + offset) (Decoration.to deco + offset)
       (Decoration.spec deco).

(** The height of a tree: 1 for a leaf. *)
Fixpoint height (s : DecorationSet.t) : nat :=
  S (foldr (fun c n => Nat.max (height c) n) O (DecorationSet.children s)).

(** A check on the children of a node, each with the position at which
    it starts. *)
Fixpoint forall_children (check : Z -> DecorationSet.t -> bool)
    (children : list DecorationSet.t) (pos : Z) : bool :=
  match children with
  | [] => true
  | child :: rest =>
      check pos child
      && forall_children check rest (pos + DecorationSet.length child)
  end.

(** Whether a filter and its window keep every decoration of the tree
    that starts at [offset]. *)
Fixpoint keeps_all (g : list Decoration.t) (filter : DecorationFilter)
    (filterFrom filterTo offset : Z) (s : DecorationSet.t) : bool :=
  forallb (kept_by filter filterFrom filterTo offset)
          (deref g (DecorationSet.local s))
  && forall_children (keeps_all g filter filterFrom filterTo)
       (DecorationSet.children s) offset.

(** [collect] over the children of a node, one after the other. *)
Fixpoint collect_children (g : list Decoration.t)
    (children : list DecorationSet.t) (target : list Decoration.t) (offset : Z)
  : list Decoration.t :=
  match children with
  | [] => target
  | child :: rest =>
      collect_children g rest (DecorationSet.collect g child target offset)
        (offset + DecorationSet.length child)
  end.

(** The nonempty local arrays of a tree in the order of a left-first
    descent, each with the position at which its node starts. *)
Fixpoint preorder (g : list Decoration.t) (offset : Z) (s : DecorationSet.t)
  : list (Z * list Decoration.t) :=
  (if len (deref g (DecorationSet.local s)) >? 0
   then [(offset, deref g (DecorationSet.local s))] else [])
  ++ (fix over_children (cs : list DecorationSet.t) (offset : Z) :=
        match cs with
        | [] => []
        | child :: rest =>
            preorder g offset child
            ++ over_children rest (offset + DecorationSet.length child)
        end) (DecorationSet.children s) offset.

Fixpoint preorder_children (g : list Decoration.t)
    (children : list DecorationSet.t) (offset : Z)
  : list (Z * list Decoration.t) :=
  match children with
  | [] => []
  | child :: rest =>
      preorder g offset child
      ++ preorder_children g rest (offset + DecorationSet.length child)
  end.

(** What an iterator has still to yield: for each frame, from the top
    of the stack, the locals of its set if they are not yielded yet and
    then the children from its index on. *)
Definition frame_rest (g : list Decoration.t) (f : IteratedSet.t)
  : list (Z * list Decoration.t) :=
  (if (IteratedSet.index f <? 0)
      && (len (deref g (DecorationSet.local (IteratedSet.set f))) >? 0)
   then [(IteratedSet.offset f, deref g (DecorationSet.local (IteratedSet.set f)))]
   else [])
  ++ preorder_children g
       (drop (Z.to_nat (IteratedSet.index f))
             (DecorationSet.children (IteratedSet.set f)))
       (IteratedSet.offset f).

Definition stack_rest (g : list Decoration.t) (stack : DecorationSetIterator)
  : list (Z * list Decoration.t) :=
  flat_map (frame_rest g) stack.

(** No node of the tree has a negative length. *)
Fixpoint lengths_nonneg (s : DecorationSet.t) : bool :=
  (0 <=? DecorationSet.length s)
  && forallb lengths_nonneg (DecorationSet.children s).

(** One call of [next(0)] against what the stack has still to yield. *)
Definition yields_head (g : list Decoration.t) (stack : DecorationSetIterator)
    (res : option LocalSet.t) (stack' : DecorationSetIterator) : Prop :=
  match stack_rest g stack with
  | [] => res = None
  | (offset, decorations) :: rest =>
      exists cursor,
        res = Some cursor
        /\ LocalSet.offset cursor = offset
        /\ LocalSet.decorations cursor = decorations
        /\ LocalSet.index cursor = 0
        /\ stack_rest g stack' = rest
  end.

(** The key by which the heap orders an element it can read: its
    [heapPos] and the bias of its descriptor. *)
Definition heap_key (x : Heapable) : option (Z * Z) :=
  match heapPos x, heapDesc x with
  | Ok p, Ok d => Some (p, bias d)
  | _, _ => None
  end.

(** [a] is not after [b] for [compareHeapable]. *)
Definition precedes (a b : Heapable) : Prop :=
  exists c, compareHeapable a b = Ok c /\ c <= 0.

(** The order that [addToHeap] keeps: every element but the first is
    not before the element at half its index. *)
Definition parent_ordered (heap : list Heapable) : Prop :=
  forall (i : nat) (x p : Heapable),
    (0 < i)%nat -> heap !! i = Some x -> heap !! Nat.div2 i = Some p ->
    precedes p x.

(** [addToHeap] of the elements, in their order. *)
Fixpoint push_all (heap : list Heapable) (elts : list Heapable)
  : outcome (list Heapable) :=
  match elts with
  | [] => Ok heap
  | elt :: rest =>
      do heap <- addToHeap heap elt;
      push_all heap rest
  end.

(** The loop of [mapInner] over [this.children], as a function of its
    own: [count] is [this.children.length], [thisLocal] the content of
    [this.local], [newLength] is [newEnd - newStart]. *)
Fixpoint mapInner_children (g : list Decoration.t) (changes : list TextChange.t)
    (newStart newLength : Z) (thisLocal : list Decoration.t) (count : Z)
    (todo done : list DecorationSet.t) (i oldPos newPos : Z)
    (newLocal escaped : option (list Decoration.t))
    (newChildren : option (list DecorationSet.t)) (newSize : Z)
  : outcome (option (list Decoration.t) * option (list Decoration.t)
             * option (list DecorationSet.t) * Z) :=
  match todo with
  | [] => Ok (newLocal, escaped, newChildren, newSize)
  | child :: todo' =>
      let oldChildEnd := oldPos + DecorationSet.length child in
      let newChildEnd :=
        mapPos (oldPos + DecorationSet.length child) (methods changes) 1 in
      do '(u, newLocal, escaped) <-
        (if touchesChange oldPos oldChildEnd changes then
           do '(u, inner) <- mapInner g child changes oldPos newPos newChildEnd;
           let '(newLocal, escaped) :=
             match inner with
             | Some inner =>
                 mapInner_escaped inner (newPos - newStart) newLength
                   thisLocal newLocal escaped
             | None => (newLocal, escaped)
             end in
           Ok (u, newLocal, escaped)
         else if negb (newChildEnd - newPos =? oldChildEnd - oldPos) then
           Ok (Built (DecorationSet.mk (newChildEnd - newPos)
                        (DecorationSet.size child)
                        (DecorationSet.local child)
                        (DecorationSet.children child)),
               newLocal, escaped)
         else Ok (This, newLocal, escaped));
      do newChildren <- place_child newChildren done child u i count;
      mapInner_children g changes newStart newLength thisLocal count
        todo' (done ++ [child]) (i + 1) oldChildEnd newChildEnd
        newLocal escaped newChildren
        (newSize + DecorationSet.size (resolve child u))
  end.

(** What [mapInner] returns once its two loops are done. *)
Definition mapInner_result (g : list Decoration.t) (this : DecorationSet.t)
    (newLength : Z)
    (r : option (list Decoration.t) * option (list Decoration.t)
         * option (list DecorationSet.t) * Z)
  : updated * option (list Decoration.t) :=
  let '(newLocal, escaped, newChildren, newSize) := r in
  (if (newLength =? DecorationSet.length this)
      && negb (bool_decide (is_Some newChildren))
      && negb (bool_decide (is_Some newLocal))
   then This
   else Built (DecorationSet.mk newLength
                 (newSize + len (default (deref g (DecorationSet.local this)) newLocal))
                 (match newLocal with
                  | Some a => OwnArray a
                  | None => DecorationSet.local this
                  end)
                 (default (DecorationSet.children this) newChildren)),
   escaped).

(** The heap while [siftUp] carries an element at index [k]: every
    other element is in order with its parent, and the elements below
    [k] are in order with the parent of [k]. *)
Definition ordered_but (heap : list Heapable) (k : nat) : Prop :=
  (forall (i : nat) (x p : Heapable),
      (0 < i)%nat -> i <> k -> heap !! i = Some x ->
      heap !! Nat.div2 i = Some p -> precedes p x)
  /\ (forall (c : nat) (x gp : Heapable),
         (0 < k)%nat -> Nat.div2 c = k -> heap !! c = Some x ->
         heap !! Nat.div2 k = Some gp -> precedes gp x).

(** An optional array whose decorations, if it is there, are well
    shaped. *)
Definition all_shaped (o : option (list Decoration.t)) : Prop :=
  forall a, o = Some a -> Forall (fun d => well_shaped d = true) a.

(** The value of an attribute in an optional attribute object. *)
Definition attribute_of (name : string) (attrs : option (gmap string string))
  : option string :=
  match attrs with
  | Some m => m !! name
  | None => None
  end.

(** The values that the ranges give to an attribute, in the order of
    the ranges. *)
Definition attribute_values (name : string) (ranges : list Decoration.t)
  : list string :=
  omap (fun r => match Decoration.desc r with
                 | RangeDesc spec => attribute_of name (attributes spec)
                 | PointDesc _ => None
                 end) ranges.

(** The tag names of the ranges that are not empty strings. *)
Definition tag_names (ranges : list Decoration.t) : list string :=
  omap (fun r => match Decoration.desc r with
                 | RangeDesc spec =>
                     if truthy_string (spec_tagName spec)
                     then spec_tagName spec else None
                 | PointDesc _ => None
                 end) ranges.

(** The value [add_attribute] stores for [name] when the object holds
    [old] and the range gives [value]. *)
Definition joined_value (name : string) (old : option string) (value : string)
  : string :=
  let joined (sep : string) :=
    match old with
    | Some old =>
        if String.eqb old EmptyString then value
        else String.append old (String.append sep value)
    | None => value
    end in
  if String.eqb name "style" then joined ";"
  else if String.eqb name "class" then joined " "
  else value.

(** What the three functions of the update path keep, when they return
    within [fuel]: the decorations of the shared array, of the local
    arrays and of every node stay well shaped. *)
Definition updateInner_keeps_shape (fuel : nat) : Prop :=
  forall (g : list Decoration.t) (this : DecorationSet.t)
         (decorations : list Decoration.t) (filter : option DecorationFilter)
         (filterFrom filterTo offset length : Z) (u : updated)
         (g' : list Decoration.t),
    Forall (fun d => well_shaped d = true) g ->
    locals_well_shaped g this = true ->
    Forall (fun d => well_shaped d = true) decorations ->
    updateInner fuel g this decorations filter filterFrom filterTo offset length
    = Ok (u, g') ->
    Forall (fun d => well_shaped d = true) g'
    /\ locals_well_shaped g' (resolve this u) = true.

Definition appendDecorations_keeps_shape (fuel : nat) : Prop :=
  forall (g local : list Decoration.t) (children : list DecorationSet.t)
         (decorations : list Decoration.t) (i offset length pos childSize : Z)
         (local' : list Decoration.t) (children' : list DecorationSet.t)
         (g' : list Decoration.t),
    Forall (fun d => well_shaped d = true) g ->
    Forall (fun d => well_shaped d = true) local ->
    Forall (fun c => locals_well_shaped g c = true) children ->
    Forall (fun d => well_shaped d = true) decorations ->
    appendDecorations fuel g local children decorations i offset length pos
      childSize = Ok (local', children', g') ->
    Forall (fun d => well_shaped d = true) g'
    /\ Forall (fun d => well_shaped d = true) local'
    /\ Forall (fun c => locals_well_shaped g' c = true) children'.

Definition rebalanceChildren_keeps_shape (fuel : nat) : Prop :=
  forall (g local : list Decoration.t) (detached : bool)
         (children : list DecorationSet.t) (childSize i off : Z)
         (local' : list Decoration.t) (children' : list DecorationSet.t)
         (g' : list Decoration.t),
    Forall (fun d => well_shaped d = true) g ->
    Forall (fun d => well_shaped d = true) local ->
    Forall (fun c => locals_well_shaped g c = true) children ->
    rebalanceChildren fuel g local detached children childSize i off
    = Ok (local', children', g') ->
    Forall (fun d => well_shaped d = true) g'
    /\ Forall (fun d => well_shaped d = true) local'
    /\ Forall (fun c => locals_well_shaped g' c = true) children'.

(** A root of length 30 with three leaves of length 10, each holding
    the range [2, 5] of its own coordinates. *)
Definition three_leaves : DecorationSet.t :=
  DecorationSet.mk 30 3 (OwnArray [])
    [DecorationSet.mk 10 1 (OwnArray [plain 2 5]) [];
     DecorationSet.mk 10 1 (OwnArray [plain 2 5]) [];
     DecorationSet.mk 10 1 (OwnArray [plain 2 5]) []].

(** The change that deletes the text between [from] and [to]. *)
Definition deletion (from to : Z) : TextChange.t :=
  TextChange.mk
    (Change.mk (fun pos _ =>
                  if pos <=? from then pos
                  else if to <=? pos then pos - (to - from) else from))
    from to 0.

(** Whether a mapped decoration still lies in a node of length
    [newLength]: the negation of the test [escape] of [mapInner]. *)
Definition fits (newLength : Z) (mapped : Decoration.t) : bool :=
  negb ((Decoration.from mapped <? 0) || (Decoration.to mapped >? newLength)).

(** The decorations of an array that survive [Decoration.map], mapped. *)
Definition mapped_through (changes : list Change.t) (a : list Decoration.t)
  : list Decoration.t :=
  omap (fun d => Decoration.map d changes) a.

(** ** What a call [next(skip)] is to find

    The reading of the tree that the iterator is compared with: a
    left-first descent in which a child strictly shorter than the skip
    that remains is passed by, with the skip reduced by its length, and
    any other child is entered.  The descent ends at the first local
    array that is not empty, or with the skip that remains. *)
Inductive search : Type :=
| Yields (offset : Z) (decorations : list Decoration.t)
| Passes (skip : Z).

Fixpoint search_set (g : list Decoration.t) (s : DecorationSet.t)
    (offset skip : Z) : search :=
  if len (deref g (DecorationSet.local s)) >? 0
  then Yields offset (deref g (DecorationSet.local s))
  else
    (fix over_children (cs : list DecorationSet.t) (offset skip : Z) :=
       match cs with
       | [] => Passes skip
       | child :: rest =>
           if DecorationSet.length child <? skip
           then over_children rest (offset + DecorationSet.length child)
                  (skip - DecorationSet.length child)
           else match search_set g child offset skip with
                | Yields o d => Yields o d
                | Passes skip' =>
                    over_children rest (offset + DecorationSet.length child) skip'
                end
       end) (DecorationSet.children s) offset skip.

Fixpoint search_children (g : list Decoration.t) (cs : list DecorationSet.t)
    (offset skip : Z) : search :=
  match cs with
  | [] => Passes skip
  | child :: rest =>
      if DecorationSet.length child <? skip
      then search_children g rest (offset + DecorationSet.length child)
             (skip - DecorationSet.length child)
      else match search_set g child offset skip with
           | Yields o d => Yields o d
           | Passes skip' =>
               search_children g rest (offset + DecorationSet.length child) skip'
           end
  end.

(** The same for a stack: the locals of a frame if they are not yielded
    yet, then its children from its index on, then the frames below. *)
Definition search_frame (g : list Decoration.t) (f : IteratedSet.t) (skip : Z)
  : search :=
  if (IteratedSet.index f <? 0)
     && (len (deref g (DecorationSet.local (IteratedSet.set f))) >? 0)
  then Yields (IteratedSet.offset f)
         (deref g (DecorationSet.local (IteratedSet.set f)))
  else search_children g
         (drop (Z.to_nat (IteratedSet.index f))
               (DecorationSet.children (IteratedSet.set f)))
         (IteratedSet.offset f) skip.

Fixpoint search_stack (g : list Decoration.t) (stack : DecorationSetIterator)
    (skip : Z) : search :=
  match stack with
  | [] => Passes skip
  | f :: below =>
      match search_frame g f skip with
      | Yields o d => Yields o d
      | Passes skip' => search_stack g below skip'
      end
  end.

(** The result of [next] agrees with a search: a cursor at index 0 on
    the array found, or [null]. *)
Definition answers (found : search) (res : option LocalSet.t) : Prop :=
  match found with
  | Yields offset decorations =>
      exists cursor,
        res = Some cursor
        /\ LocalSet.offset cursor = offset
        /\ LocalSet.decorations cursor = decorations
        /\ LocalSet.index cursor = 0
  | Passes _ => res = None
  end.

(** ** Exact additions

    A JavaScript number holds every integer strictly between -2^53 and
    2^53 exactly, and a sum of two such numbers whose exact value lies
    in that range is that value. *)
Definition safe_integer (z : Z) : Prop := - 2 ^ 53 < z < 2 ^ 53.

(** The additions of [d.move(offset)] are exact. *)
Definition moves_exactly (d : Decoration.t) (offset : Z) : Prop :=
  safe_integer (Decoration.from d) /\ safe_integer (Decoration.to d)
  /\ safe_integer offset
  /\ safe_integer (Decoration.from d + offset)
  /\ safe_integer (Decoration.to d + offset).
(** * Properties *)

(** ** Construction of decorations *)

(** C9. [Decoration.range(from, to, spec)] throws the range error
    exactly when [from >= to] and otherwise returns a decoration with
    that [from] and [to]; [Decoration.point(pos, spec)] succeeds for
    every integer [pos]. *)
Theorem range_fails_exactly_when_empty :
  forall (from to : Z) (spec : DecorationRangeSpec),
    ((from >= to
      /\ Decoration.range from to spec
         = RangeError "Range decorations may not be empty")
     \/ (from < to
         /\ exists d, Decoration.range from to spec = Ok d
                      /\ Decoration.from d = from /\ Decoration.to d = to
                      /\ Decoration.spec d = OfRangeSpec spec))
    /\ forall (pos : Z) (pspec : DecorationPointSpec),
         exists d, Decoration.point pos pspec = Ok d
                   /\ Decoration.from d = pos /\ Decoration.to d = pos.
Proof.
  intros from to spec. split.
  - unfold Decoration.range. destruct (Z.geb_spec from to) as [Hge | Hlt].
    + left. split; [lia | reflexivity].
    + right. split; [lia |]. eexists. repeat split.
  - intros pos pspec. eexists. repeat split.
Qed.

(** ** Mapping one decoration *)

(** C7. For a range decoration, [map] returns a decoration whose ends
    are [mapPos(from, changes, bias)] and [mapPos(to, changes, endBias)]
    exactly when the first is strictly below the second, and [null]
    otherwise; for a point decoration it always returns a decoration,
    whose [from] equals its [to]. *)
Theorem map_keeps_nonempty_ranges_and_points :
  forall (d : Decoration.t) (changes : list Change.t),
    match Decoration.desc d with
    | RangeDesc spec =>
        let from' := mapPos (Decoration.from d) changes (bias (Decoration.desc d)) in
        let to' := mapPos (Decoration.to d) changes (endBias spec) in
        (from' < to'
         /\ Decoration.map d changes
            = Some (Decoration.mk from' to' (Decoration.desc d)))
        \/ (to' <= from' /\ Decoration.map d changes = None)
    | PointDesc spec =>
        exists d', Decoration.map d changes = Some d'
                   /\ Decoration.from d' = Decoration.to d'
                   /\ Decoration.from d'
                      = mapPos (Decoration.from d) changes (bias (Decoration.desc d))
                   /\ Decoration.desc d' = Decoration.desc d
    end.
Proof.
  intros [from to desc] changes. unfold Decoration.map. simpl.
  destruct desc as [spec | spec]; simpl.
  - destruct (Z.ltb_spec (mapPos from changes
                            (if truthy_bool (inclusiveStart spec)
                             then - BIG_BIAS else BIG_BIAS))
                         (mapPos to changes (endBias spec))) as [Hlt | Hge].
    + left. split; [exact Hlt | reflexivity].
    + right. split; [exact Hge | reflexivity].
  - eexists. repeat split.
Qed.

(** ** The empty sentinel *)

(** C10. [DecorationSet.of] applied to an empty array returns the
    sentinel [DecorationSet.empty] itself in every state: no set is
    built and the shared array is left as it was.  The sentinel has
    length 0, size 0, no children, and for its local decorations the
    shared array [noDecorations] itself, so it has no local decorations
    only as long as that array is empty, as it is when the module is
    loaded.  After [of] on the 128 ranges and [update] with the 1920
    ranges (the run of C4) the shared array holds 32 decorations, and
    [of] applied to an empty array then returns the sentinel with
    these 32 local decorations, while its size is 0. *)
Theorem of_empty_array_returns_a_sentinel_with_decorations :
  (forall (fuel : nat) (g : list Decoration.t),
      DecorationSet_of fuel g (Many []) = Ok (This, g)
      /\ resolve DecorationSet.empty This = DecorationSet.empty
      /\ DecorationSet.length DecorationSet.empty = 0
      /\ DecorationSet.size DecorationSet.empty = 0
      /\ DecorationSet.children DecorationSet.empty = []
      /\ deref g (DecorationSet.local DecorationSet.empty) = g)
  /\ exists s s' g',
       DecorationSet_of 256 [] (Many ranges128) = Ok (Built s, [])
       /\ invariants [] s = true
       /\ DecorationSet_update 256 [] s ranges1920 None 0 (DecorationSet.length s)
          = Ok (Built s', g')
       /\ DecorationSet_of 256 g' (Many []) = Ok (This, g')
       /\ length (deref g' (DecorationSet.local
                              (resolve DecorationSet.empty This))) = 32%nat
       /\ DecorationSet.size (resolve DecorationSet.empty This) = 0
       /\ size_sound g' (resolve DecorationSet.empty This) = false.
Proof.
  split.
  - intros fuel g. repeat split.
  - eexists. eexists. eexists.
    split; [vm_compute; reflexivity |].
    split; [vm_compute; reflexivity |].
    split; [vm_compute; reflexivity |].
    split; [reflexivity |].
    repeat split; vm_compute; reflexivity.
Qed.

(** ** Runs that depart from the specification *)

(** C5, C6 (setting). [DecorationSet.of] on the 33 ranges gives a root
    with two leaves, of lengths 320 and 5, that satisfies the
    structural invariants. *)
Lemma set33_shape :
  exists c0 c1,
    DecorationSet_of 64 [] (Many ranges33)
    = Ok (Built (DecorationSet.mk 325 33 (OwnArray []) [c0; c1]), [])
    /\ DecorationSet.length c0 = 320 /\ DecorationSet.size c0 = 32
    /\ DecorationSet.children c0 = []
    /\ c1 = DecorationSet.mk 5 1 (OwnArray [plain 0 5]) []
    /\ invariants [] (DecorationSet.mk 325 33 (OwnArray []) [c0; c1]) = true.
Proof.
  eexists. eexists. split; [vm_compute; reflexivity |].
  repeat split.
Qed.

(** C5. After [of] on the 33 ranges, [update([], f)] with the filter
    that drops the range at 0 leaves 32 decorations, collapses the root
    to one leaf, and stores the range [320, 325] of the second child at
    [-320, -315]: a local decoration with [from < 0]. *)
Example collapse_stores_negative_positions :
  exists s s' g',
    DecorationSet_of 64 [] (Many ranges33) = Ok (Built s, [])
    /\ invariants [] s = true
    /\ DecorationSet_update 64 [] s [] (Some not_at_start) 0
         (DecorationSet.length s) = Ok (Built s', g')
    /\ DecorationSet.children s' = []
    /\ holds (-320) (-315) (deref g' (DecorationSet.local s')) = true
    /\ locals_in_bounds g' s' = false.
Proof.
  eexists. eexists. eexists.
  split; [vm_compute; reflexivity |].
  split; [vm_compute; reflexivity |].
  split; [vm_compute; reflexivity |].
  repeat split.
Qed.

(** C6. In the same run the filter answers [true] for the range
    [320, 325], which the set holds before the update, and the updated
    set no longer holds it: it holds 32 decorations, none at
    [320, 325]. *)
Example filter_update_loses_a_kept_decoration :
  exists s s' g',
    DecorationSet_of 64 [] (Many ranges33) = Ok (Built s, [])
    /\ invariants [] s = true
    /\ holds 320 325 (DecorationSet.collect [] s [] 0) = true
    /\ not_at_start 320 325 (OfRangeSpec plain_spec) = true
    /\ DecorationSet_update 64 [] s [] (Some not_at_start) 0
         (DecorationSet.length s) = Ok (Built s', g')
    /\ length (DecorationSet.collect g' s' [] 0) = 32%nat
    /\ holds 320 325 (DecorationSet.collect g' s' [] 0) = false.
Proof.
  eexists. eexists. eexists.
  split; [vm_compute; reflexivity |].
  split; [vm_compute; reflexivity |].
  split; [vm_compute; reflexivity |].
  split; [reflexivity |].
  split; [vm_compute; reflexivity |].
  split; vm_compute; reflexivity.
Qed.

(** C3. [empty.update] on the 2048 ranges: the range [5100, 6600] is
    one of them and the set built holds no decoration there, while it
    holds two at [100, 1600], of which the input has one. *)
Example update_of_empty_moves_decorations :
  exists s g',
    DecorationSet_update 256 [] DecorationSet.empty ranges2048 None 0
      (DecorationSet.length DecorationSet.empty) = Ok (Built s, g')
    /\ forallb well_shaped ranges2048 = true
    /\ forallb (fun d => 0 <=? Decoration.from d) ranges2048 = true
    /\ occurrences 5100 6600 ranges2048 = 1%nat
    /\ occurrences 5100 6600 (DecorationSet.collect g' s [] 0) = 0%nat
    /\ occurrences 100 1600 ranges2048 = 1%nat
    /\ occurrences 100 1600 (DecorationSet.collect g' s [] 0) = 2%nat.
Proof.
  eexists. eexists.
  split; [vm_compute; reflexivity |].
  repeat split; vm_compute; reflexivity.
Qed.

(** C4 (setting). [DecorationSet.of] on the 128 ranges gives a root
    that holds the range [310, 1500] itself and has four leaves, of
    sizes 31, 32, 32, 32 and lengths 1000, 1000, 1000, 27000. *)
Lemma set128_shape :
  exists s,
    DecorationSet_of 256 [] (Many ranges128) = Ok (Built s, [])
    /\ DecorationSet.length s = 30000 /\ DecorationSet.size s = 128
    /\ deref [] (DecorationSet.local s) = [plain 310 1500]
    /\ List.map (fun c => (DecorationSet.length c, DecorationSet.size c,
                           length (DecorationSet.children c)))
                (DecorationSet.children s)
       = [(1000, 31, O); (1000, 32, O); (1000, 32, O); (27000, 32, O)].
Proof.
  eexists. split; [vm_compute; reflexivity |].
  repeat split.
Qed.

(** C4. [of] on the 128 ranges gives a set that satisfies the
    invariants; [update] of it with the 1920 ranges returns a root of
    size 2048 whose local array is empty and whose children have sizes
    that sum to 2016; the 32 decorations that miss are in the shared
    array [noDecorations]. *)
Example update_breaks_the_size_invariant :
  exists s s' g',
    DecorationSet_of 256 [] (Many ranges128) = Ok (Built s, [])
    /\ invariants [] s = true
    /\ DecorationSet_update 256 [] s ranges1920 None 0 (DecorationSet.length s)
       = Ok (Built s', g')
    /\ DecorationSet.size s' = 2048
    /\ deref g' (DecorationSet.local s') = []
    /\ sum_sizes (DecorationSet.children s') = 2016
    /\ size_sound g' s' = false
    /\ length g' = 32%nat.
Proof.
  eexists. eexists. eexists.
  split; [vm_compute; reflexivity |].
  split; [vm_compute; reflexivity |].
  split; [vm_compute; reflexivity |].
  repeat split; vm_compute; reflexivity.
Qed.

(** C2. Points are pushed at 0, 1, 10, 2, 11, 12, 3, 20, 21, 22, 23.
    The first three calls of [takeFromHeap] return 0, 1 and 2; the
    fourth returns the point at 10 while the point at 3 is in the
    heap. *)
Example heap_returns_a_larger_element :
  exists heap heap3 elt heap4,
    heap_of [] [0; 1; 10; 2; 11; 12; 3; 20; 21; 22; 23] = Ok heap
    /\ take_all 3 heap = Ok ([0; 1; 2], heap3)
    /\ In (HDecoration O (plain_point 3)) heap3
    /\ takeFromHeap heap3 = Ok (elt, heap4)
    /\ heapPos elt = Ok 10
    /\ compareHeapable (HDecoration O (plain_point 3)) elt = Ok (-7).
Proof.
  eexists. eexists. eexists. eexists.
  split; [vm_compute; reflexivity |].
  split; [vm_compute; reflexivity |].
  split; [simpl; tauto |].
  split; [vm_compute; reflexivity |].
  split; reflexivity.
Qed.

(** ** The heap keeps its elements *)

Lemma insert_Permutation {A : Type} (l : list A) (i : nat) (a b : A) :
  l !! i = Some b -> <[i := a]> l ≡ₚ a :: delete i l.
Proof.
  revert i. induction l as [| x l IH]; intros [| i] H; simpl in *; try done.
  rewrite (IH i H). apply perm_swap.
Qed.

Lemma swap_Permutation {A : Type} (l : list A) (i j : nat) (a b : A) :
  l !! i = Some a -> l !! j = Some b ->
  <[j := a]> (<[i := b]> l) ≡ₚ l.
Proof.
  revert i j. induction l as [| x l IH]; intros [| i] [| j] Hi Hj;
    simpl in *; try done.
  - by simplify_eq.
  - inversion Hi; subst x.
    rewrite (insert_Permutation l j a b Hj).
    rewrite (delete_Permutation l j b Hj) at 2. apply perm_swap.
  - inversion Hj; subst x.
    rewrite (insert_Permutation l i b a Hi).
    rewrite (delete_Permutation l i a Hi) at 2. apply perm_swap.
  - f_equiv. by apply IH.
Qed.

Lemma valid_item_heapPos (x : Heapable) :
  valid_item x -> exists p, heapPos x = Ok p.
Proof.
  destruct x as [c | n d]; simpl; [| eauto].
  intros [[Hlo Hhi] _]. unfold at_index.
  destruct (Z.ltb_spec (LocalSet.index c) 0); [lia |].
  destruct (LocalSet.decorations c !! Z.to_nat (LocalSet.index c)) eqn:E.
  - simpl. eauto.
  - apply lookup_ge_None in E. unfold len in Hhi. lia.
Qed.

Lemma valid_item_heapDesc (x : Heapable) :
  valid_item x -> exists d, heapDesc x = Ok d.
Proof.
  destruct x as [c | n d]; simpl; [| eauto].
  intros [[Hlo Hhi] _]. unfold at_index.
  destruct (Z.ltb_spec (LocalSet.index c) 0); [lia |].
  destruct (LocalSet.decorations c !! Z.to_nat (LocalSet.index c)) eqn:E.
  - simpl. eauto.
  - apply lookup_ge_None in E. unfold len in Hhi. lia.
Qed.

Lemma compareHeapable_valid (a b : Heapable) :
  valid_item a -> valid_item b -> exists c, compareHeapable a b = Ok c.
Proof.
  intros Ha Hb. unfold compareHeapable.
  destruct (valid_item_heapPos a Ha) as [pa ->].
  destruct (valid_item_heapPos b Hb) as [pb ->].
  destruct (valid_item_heapDesc a Ha) as [da ->].
  destruct (valid_item_heapDesc b Hb) as [db ->].
  simpl. destruct (pa - pb =? 0); eauto.
Qed.

Lemma heap_at_lookup (heap : list Heapable) (i : nat) (x : Heapable) :
  heap !! i = Some x -> heap_at heap i = Ok x.
Proof. intros H. unfold heap_at. by rewrite H. Qed.

Lemma Forall_valid_lookup (heap : list Heapable) (i : nat) (x : Heapable) :
  Forall valid_item heap -> heap !! i = Some x -> valid_item x.
Proof. intros H Hi. eapply Forall_lookup_1; eauto. Qed.

Lemma siftUp_keeps (fuel : nat) :
  forall (heap : list Heapable) (elt : Heapable) (index : nat),
    (index < fuel)%nat -> Forall valid_item heap -> heap !! index = Some elt ->
    exists heap', siftUp fuel heap elt index = Ok heap' /\ heap' ≡ₚ heap.
Proof.
  induction fuel as [| fuel IH]; intros heap elt index Hfuel Hvalid Helt; [lia |].
  simpl. destruct (Nat.ltb_spec 0 index) as [Hpos | Hzero]; [| eauto].
  assert (Hparent : (Nat.div2 index < index)%nat) by (apply Nat.lt_div2; lia).
  assert (Hlen : (index < length heap)%nat) by (eapply lookup_lt_Some; eauto).
  destruct (lookup_lt_is_Some_2 heap (Nat.div2 index)) as [parent Hp]; [lia |].
  rewrite (heap_at_lookup _ _ _ Hp). simpl.
  destruct (compareHeapable_valid elt parent) as [c ->];
    [eapply Forall_valid_lookup; eauto .. |].
  simpl. destruct (c >=? 0); [eauto |].
  assert (Hperm : <[Nat.div2 index := elt]> (<[index := parent]> heap) ≡ₚ heap)
    by (by apply swap_Permutation).
  destruct (IH (<[Nat.div2 index := elt]> (<[index := parent]> heap)) elt
              (Nat.div2 index)) as (heap' & -> & Hperm').
  - lia.
  - by rewrite Hperm.
  - apply list_lookup_insert_eq. rewrite length_insert. lia.
  - exists heap'. split; [done |]. by rewrite Hperm'.
Qed.

Lemma addToHeap_keeps (heap : list Heapable) (elt : Heapable) :
  Forall valid_item heap -> valid_item elt ->
  exists heap', addToHeap heap elt = Ok heap' /\ heap' ≡ₚ elt :: heap.
Proof.
  intros Hvalid Helt. unfold addToHeap.
  destruct (siftUp_keeps (S (length (heap ++ [elt]) - 1)) (heap ++ [elt]) elt
              (length (heap ++ [elt]) - 1)) as (heap' & -> & Hperm).
  - lia.
  - apply Forall_app. split; [done | by constructor].
  - rewrite length_app. simpl.
    replace (length heap + 1 - 1)%nat with (length heap + 0)%nat by lia.
    by rewrite lookup_app_r, Nat.add_comm, Nat.add_sub by lia.
  - exists heap'. split; [done |]. rewrite Hperm.
    by rewrite Permutation_app_comm.
Qed.

Lemma siftDown_keeps (fuel : nat) :
  forall (heap : list Heapable) (replacement : Heapable) (index : nat),
    (index < length heap)%nat -> (length heap <= index + fuel)%nat ->
    Forall valid_item heap -> heap !! index = Some replacement ->
    exists heap', siftDown fuel heap replacement index = Ok heap' /\ heap' ≡ₚ heap.
Proof.
  induction fuel as [| fuel IH]; intros heap replacement index Hlt Hfuel Hvalid Hrep;
    [lia |].
  cbn [siftDown].
  assert (Hshift : Nat.shiftl index 1 = (2 * index)%nat)
    by (rewrite Nat.shiftl_mul_pow2; simpl; lia).
  rewrite Hshift. clear Hshift.
  destruct (Nat.leb_spec (length heap) (2 * index + 1)) as [Hend | Hchild];
    [eauto |].
  destruct (lookup_lt_is_Some_2 heap (2 * index + 1)) as [child Hc]; [lia |].
  rewrite (heap_at_lookup _ _ _ Hc). cbn [bind].
  assert (Hpick : exists child' childIndex,
             (if (2 * index + 1 + 1 <? length heap)%nat
              then do sibling <- heap_at heap (2 * index + 1 + 1);
                   do c <- compareHeapable child sibling;
                   if c >=? 0 then Ok (sibling, (2 * index + 1 + 1)%nat)
                   else Ok (child, (2 * index + 1)%nat)
              else Ok (child, (2 * index + 1)%nat)) = Ok (child', childIndex)
             /\ heap !! childIndex = Some child'
             /\ (index < childIndex)%nat).
  { destruct (Nat.ltb_spec (2 * index + 1 + 1) (length heap)) as [Hsib | Hnone].
    - destruct (lookup_lt_is_Some_2 heap (2 * index + 1 + 1)) as [sibling Hs];
        [lia |].
      rewrite (heap_at_lookup _ _ _ Hs). cbn [bind].
      destruct (compareHeapable_valid child sibling) as [c ->];
        [eapply Forall_valid_lookup; eauto .. |].
      cbn [bind]. destruct (c >=? 0).
      + exists sibling, (2 * index + 1 + 1)%nat. repeat split; [done | lia].
      + exists child, (2 * index + 1)%nat. repeat split; [done | lia].
    - exists child, (2 * index + 1)%nat. repeat split; [done | lia]. }
  destruct Hpick as (child' & childIndex & -> & Hc' & Hgt). cbn [bind].
  destruct (compareHeapable_valid replacement child') as [c ->];
    [eapply Forall_valid_lookup; eauto .. |].
  cbn [bind]. destruct (c <? 0); [eauto |].
  assert (HcLt : (childIndex < length heap)%nat) by (eapply lookup_lt_Some; eauto).
  assert (Hperm : <[index := child']> (<[childIndex := replacement]> heap) ≡ₚ heap)
    by (by apply swap_Permutation).
  destruct (IH (<[index := child']> (<[childIndex := replacement]> heap))
              replacement childIndex) as (heap' & -> & Hperm').
  - rewrite !length_insert. lia.
  - rewrite !length_insert. lia.
  - by rewrite Hperm.
  - rewrite list_lookup_insert_ne by lia.
    apply list_lookup_insert_eq. lia.
  - exists heap'. split; [done |]. by rewrite Hperm'.
Qed.

Lemma takeFromHeap_keeps (heap : list Heapable) :
  heap <> [] -> Forall valid_item heap ->
  exists elt heap',
    takeFromHeap heap = Ok (elt, heap') /\ heap ≡ₚ elt :: heap'.
Proof.
  intros Hne Hvalid. unfold takeFromHeap.
  destruct heap as [| elt rest]; [done |].
  destruct (last (elt :: rest)) as [replacement |] eqn:Hlast;
    [| by apply last_None in Hlast].
  apply last_Some in Hlast as [front Hfront].
  assert (Htake : take (length (elt :: rest) - 1) (elt :: rest) = front).
  { rewrite Hfront, length_app. simpl.
    replace (length front + 1 - 1)%nat with (length front) by lia.
    by rewrite take_app_length. }
  rewrite Htake.
  destruct front as [| first front'].
  - simpl. exists elt, []. split; [done |].
    simpl in Hfront. by inversion Hfront.
  - simpl in Hfront. inversion Hfront; subst first rest.
    replace (length (elt :: front') =? 0)%nat with false by done.
    destruct (siftDown_keeps (length (elt :: front'))
                (<[0%nat := replacement]> (elt :: front')) replacement 0)
      as (heap' & -> & Hperm).
    + simpl. lia.
    + simpl. lia.
    + simpl. apply Forall_cons. inversion Hvalid as [| ? ? _ Hrest]; subst.
      apply Forall_app in Hrest as [Hf Hr]. split; [| done].
      by inversion Hr.
    + done.
    + exists elt, heap'. split; [done |]. rewrite Hperm. simpl.
      f_equiv. by rewrite Permutation_app_comm.
Qed.

(** ** The iterator returns *)

Lemma nodes_pos (s : DecorationSet.t) : (1 <= nodes s)%nat.
Proof. destruct s. simpl. lia. Qed.

Lemma nodes_children (s : DecorationSet.t) :
  nodes s = S (sum_list_with nodes (DecorationSet.children s)).
Proof. by destruct s. Qed.

Lemma stored_children (g : list Decoration.t) (s : DecorationSet.t) :
  stored g s
  = (length (deref g (DecorationSet.local s))
     + sum_list_with (stored g) (DecorationSet.children s))%nat.
Proof. by destruct s. Qed.

Lemma at_index_lookup {A : Type} (a : list A) (i : Z) (x : A) :
  0 <= i -> a !! Z.to_nat i = Some x -> at_index a i = Ok x.
Proof.
  intros Hi Hx. unfold at_index.
  destruct (Z.ltb_spec i 0); [lia |]. by rewrite Hx.
Qed.

(** What a call of [next] gives on a well-formed stack when the bound
    on its loop is at least [stack_turns]. *)
Definition next_result (g : list Decoration.t) (stack : DecorationSetIterator)
    (res : option LocalSet.t) (stack' : DecorationSetIterator) : Prop :=
  Forall wf_frame stack'
  /\ match res with
     | Some c =>
         (stack_turns stack' < stack_turns stack)%nat
         /\ (stack_left g stack' + length (LocalSet.decorations c)
             <= stack_left g stack)%nat
         /\ LocalSet.index c = 0
         /\ (0 < length (LocalSet.decorations c))%nat
         /\ (LocalSet.next c = None \/ LocalSet.next c = Some stack')
     | None => stack' = []
     end.

Lemma next_result_weaken (g : list Decoration.t)
    (small big : DecorationSetIterator) (res : option LocalSet.t)
    (stack' : DecorationSetIterator) :
  (stack_turns small <= stack_turns big)%nat ->
  (stack_left g small <= stack_left g big)%nat ->
  next_result g small res stack' -> next_result g big res stack'.
Proof.
  intros Ht Hl [Hwf H]. split; [done |].
  destruct res as [c |]; [| done].
  destruct H as (H1 & H2 & H3). repeat split; try tauto; lia.
Qed.

Lemma sum_cons {A : Type} (f : A -> nat) (x : A) (l : list A) :
  sum_list_with f (x :: l) = (f x + sum_list_with f l)%nat.
Proof. reflexivity. Qed.

Lemma stack_turns_cons (f : IteratedSet.t) (stack : DecorationSetIterator) :
  stack_turns (f :: stack) = (frame_turns f + stack_turns stack)%nat.
Proof. unfold stack_turns. rewrite sum_cons. lia. Qed.

Lemma stack_left_cons (g : list Decoration.t) (f : IteratedSet.t)
    (stack : DecorationSetIterator) :
  stack_left g (f :: stack) = (frame_left g f + stack_left g stack)%nat.
Proof. reflexivity. Qed.

Lemma frame_turns_old (index offset : Z) (set : DecorationSet.t) :
  0 <= index ->
  frame_turns (IteratedSet.mk index offset set)
  = (1 + 3 * sum_list_with nodes
             (drop (Z.to_nat index) (DecorationSet.children set)))%nat.
Proof.
  intros H. unfold frame_turns. cbn [IteratedSet.index IteratedSet.set].
  by destruct (Z.ltb_spec index 0); [lia |].
Qed.

Lemma frame_turns_fresh (index offset : Z) (set : DecorationSet.t) :
  index < 0 ->
  frame_turns (IteratedSet.mk index offset set)
  = (2 + 3 * sum_list_with nodes (DecorationSet.children set))%nat.
Proof.
  intros H. unfold frame_turns. cbn [IteratedSet.index IteratedSet.set].
  destruct (Z.ltb_spec index 0); [| lia].
  by replace (Z.to_nat index) with O by lia.
Qed.

Lemma frame_left_old (g : list Decoration.t) (index offset : Z)
    (set : DecorationSet.t) :
  0 <= index ->
  frame_left g (IteratedSet.mk index offset set)
  = sum_list_with (stored g)
      (drop (Z.to_nat index) (DecorationSet.children set)).
Proof.
  intros H. unfold frame_left. cbn [IteratedSet.index IteratedSet.set].
  by destruct (Z.ltb_spec index 0); [lia |].
Qed.

Lemma frame_left_fresh (g : list Decoration.t) (index offset : Z)
    (set : DecorationSet.t) :
  index < 0 ->
  frame_left g (IteratedSet.mk index offset set) = stored g set.
Proof.
  intros H. unfold frame_left. cbn [IteratedSet.index IteratedSet.set].
  destruct (Z.ltb_spec index 0); [| lia].
  replace (Z.to_nat index) with O by lia. by rewrite stored_children.
Qed.

Lemma stack_turns_pos (stack : DecorationSetIterator) :
  (1 <= stack_turns stack)%nat.
Proof. unfold stack_turns. lia. Qed.

Ltac measures :=
  rewrite ?stack_turns_cons, ?stack_left_cons;
  repeat match goal with
    | |- context [frame_turns (IteratedSet.mk ?i ?o ?s)] =>
        first [ rewrite (frame_turns_old i o s) by lia
              | rewrite (frame_turns_fresh i o s) by lia ]
    | |- context [frame_left ?g (IteratedSet.mk ?i ?o ?s)] =>
        first [ rewrite (frame_left_old g i o s) by lia
              | rewrite (frame_left_fresh g i o s) by lia ]
    end.

Lemma next_loop_returns (g : list Decoration.t) (fuel : nat) :
  forall (stack : DecorationSetIterator) (skip : Z),
    Forall wf_frame stack -> (stack_turns stack <= fuel)%nat ->
    exists res stack',
      next_loop fuel g stack skip = Ok (res, stack')
      /\ next_result g stack res stack'.
Proof.
  induction fuel as [| fuel IH]; intros stack skip Hwf Hfuel;
    [pose proof (stack_turns_pos stack); lia |].
  destruct stack as [| [index offset set] below].
  { exists None, []. repeat split. constructor. }
  apply Forall_cons in Hwf as [Htop Hbelow].
  unfold wf_frame in Htop. simpl in Htop.
  pose proof (stack_turns_pos below) as Hbelow_pos.
  (* the part of the loop body after the locals are dealt with *)
  assert (Hrest : forall index',
    0 <= index' <= len (DecorationSet.children set) ->
    (stack_turns (IteratedSet.mk index' offset set :: below) <= S fuel)%nat ->
    exists res stack',
      (if index' =? len (DecorationSet.children set)
       then next_loop fuel g below skip
       else
         do next <- at_index (DecorationSet.children set) index';
         if skip >? DecorationSet.length next
         then next_loop fuel g
                (IteratedSet.mk (index' + 1)
                   (offset + DecorationSet.length next) set :: below)
                (skip - DecorationSet.length next)
         else next_loop fuel g
                (IteratedSet.mk (-1) offset next
                 :: IteratedSet.mk (index' + 1)
                      (offset + DecorationSet.length next) set :: below) skip)
      = Ok (res, stack')
      /\ next_result g (IteratedSet.mk index' offset set :: below) res stack').
  { intros index' Hidx Hf. revert Hf. measures. intros Hf.
    destruct (Z.eqb_spec index' (len (DecorationSet.children set))) as [Heq | Hne].
    - destruct (IH below skip Hbelow) as (res & stack' & Hrun & Hres); [lia |].
      exists res, stack'. split; [done |].
      eapply next_result_weaken; [| | exact Hres]; measures; lia.
    - assert (Hlt : (Z.to_nat index' < length (DecorationSet.children set))%nat)
        by (unfold len in *; lia).
      destruct (lookup_lt_is_Some_2 _ _ Hlt) as [next Hnext].
      rewrite (at_index_lookup _ _ _ (proj1 Hidx) Hnext). cbn [bind].
      pose proof (drop_S _ _ _ Hnext) as Hdrop.
      assert (Hsucc : Z.to_nat (index' + 1) = S (Z.to_nat index')) by lia.
      rewrite Hdrop, sum_cons in Hf.
      pose proof (nodes_pos next) as Hpos.
      destruct (skip >? DecorationSet.length next).
      + destruct (IH (IteratedSet.mk (index' + 1)
                        (offset + DecorationSet.length next) set :: below)
                    (skip - DecorationSet.length next))
          as (res & stack' & Hrun & Hres).
        { apply Forall_cons. split; [| done].
          unfold wf_frame. simpl. unfold len in *. lia. }
        { measures. rewrite Hsucc. lia. }
        exists res, stack'. split; [done |].
        eapply next_result_weaken; [| | exact Hres]; measures;
          rewrite Hsucc, Hdrop, sum_cons; lia.
      + destruct (IH (IteratedSet.mk (-1) offset next
                      :: IteratedSet.mk (index' + 1)
                           (offset + DecorationSet.length next) set :: below)
                    skip)
          as (res & stack' & Hrun & Hres).
        { apply Forall_cons. split.
          - unfold wf_frame. simpl. unfold len. lia.
          - apply Forall_cons. split; [| done].
            unfold wf_frame. simpl. unfold len in *. lia. }
        { measures. rewrite Hsucc. rewrite (nodes_children next) in Hf. lia. }
        exists res, stack'. split; [done |].
        eapply next_result_weaken; [| | exact Hres]; measures;
          rewrite Hsucc, Hdrop, sum_cons.
        * rewrite (nodes_children next). lia.
        * lia. }
  cbn [next_loop IteratedSet.index IteratedSet.offset IteratedSet.set].
  destruct (Z.ltb_spec index 0) as [Hfresh | Hold].
  - cbn [andb IteratedSet.index IteratedSet.offset IteratedSet.set].
    destruct (len (deref g (DecorationSet.local set)) >? 0) eqn:Hlocal.
    + eexists. eexists. split; [reflexivity |].
      split.
      { apply Forall_cons. split; [| done].
        unfold wf_frame. simpl. unfold len. lia. }
      cbn [LocalSet.decorations LocalSet.index LocalSet.next].
      repeat split.
      * measures. rewrite drop_0. lia.
      * measures. rewrite drop_0, stored_children. lia.
      * unfold len in Hlocal. lia.
      * destruct (len (DecorationSet.children set) =? 0); auto.
    + destruct (Hrest 0) as (res & stack' & Hrun & Hres).
      { unfold len. lia. }
      { revert Hfuel. measures. rewrite drop_0. lia. }
      exists res, stack'. split; [exact Hrun |].
      eapply next_result_weaken; [| | exact Hres]; measures; rewrite drop_0.
      * lia.
      * rewrite stored_children. unfold len in Hlocal. lia.
  - cbn [andb].
    destruct (Hrest index) as (res & stack' & Hrun & Hres); [lia | lia |].
    exists res, stack'. split; [exact Hrun | exact Hres].
Qed.

Lemma next_returns (g : list Decoration.t) (stack : DecorationSetIterator)
    (skip : Z) :
  Forall wf_frame stack ->
  exists res stack',
    DecorationSetIterator_next g stack skip = Ok (res, stack')
    /\ next_result g stack res stack'.
Proof. intros Hwf. by apply next_loop_returns. Qed.

(** ** Seeding the heap from an iterator *)

Lemma heap_weight_perm (g : list Decoration.t) (heap heap' : list Heapable) :
  heap ≡ₚ heap' -> heap_weight g heap = heap_weight g heap'.
Proof. intros H. unfold heap_weight. by rewrite H. Qed.

Lemma addIterToHeap_loop_returns (g : list Decoration.t) (fuel : nat) :
  forall (heap : list Heapable) (iter : DecorationSetIterator) (skip : Z),
    Forall valid_item heap -> Forall wf_frame iter ->
    (stack_turns iter <= fuel)%nat ->
    exists heap',
      addIterToHeap_loop fuel g heap iter skip = Ok heap'
      /\ Forall valid_item heap'
      /\ (heap_weight g heap' <= heap_weight g heap + 2 * stack_left g iter)%nat.
Proof.
  induction fuel as [| fuel IH]; intros heap iter skip Hheap Hiter Hfuel;
    [pose proof (stack_turns_pos iter); lia |].
  cbn [addIterToHeap_loop].
  destruct (next_returns g iter skip Hiter) as (res & iter' & -> & Hwf' & Hres).
  cbn [bind]. destruct res as [c |].
  - destruct Hres as (Hturns & Hleft & Hindex & Hlen & Hnext).
    assert (Hc : valid_item (HLocalSet c)).
    { simpl. split; [unfold len; lia |].
      destruct Hnext as [-> | ->]; done. }
    destruct (addToHeap_keeps heap (HLocalSet c) Hheap Hc) as (heap1 & -> & Hperm).
    cbn [bind].
    assert (Hvalid1 : Forall valid_item heap1)
      by (rewrite Hperm; by apply Forall_cons).
    assert (Hweight1 : heap_weight g heap1
                       = (item_weight g (HLocalSet c) + heap_weight g heap)%nat)
      by (by rewrite (heap_weight_perm _ _ _ Hperm)).
    simpl in Hweight1. rewrite Hindex in Hweight1. simpl in Hweight1.
    destruct Hnext as [Hnone | Hsome].
    + rewrite Hnone in *. rewrite bool_decide_eq_false_2 by (by intros [? ?]).
      destruct (IH heap1 iter' skip Hvalid1 Hwf') as (heap' & -> & Hv & Hw);
        [lia |].
      exists heap'. repeat split; [done |]. lia.
    + rewrite Hsome in *. rewrite bool_decide_eq_true_2 by eauto.
      exists heap1. repeat split; [done |]. lia.
  - exists heap. repeat split; [done |]. lia.
Qed.

Lemma addIterToHeap_returns (g : list Decoration.t) (heap : list Heapable)
    (iter : DecorationSetIterator) (skip : Z) :
  Forall valid_item heap -> Forall wf_frame iter ->
  exists heap',
    addIterToHeap g heap iter skip = Ok heap'
    /\ Forall valid_item heap'
    /\ (heap_weight g heap' <= heap_weight g heap + 2 * stack_left g iter)%nat.
Proof. intros Hheap Hiter. by apply addIterToHeap_loop_returns. Qed.

Lemma seed_heap_returns (g : list Decoration.t) (from : Z)
    (sets : list DecorationSet.t) :
  forall heap : list Heapable,
    Forall valid_item heap ->
    exists heap',
      seed_heap g heap sets from = Ok heap'
      /\ Forall valid_item heap'
      /\ (heap_weight g heap'
          <= heap_weight g heap + 2 * sum_list_with (stored g) sets)%nat.
Proof.
  induction sets as [| set sets IH]; intros heap Hheap.
  - exists heap. repeat split; [done |]. simpl. lia.
  - cbn [seed_heap].
    assert (Hfirst : exists heap1,
               (if DecorationSet.size set >? 0
                then addIterToHeap g heap (newDecorationSetIterator set 0) from
                else Ok heap) = Ok heap1
               /\ Forall valid_item heap1
               /\ (heap_weight g heap1 <= heap_weight g heap + 2 * stored g set)%nat).
    { destruct (DecorationSet.size set >? 0).
      - destruct (addIterToHeap_returns g heap (newDecorationSetIterator set 0)
                    from Hheap) as (heap1 & Hrun & Hv & Hw).
        + apply Forall_cons. split; [| constructor].
          unfold wf_frame. simpl. unfold len. lia.
        + exists heap1. repeat split; [done .. |].
          revert Hw. unfold newDecorationSetIterator. measures.
          unfold stack_left. simpl. lia.
      - exists heap. repeat split; [done |]. lia. }
    destruct Hfirst as (heap1 & -> & Hv1 & Hw1). cbn [bind].
    destruct (IH heap1 Hv1) as (heap' & -> & Hv & Hw).
    exists heap'. repeat split; [done |]. rewrite sum_cons. lia.
Qed.

(** ** The loop of the spans builder *)

Lemma build_from (from to : Z) (ranges : list Decoration.t) :
  DecoratedRange.from (DecoratedRange.build from to ranges) = from.
Proof. unfold DecoratedRange.build. by destruct (foldl _ _ _). Qed.

Lemma build_to (from to : Z) (ranges : list Decoration.t) :
  DecoratedRange.to (DecoratedRange.build from to ranges) = to.
Proof. unfold DecoratedRange.build. by destruct (foldl _ _ _). Qed.

Lemma tiles_snoc (rs : list DecoratedRange.t) :
  forall (from pos to : Z) (ranges : list Decoration.t),
    tiles from pos rs -> pos < to ->
    tiles from to (rs ++ [DecoratedRange.build pos to ranges]).
Proof.
  induction rs as [| r rs IH]; intros from pos to ranges Htiles Hlt; simpl in *.
  - subst pos. rewrite build_from, build_to. done.
  - destruct Htiles as (Hfrom & Hne & Hrest). repeat split; [done .. |].
    by apply IH.
Qed.

Lemma tiles_finish (result : list DecoratedRange.t)
    (active : list (nat * Decoration.t)) (from pos to : Z) :
  tiles from pos result -> pos <= to ->
  tiles from to (finish_spans result active pos to).
Proof.
  intros Htiles Hle. unfold finish_spans.
  destruct (Z.ltb_spec pos to) as [Hlt | Hge].
  - by apply tiles_snoc.
  - by replace to with pos by lia.
Qed.

Lemma move_from (d : Decoration.t) (offset : Z) :
  Decoration.from (Decoration.move d offset) = Decoration.from d + offset.
Proof.
  unfold Decoration.move. destruct (Z.eqb_spec offset 0); simpl; lia.
Qed.

Lemma heap_weight_cons (g : list Decoration.t) (x : Heapable)
    (heap : list Heapable) :
  heap_weight g (x :: heap) = (item_weight g x + heap_weight g heap)%nat.
Proof. reflexivity. Qed.

Lemma spans_loop_returns (g : list Decoration.t) (from to : Z) (fuel : nat) :
  forall (heap : list Heapable) (result : list DecoratedRange.t)
         (active : list (nat * Decoration.t)) (pos : Z) (serial : nat),
    Forall valid_item heap -> (heap_weight g heap < fuel)%nat ->
    from <= pos <= to -> tiles from pos result ->
    exists rs,
      spans_loop fuel g heap result active pos serial from to = Ok rs
      /\ tiles from to rs.
Proof.
  induction fuel as [| fuel IH];
    intros heap result active pos serial Hheap Hfuel Hpos Htiles; [lia |].
  cbn [spans_loop].
  destruct (Nat.ltb_spec 0 (length heap)) as [Hsome | Hnone];
    [| eexists; split; [reflexivity | apply tiles_finish; [done | lia]]].
  destruct (takeFromHeap_keeps heap) as (next & heap1 & -> & Hperm);
    [by destruct heap; [simpl in Hsome; lia |] | done |].
  cbn [bind].
  assert (Hvalid : Forall valid_item (next :: heap1)) by (by rewrite <- Hperm).
  apply Forall_cons in Hvalid as [Hnext Hheap1].
  rewrite (heap_weight_perm _ _ _ Hperm), heap_weight_cons in Hfuel.
  destruct next as [c | id deco].
  - (* a cursor *)
    destruct Hnext as [[Hlo Hhi] Hiter].
    assert (Hdeco : exists deco,
               LocalSet.decorations c !! Z.to_nat (LocalSet.index c) = Some deco).
    { apply lookup_lt_is_Some_2. unfold len in Hhi. lia. }
    destruct Hdeco as [deco Hdeco].
    rewrite (at_index_lookup _ _ _ Hlo Hdeco).
    cbn [bind LocalSet.index LocalSet.decorations LocalSet.next LocalSet.offset].
    assert (Hheap2 : exists heap2,
               (if LocalSet.index c + 1 <? len (LocalSet.decorations c)
                then addToHeap heap1
                       (HLocalSet
                          (LocalSet.mk (LocalSet.offset c) (LocalSet.decorations c)
                             (LocalSet.index c + 1) (LocalSet.next c)))
                else match LocalSet.next c with
                     | Some iter => addIterToHeap g heap1 iter 0
                     | None => Ok heap1
                     end) = Ok heap2
               /\ Forall valid_item heap2
               /\ (heap_weight g heap2 + 2
                   <= item_weight g (HLocalSet c) + heap_weight g heap1)%nat).
    { simpl item_weight. unfold len in *.
      destruct (Z.ltb_spec (LocalSet.index c + 1)
                  (Z.of_nat (length (LocalSet.decorations c)))) as [Hmore | Hlast].
      - destruct (addToHeap_keeps heap1
                    (HLocalSet
                       (LocalSet.mk (LocalSet.offset c) (LocalSet.decorations c)
                          (LocalSet.index c + 1) (LocalSet.next c))))
          as (heap2 & -> & Hperm2); [done | |].
        { simpl. split; [unfold len; lia | done]. }
        exists heap2. split; [done |]. split.
        + rewrite Hperm2. apply Forall_cons. split; [| done].
          simpl. split; [unfold len; lia | done].
        + rewrite (heap_weight_perm _ _ _ Hperm2), heap_weight_cons. simpl. lia.
      - destruct (LocalSet.next c) as [iter |].
        + destruct (addIterToHeap_returns g heap1 iter 0 Hheap1 Hiter)
            as (heap2 & -> & Hv & Hw).
          exists heap2. repeat split; [done |]. lia.
        + exists heap1. repeat split; [done |]. lia. }
    destruct Hheap2 as (heap2 & -> & Hvalid2 & Hweight2). cbn [bind].
    destruct (Decoration.to deco + LocalSet.offset c <? from).
    { apply IH; [done | lia | done | done]. }
    destruct (Z.gtb_spec (Decoration.from deco + LocalSet.offset c) to)
      as [Hpast | Hin].
    { eexists. split; [reflexivity | apply tiles_finish; [done | lia]]. }
    destruct (Decoration.desc deco) as [spec | spec];
      [| apply IH; [done | lia | done | done]].
    destruct (affectsSpans spec); cbn [negb];
      [| apply IH; [done | lia | done | done]].
    destruct (addToHeap_keeps heap2
                (HDecoration serial (Decoration.move deco (LocalSet.offset c))))
      as (heap3 & Hadd & Hperm3); [done | done |].
    assert (Hvalid3 : Forall valid_item heap3)
      by (rewrite Hperm3; by apply Forall_cons).
    assert (Hweight3 : heap_weight g heap3 = S (heap_weight g heap2))
      by (by rewrite (heap_weight_perm _ _ _ Hperm3)).
    pose proof (move_from deco (LocalSet.offset c)) as Hmoved.
    destruct (Z.gtb_spec
                (Decoration.from (Decoration.move deco (LocalSet.offset c))) pos)
      as [Hgap | Hnogap].
    + rewrite Hadd. cbn [bind]. apply IH; [done | lia | lia |].
      by apply tiles_snoc.
    + rewrite Hadd. cbn [bind]. apply IH; [done | lia | done | done].
  - (* an active decoration that ends *)
    simpl item_weight in Hfuel.
    destruct (Z.geb_spec (Decoration.to deco) to) as [Hend | Hbefore].
    { eexists. split; [reflexivity | apply tiles_finish; [done | lia]]. }
    destruct (Z.gtb_spec (Decoration.to deco) pos) as [Hgap | Hnogap].
    + apply IH; [done | lia | lia |]. by apply tiles_snoc.
    + apply IH; [done | lia | done | done].
Qed.

Lemma tiles_head (rs : list DecoratedRange.t) (from to : Z) :
  tiles from to rs -> from < to ->
  DecoratedRange.from <$> head rs = Some from.
Proof.
  destruct rs as [| r rs]; simpl; [lia |].
  intros (Hfrom & _) _. by rewrite Hfrom.
Qed.

Lemma tiles_le (rs : list DecoratedRange.t) :
  forall from to : Z, tiles from to rs -> from <= to.
Proof.
  induction rs as [| r rs IH]; intros from to Htiles; simpl in *; [lia |].
  destruct Htiles as (Hfrom & Hne & Hrest). specialize (IH _ _ Hrest). lia.
Qed.

Lemma tiles_last (rs : list DecoratedRange.t) :
  forall from to : Z,
    tiles from to rs -> from < to ->
    DecoratedRange.to <$> last rs = Some to.
Proof.
  induction rs as [| r rs IH]; intros from to Htiles Hlt; simpl in *; [lia |].
  destruct Htiles as (Hfrom & Hne & Hrest).
  destruct rs as [| r' rs'].
  - simpl in *. by rewrite Hrest.
  - apply (IH (DecoratedRange.to r) to Hrest).
    simpl in Hrest. destruct Hrest as (Hf' & Hne' & Hrest').
    apply tiles_le in Hrest'. lia.
Qed.

Lemma tiles_adjacent (rs : list DecoratedRange.t) :
  forall (from to : Z) (i : nat) (r r' : DecoratedRange.t),
    tiles from to rs -> rs !! i = Some r -> rs !! S i = Some r' ->
    DecoratedRange.to r = DecoratedRange.from r'.
Proof.
  induction rs as [| r0 rs IH]; intros from to i r r' Htiles Hr Hr'; [done |].
  simpl in Htiles. destruct Htiles as (Hfrom & Hne & Hrest).
  destruct i as [| i].
  - simpl in Hr, Hr'. inversion Hr; subst r0.
    destruct rs as [| r1 rs]; [done |]. simpl in Hr'. inversion Hr'; subst r1.
    simpl in Hrest. by destruct Hrest as (-> & _).
  - simpl in Hr, Hr'. by eapply IH.
Qed.

Lemma tiles_not_empty (rs : list DecoratedRange.t) :
  forall from to : Z,
    tiles from to rs ->
    Forall (fun r => DecoratedRange.from r < DecoratedRange.to r) rs.
Proof.
  induction rs as [| r rs IH]; intros from to Htiles; [constructor |].
  simpl in Htiles. destruct Htiles as (Hfrom & Hne & Hrest).
  apply Forall_cons. split; [lia | by eapply IH].
Qed.

(** The merge scenario of the specification. *)
Example spans_of_two_overlapping_sets :
  decoratedSpansInRange [] [set_a; set_b] 0 15
  = Ok [DecoratedRange.mk 0 5 None (Some {[ "class" := "a" ]});
        DecoratedRange.mk 5 10 None (Some {[ "class" := "a b" ]});
        DecoratedRange.mk 10 15 None (Some {[ "class" := "b" ]})].
Proof. vm_compute. reflexivity. Qed.

(** C1. For every list of sets and all integers [from <= to],
    [decoratedSpansInRange(sets, from, to)] returns, and its ranges tile
    [[from, to]]: the first starts at [from], the last ends at [to],
    each range ends where the next starts, and no range is empty (so no
    two overlap).  For [from = to] the result is the empty list. *)
Theorem spans_tile_the_range :
  forall (g : list Decoration.t) (sets : list DecorationSet.t) (from to : Z),
    from <= to ->
    exists rs,
      decoratedSpansInRange g sets from to = Ok rs
      /\ tiles from to rs
      /\ (from < to ->
          DecoratedRange.from <$> head rs = Some from
          /\ DecoratedRange.to <$> last rs = Some to)
      /\ (forall (i : nat) (r r' : DecoratedRange.t),
             rs !! i = Some r -> rs !! S i = Some r' ->
             DecoratedRange.to r = DecoratedRange.from r')
      /\ Forall (fun r => DecoratedRange.from r < DecoratedRange.to r) rs
      /\ (from = to -> rs = []).
Proof.
  intros g sets from to Hle. unfold decoratedSpansInRange.
  destruct (seed_heap_returns g from sets []) as (heap & -> & Hvalid & Hweight);
    [constructor |].
  cbn [bind].
  destruct (spans_loop_returns g from to (S (2 * sum_list_with (stored g) sets))
              heap [] [] from O) as (rs & -> & Htiles).
  - done.
  - unfold heap_weight in Hweight at 2. simpl in Hweight. lia.
  - lia.
  - reflexivity.
  - exists rs. split; [done |]. split; [done |]. split; [| split; [| split]].
    + intros Hlt. split; [by eapply tiles_head | by eapply tiles_last].
    + intros i r r'. by eapply tiles_adjacent.
    + by eapply tiles_not_empty.
    + intros ->. destruct rs as [| r rs]; [done |].
      simpl in Htiles. destruct Htiles as (_ & Hne & Hrest).
      apply tiles_le in Hrest. lia.
Qed.

Lemma spans_tile_the_range_witness :
  0 <= 15
  /\ exists rs,
       decoratedSpansInRange [] [set_a; set_b] 0 15 = Ok rs
       /\ tiles 0 15 rs
       /\ (0 < 15 ->
           DecoratedRange.from <$> head rs = Some 0
           /\ DecoratedRange.to <$> last rs = Some 15)
       /\ (forall (i : nat) (r r' : DecoratedRange.t),
              rs !! i = Some r -> rs !! S i = Some r' ->
              DecoratedRange.to r = DecoratedRange.from r')
       /\ Forall (fun r => DecoratedRange.from r < DecoratedRange.to r) rs
       /\ (0 = 15 -> rs = []).
Proof.
  split; [lia |].
  apply (spans_tile_the_range [] [set_a; set_b] 0 15). lia.
Defined.

(** ** Children the iterator passes by *)

Lemma next_loop_more_fuel (g : list Decoration.t) (fuel : nat) :
  forall (fuel' : nat) (stack : DecorationSetIterator) (skip : Z)
         (r : option LocalSet.t * DecorationSetIterator),
    next_loop fuel g stack skip = Ok r -> (fuel <= fuel')%nat ->
    next_loop fuel' g stack skip = Ok r.
Proof.
  induction fuel as [| fuel IH]; intros fuel' stack skip r Hrun Hle; [done |].
  destruct fuel' as [| fuel']; [lia |].
  cbn [next_loop] in *. destruct stack as [| top below]; [done |].
  cbv zeta in *.
  destruct (_ && _); [done |].
  destruct (_ =? _); [apply IH; [done | lia] |].
  destruct (at_index _ _) as [next | | |]; cbn [bind] in *; try done.
  destruct (_ >? _); (apply IH; [done | lia]).
Qed.

(** One turn of the loop of [next] when the iterator reaches a child
    (no locals of the top frame are left to yield first).  A child
    strictly shorter than the skip that remains is passed by: [next]
    goes on from a stack the child never enters, with the skip reduced
    by the child's length.  A child at least as long as the remaining
    skip, one of exactly that length included, is pushed on the
    stack. *)
Lemma next_step_at_child :
  forall (g : list Decoration.t) (top : IteratedSet.t)
         (below : DecorationSetIterator) (skip : Z) (child : DecorationSet.t),
    Forall wf_frame (top :: below) ->
    (IteratedSet.index top < 0 ->
     deref g (DecorationSet.local (IteratedSet.set top)) = []) ->
    DecorationSet.children (IteratedSet.set top)
      !! Z.to_nat (IteratedSet.index top) = Some child ->
    (DecorationSet.length child < skip ->
     DecorationSetIterator_next g (top :: below) skip
     = DecorationSetIterator_next g (passed top child :: below)
         (skip - DecorationSet.length child))
    /\ (skip <= DecorationSet.length child ->
        DecorationSetIterator_next g (top :: below) skip
        = DecorationSetIterator_next g
            (IteratedSet.mk (-1) (IteratedSet.offset top) child
             :: passed top child :: below) skip).
Proof.
  intros g [index offset set] below skip child Hwf Hlocal Hchild.
  cbn [IteratedSet.index IteratedSet.offset IteratedSet.set] in *.
  apply Forall_cons in Hwf as [Htop Hbelow].
  unfold wf_frame in Htop. cbn [IteratedSet.index IteratedSet.set] in Htop.
  pose proof (lookup_lt_Some _ _ _ Hchild) as Hlt.
  pose proof (drop_S _ _ _ Hchild) as Hdrop.
  pose proof (nodes_pos child) as Hpos.
  pose proof (stack_turns_pos below) as Hbelow_pos.
  assert (Hpassed : wf_frame (passed (IteratedSet.mk index offset set) child)).
  { unfold wf_frame, passed. simpl. unfold len in *. lia. }
  assert (Hsucc : Z.to_nat (Z.max 0 index + 1) = S (Z.to_nat index)) by lia.
  assert (Hturns : (3 * nodes child
                    + stack_turns (passed (IteratedSet.mk index offset set) child
                                   :: below)
                    <= stack_turns (IteratedSet.mk index offset set :: below))%nat).
  { unfold passed. cbn [IteratedSet.index IteratedSet.offset IteratedSet.set].
    destruct (Z.ltb_spec index 0) as [Hfresh | Hold]; measures; rewrite Hsucc.
    - replace (Z.to_nat index) with O in * by lia.
      rewrite drop_0 in Hdrop. rewrite Hdrop at 2. rewrite sum_cons. lia.
    - rewrite Hdrop, sum_cons. lia. }
  (* one turn of the loop on the stack [top :: below] *)
  assert (Hstep : forall fuel,
    next_loop (S fuel) g (IteratedSet.mk index offset set :: below) skip
    = if skip >? DecorationSet.length child
      then next_loop fuel g
             (passed (IteratedSet.mk index offset set) child :: below)
             (skip - DecorationSet.length child)
      else next_loop fuel g
             (IteratedSet.mk (-1) offset child
              :: passed (IteratedSet.mk index offset set) child :: below) skip).
  { intros fuel. cbn [next_loop]. cbv zeta.
    cbn [IteratedSet.index IteratedSet.offset IteratedSet.set].
    unfold passed. cbn [IteratedSet.index IteratedSet.offset IteratedSet.set].
    destruct (Z.ltb_spec index 0) as [Hfresh | Hold].
    - rewrite (Hlocal Hfresh). cbn [andb].
      replace (len [] >? 0) with false by done.
      cbn [IteratedSet.index IteratedSet.offset IteratedSet.set].
      replace (Z.to_nat index) with O in * by lia.
      destruct (Z.eqb_spec 0 (len (DecorationSet.children set)));
        [unfold len in *; lia |].
      rewrite (at_index_lookup _ 0 child) by (done || lia). cbn [bind].
      by replace (Z.max 0 index + 1) with (0 + 1) by lia.
    - cbn [andb IteratedSet.index IteratedSet.offset IteratedSet.set].
      destruct (Z.eqb_spec index (len (DecorationSet.children set)));
        [unfold len in *; lia |].
      rewrite (at_index_lookup _ index child) by (done || lia). cbn [bind].
      by replace (Z.max 0 index + 1) with (index + 1) by lia. }
  unfold DecorationSetIterator_next.
  destruct (stack_turns (IteratedSet.mk index offset set :: below))
    as [| fuel] eqn:Hfuel; [lia |].
  rewrite Hstep. split; intros Hskip.
  - destruct (Z.gtb_spec skip (DecorationSet.length child)); [| lia].
    destruct (next_loop_returns g
                (stack_turns (passed (IteratedSet.mk index offset set) child
                              :: below))
                (passed (IteratedSet.mk index offset set) child :: below)
                (skip - DecorationSet.length child))
      as (res & stack' & Hrun & _); [by apply Forall_cons | lia |].
    rewrite Hrun. eapply next_loop_more_fuel; [exact Hrun | lia].
  - destruct (Z.gtb_spec skip (DecorationSet.length child)); [lia |].
    assert (Hpush : (stack_turns
                       (IteratedSet.mk (-1) offset child
                        :: passed (IteratedSet.mk index offset set) child :: below)
                     <= fuel)%nat).
    { rewrite stack_turns_cons, frame_turns_fresh by lia.
      rewrite (nodes_children child) in Hturns. lia. }
    destruct (next_loop_returns g
                (stack_turns
                   (IteratedSet.mk (-1) offset child
                    :: passed (IteratedSet.mk index offset set) child :: below))
                (IteratedSet.mk (-1) offset child
                 :: passed (IteratedSet.mk index offset set) child :: below) skip)
      as (res & stack' & Hrun & _).
    { apply Forall_cons. split; [| by apply Forall_cons].
      unfold wf_frame. simpl. unfold len. lia. }
    { lia. }
    rewrite Hrun. eapply next_loop_more_fuel; [exact Hrun | lia].
Qed.

Lemma search_set_unfold (g : list Decoration.t) (s : DecorationSet.t)
    (offset skip : Z) :
  search_set g s offset skip
  = if len (deref g (DecorationSet.local s)) >? 0
    then Yields offset (deref g (DecorationSet.local s))
    else search_children g (DecorationSet.children s) offset skip.
Proof.
  destruct s as [length size local children].
  cbn [search_set DecorationSet.local DecorationSet.children].
  destruct (len (deref g local) >? 0); [done |].
  revert offset skip.
  induction children as [| c children IH]; intros offset skip; [done |].
  cbn [search_children].
  destruct (DecorationSet.length c <? skip); [apply IH |].
  destruct (search_set g c offset skip); [done | apply IH].
Qed.

Lemma search_stack_cons (g : list Decoration.t) (f : IteratedSet.t)
    (below : DecorationSetIterator) (skip : Z) :
  search_stack g (f :: below) skip
  = match search_frame g f skip with
    | Yields o d => Yields o d
    | Passes skip' => search_stack g below skip'
    end.
Proof. reflexivity. Qed.

(** Whatever the loop of [next] returns is what the search finds. *)
Lemma next_loop_search (g : list Decoration.t) (fuel : nat) :
  forall (stack : DecorationSetIterator) (skip : Z) (res : option LocalSet.t)
         (stack' : DecorationSetIterator),
    Forall wf_frame stack ->
    next_loop fuel g stack skip = Ok (res, stack') ->
    answers (search_stack g stack skip) res.
Proof.
  induction fuel as [| fuel IH]; intros stack skip res stack' Hwf Hrun; [done |].
  destruct stack as [| [index offset set] below].
  { simpl in Hrun. by inversion Hrun. }
  apply Forall_cons in Hwf as [Htop Hbelow].
  unfold wf_frame in Htop.
  cbn [IteratedSet.index IteratedSet.offset IteratedSet.set] in *.
  (* the part of the loop body after the locals are dealt with *)
  assert (Hrest : forall index',
    0 <= index' <= len (DecorationSet.children set) ->
    (if index' =? len (DecorationSet.children set)
     then next_loop fuel g below skip
     else
       do next <- at_index (DecorationSet.children set) index';
       if skip >? DecorationSet.length next
       then next_loop fuel g
              (IteratedSet.mk (index' + 1)
                 (offset + DecorationSet.length next) set :: below)
              (skip - DecorationSet.length next)
       else next_loop fuel g
              (IteratedSet.mk (-1) offset next
               :: IteratedSet.mk (index' + 1)
                    (offset + DecorationSet.length next) set :: below) skip)
    = Ok (res, stack') ->
    answers
      match search_children g
              (drop (Z.to_nat index') (DecorationSet.children set)) offset skip
      with
      | Yields o d => Yields o d
      | Passes skip' => search_stack g below skip'
      end res).
  { intros index' Hidx Hstep.
    destruct (Z.eqb_spec index' (len (DecorationSet.children set))) as [Heq | Hne].
    - rewrite drop_ge by (unfold len in *; lia). cbn [search_children].
      by apply (IH below skip res stack').
    - assert (Hlt : (Z.to_nat index' < length (DecorationSet.children set))%nat)
        by (unfold len in *; lia).
      destruct (lookup_lt_is_Some_2 _ _ Hlt) as [next Hnext].
      rewrite (at_index_lookup _ _ _ (proj1 Hidx) Hnext) in Hstep.
      cbn [bind] in Hstep.
      rewrite (drop_S _ _ _ Hnext). cbn [search_children].
      assert (Hadvanced :
                wf_frame (IteratedSet.mk (index' + 1)
                            (offset + DecorationSet.length next) set))
        by (unfold wf_frame; simpl; unfold len in *; lia).
      assert (Hafter :
                forall skip',
                  search_stack g
                    (IteratedSet.mk (index' + 1)
                       (offset + DecorationSet.length next) set :: below) skip'
                  = match search_children g
                            (drop (S (Z.to_nat index'))
                                  (DecorationSet.children set))
                            (offset + DecorationSet.length next) skip' with
                    | Yields o d => Yields o d
                    | Passes skip'' => search_stack g below skip''
                    end).
      { intros skip'. rewrite search_stack_cons. unfold search_frame.
        cbn [IteratedSet.index IteratedSet.offset IteratedSet.set].
        destruct (Z.ltb_spec (index' + 1) 0) as [| _]; [lia |]. cbn [andb].
        by replace (Z.to_nat (index' + 1)) with (S (Z.to_nat index')) by lia. }
      destruct (Z.gtb_spec skip (DecorationSet.length next)) as [Hskip | Hskip];
        destruct (Z.ltb_spec (DecorationSet.length next) skip) as [Hlen | Hlen];
        try lia.
      + apply IH in Hstep; [| by apply Forall_cons].
        by rewrite Hafter in Hstep.
      + apply IH in Hstep.
        2: { apply Forall_cons. split; [| by apply Forall_cons].
             unfold wf_frame. simpl. unfold len. lia. }
        rewrite search_stack_cons in Hstep.
        unfold search_frame at 1 in Hstep.
        cbn [IteratedSet.index IteratedSet.offset IteratedSet.set] in Hstep.
        change (-1 <? 0) with true in Hstep. cbn [andb] in Hstep.
        change (Z.to_nat (-1)) with O in Hstep. rewrite drop_0 in Hstep.
        rewrite search_set_unfold.
        destruct (len (deref g (DecorationSet.local next)) >? 0); [done |].
        destruct (search_children g (DecorationSet.children next) offset skip)
          as [o d | skip']; [done |].
        by rewrite Hafter in Hstep. }
  rewrite search_stack_cons. unfold search_frame.
  cbn [next_loop IteratedSet.index IteratedSet.offset IteratedSet.set] in *.
  cbv zeta in Hrun.
  cbn [IteratedSet.index IteratedSet.offset IteratedSet.set] in Hrun.
  destruct (Z.ltb_spec index 0) as [Hfresh | Hold].
  - replace (Z.to_nat index) with O by lia. rewrite drop_0.
    cbn [andb IteratedSet.index IteratedSet.offset IteratedSet.set] in *.
    destruct (len (deref g (DecorationSet.local set)) >? 0).
    + inversion Hrun; subst res stack'. by eexists.
    + specialize (Hrest 0). rewrite drop_0 in Hrest.
      apply Hrest; [unfold len; lia | exact Hrun].
  - cbn [andb] in *. apply Hrest; [lia | exact Hrun].
Qed.




(** * Further properties of the code *)

(** ** Positions and single decorations *)

Lemma mapPos_app (first second : list Change.t) (assoc : Z) :
  forall pos : Z,
    mapPos pos (first ++ second) assoc
    = mapPos (mapPos pos first assoc) second assoc.
Proof.
  induction first as [| c first IH]; intros pos; simpl; [done |].
  apply IH.
Qed.

(** X1. Mapping a position through two change lists, one after the
    other, is mapping it through their concatenation. *)
Theorem mapPos_through_concatenation :
  forall (pos : Z) (first second : list Change.t) (assoc : Z),
    mapPos pos (first ++ second) assoc
    = mapPos (mapPos pos first assoc) second assoc.
Proof.
  intros pos first second assoc. apply mapPos_app.
Qed.

(** X2. When a decoration survives a first change list, mapping the
    survivor through a second list gives what mapping the original
    through both lists at once gives. *)
Theorem map_in_two_steps :
  forall (d d1 : Decoration.t) (first second : list Change.t),
    Decoration.map d first = Some d1 ->
    Decoration.map d (first ++ second) = Decoration.map d1 second.
Proof.
  intros [from to desc] d1 first second. unfold Decoration.map. simpl.
  destruct desc as [spec | spec]; simpl.
  - destruct (_ <? _); [| done]. intros [= <-]. simpl.
    by rewrite !mapPos_app.
  - intros [= <-]. simpl. by rewrite !mapPos_app.
Qed.

Lemma map_in_two_steps_witness :
  Decoration.map (plain 5 10) [Change.mk (fun pos _ => pos + 1)]
  = Some (plain 6 11)
  /\ Decoration.map (plain 5 10)
       ([Change.mk (fun pos _ => pos + 1)] ++ [Change.mk (fun pos _ => 2 * pos)])
     = Decoration.map (plain 6 11) [Change.mk (fun pos _ => 2 * pos)].
Proof.
  split; [reflexivity |].
  apply (map_in_two_steps (plain 5 10) (plain 6 11)
           [Change.mk (fun pos _ => pos + 1)] [Change.mk (fun pos _ => 2 * pos)]).
  reflexivity.
Defined.

(** X3. Whatever the decoration and the changes, a decoration that
    [map] returns is well shaped (a range is not empty, a point is) and
    has the descriptor of the original. *)
Theorem map_returns_well_shaped :
  forall (d d' : Decoration.t) (changes : list Change.t),
    Decoration.map d changes = Some d' ->
    well_shaped d' = true /\ Decoration.desc d' = Decoration.desc d.
Proof.
  intros [from to desc] d' changes. unfold Decoration.map, well_shaped. simpl.
  destruct desc as [spec | spec]; simpl.
  - destruct (Z.ltb_spec (mapPos from changes
                            (if truthy_bool (inclusiveStart spec)
                             then - BIG_BIAS else BIG_BIAS))
                         (mapPos to changes (endBias spec))) as [Hlt | Hge];
      [| done].
    intros [= <-]. simpl. split; [lia | done].
  - intros [= <-]. simpl. split; [lia | done].
Qed.

Lemma map_returns_well_shaped_witness :
  Decoration.map (plain 5 10) [Change.mk (fun pos _ => pos + 1)]
  = Some (plain 6 11)
  /\ well_shaped (plain 6 11) = true
  /\ Decoration.desc (plain 6 11) = Decoration.desc (plain 5 10).
Proof.
  split; [reflexivity |].
  apply (map_returns_well_shaped (plain 5 10) (plain 6 11)
           [Change.mk (fun pos _ => pos + 1)]).
  reflexivity.
Defined.

Lemma move_fields (d : Decoration.t) (offset : Z) :
  Decoration.move d offset
  = Decoration.mk (Decoration.from d + offset) (Decoration.to d + offset)
      (Decoration.desc d).
Proof.
  unfold Decoration.move. destruct d as [from to desc]. simpl.
  destruct (Z.eqb_spec offset 0) as [-> |]; [| done].
  f_equal; lia.
Qed.

(** X4. As long as the positions and the offsets are safe integers, so
    that every addition of [move] is exact: moving a decoration twice
    is moving it by the sum of the offsets, and moving it back by the
    opposite offset gives the decoration again. *)
Theorem move_composes :
  forall (d : Decoration.t) (a b : Z),
    moves_exactly d a ->
    (moves_exactly (Decoration.move d a) b -> safe_integer (a + b) ->
     Decoration.move (Decoration.move d a) b = Decoration.move d (a + b))
    /\ moves_exactly (Decoration.move d a) (- a)
    /\ Decoration.move (Decoration.move d a) (- a) = d.
Proof.
  intros d a b (Hfrom & Hto & Ha & Hfrom' & Hto'). split; [| split].
  - intros _ _. rewrite !move_fields. simpl. f_equal; lia.
  - unfold moves_exactly, safe_integer in *. rewrite move_fields. simpl.
    repeat split; lia.
  - rewrite !move_fields. destruct d as [from to desc]. simpl. f_equal; lia.
Qed.

Lemma move_composes_witness :
  moves_exactly (plain 5 10) 3
  /\ Decoration.move (Decoration.move (plain 5 10) 3) (- 7)
     = Decoration.move (plain 5 10) (3 + - 7)
  /\ Decoration.move (Decoration.move (plain 5 10) 3) (- 3) = plain 5 10.
Proof.
  assert (Hexact : moves_exactly (plain 5 10) 3)
    by (unfold moves_exactly, safe_integer; simpl; lia).
  split; [exact Hexact |].
  destruct (move_composes (plain 5 10) 3 (- 7) Hexact) as (Htwice & _ & Hback).
  split; [| exact Hback].
  apply Htwice; unfold moves_exactly, safe_integer; simpl; lia.
Defined.

(** X5. [byPos] is a consistent comparator: swapping its arguments
    negates its result, and "not after" is transitive. *)
Theorem byPos_is_consistent :
  forall a b c : Decoration.t,
    byPos b a = - byPos a b
    /\ (byPos a b <= 0 -> byPos b c <= 0 -> byPos a c <= 0).
Proof.
  intros a b c. unfold byPos.
  repeat match goal with
         | |- context [?x =? ?y] => destruct (Z.eqb_spec x y)
         end; lia.
Qed.

Lemma byPos_is_consistent_witness :
  byPos (plain 2 3) (plain 1 2) = - byPos (plain 1 2) (plain 2 3)
  /\ (byPos (plain 1 2) (plain 2 3) <= 0 -> byPos (plain 2 3) (plain 3 4) <= 0 ->
      byPos (plain 1 2) (plain 3 4) <= 0).
Proof. apply (byPos_is_consistent (plain 1 2) (plain 2 3) (plain 3 4)). Defined.

(** ** Sorted arrays of decorations *)

Lemma sorted_byPos_cons (x : Decoration.t) (a : list Decoration.t) :
  sorted_byPos (x :: a)
  = match a with
    | [] => true
    | y :: _ => (byPos x y <=? 0) && sorted_byPos a
    end.
Proof. by destruct a. Qed.

Lemma sorted_byPos_middle (l1 : list Decoration.t) :
  forall (x : Decoration.t) (l2 : list Decoration.t),
    sorted_byPos (l1 ++ x :: l2)
    = sorted_byPos (l1 ++ [x]) && sorted_byPos (x :: l2).
Proof.
  induction l1 as [| y l1 IH]; intros x l2.
  - simpl. by destruct l2.
  - change ((y :: l1) ++ x :: l2) with (y :: (l1 ++ x :: l2)).
    change ((y :: l1) ++ [x]) with (y :: (l1 ++ [x])).
    rewrite !sorted_byPos_cons. specialize (IH x l2).
    destruct l1 as [| z l1]; simpl in *.
    + destruct l2; simpl; by rewrite ?andb_true_r.
    + rewrite IH. by rewrite andb_assoc.
Qed.

Lemma sorted_byPos_app (l1 l2 : list Decoration.t) :
  sorted_byPos (l1 ++ l2) = true ->
  sorted_byPos l1 = true /\ sorted_byPos l2 = true.
Proof.
  revert l2. induction l1 as [| x l1 IH]; intros l2 H; [done |].
  change ((x :: l1) ++ l2) with (x :: (l1 ++ l2)) in H.
  rewrite sorted_byPos_cons in H. rewrite sorted_byPos_cons.
  destruct l1 as [| y l1].
  - simpl in *. split; [done |]. destruct l2; [done |].
    by apply andb_prop in H as [_ H].
  - simpl app in *. apply andb_prop in H as [Hxy H].
    destruct (IH l2 H) as [H1 H2]. by rewrite Hxy, H1.
Qed.

Lemma insertSorted_scan_split (r : list Decoration.t) (d : Decoration.t) :
  exists r1 r2,
    r = r1 ++ r2 /\ insertSorted_scan r d = r1 ++ d :: r2
    /\ Forall (fun x => 0 <= byPos x d) r1
    /\ (forall z, head r2 = Some z -> byPos z d < 0).
Proof.
  induction r as [| x r IH]; simpl.
  - exists [], []. repeat split; [constructor | done].
  - destruct (Z.geb_spec (byPos x d) 0) as [Hge | Hlt].
    + destruct IH as (r1 & r2 & -> & -> & Hall & Hhead).
      exists (x :: r1), r2. repeat split; [by constructor | done].
    + exists [], (x :: r). repeat split; [constructor |].
      intros z [= <-]. lia.
Qed.

Lemma insertSorted_split (target : list Decoration.t) (d : Decoration.t) :
  exists l1 l2,
    target = l1 ++ l2 /\ insertSorted target d = l1 ++ d :: l2
    /\ Forall (fun x => 0 <= byPos x d) l2
    /\ (forall z, last l1 = Some z -> byPos z d < 0).
Proof.
  unfold insertSorted.
  destruct (insertSorted_scan_split (reverse target) d)
    as (r1 & r2 & Hr & -> & Hall & Hhead).
  exists (reverse r2), (reverse r1). repeat split.
  - by rewrite <- reverse_app, <- Hr, reverse_involutive.
  - by rewrite reverse_app, reverse_cons, <- app_assoc.
  - by rewrite Forall_reverse.
  - intros z Hz. apply Hhead. by rewrite last_reverse in Hz.
Qed.

Lemma insertSorted_Permutation (target : list Decoration.t) (d : Decoration.t) :
  insertSorted target d ≡ₚ d :: target.
Proof.
  destruct (insertSorted_split target d) as (l1 & l2 & -> & -> & _).
  by rewrite Permutation_middle.
Qed.

Lemma insertSorted_sorted (target : list Decoration.t) (d : Decoration.t) :
  sorted_byPos target = true -> sorted_byPos (insertSorted target d) = true.
Proof.
  intros Hsorted.
  destruct (insertSorted_split target d) as (l1 & l2 & -> & -> & Hall & Hlast).
  destruct (sorted_byPos_app _ _ Hsorted) as [H1 H2].
  rewrite sorted_byPos_middle. apply andb_true_intro. split.
  - destruct (last l1) as [z |] eqn:Hz.
    + apply last_Some in Hz as [l1' ->].
      rewrite <- app_assoc. simpl. rewrite sorted_byPos_middle.
      rewrite H1. simpl. specialize (Hlast z eq_refl).
      rewrite andb_true_r. apply Z.leb_le. lia.
    + apply last_None in Hz. by subst l1.
  - rewrite sorted_byPos_cons. destruct l2 as [| y l2]; [done |].
    rewrite H2, andb_true_r. apply Z.leb_le.
    apply Forall_cons in Hall as [Hy _].
    assert (Hanti : byPos d y = - byPos y d).
    { unfold byPos.
      repeat match goal with
             | |- context [?a =? ?b] => destruct (Z.eqb_spec a b)
             end; lia. }
    lia.
Qed.

(** X6. [insertSorted] adds the decoration to the array, loses nothing,
    and keeps an array that is sorted by [byPos] sorted. *)
Theorem insertSorted_keeps_sorted :
  forall (target : list Decoration.t) (d : Decoration.t),
    sorted_byPos target = true ->
    insertSorted target d ≡ₚ d :: target
    /\ sorted_byPos (insertSorted target d) = true.
Proof.
  intros target d Hsorted. split.
  - apply insertSorted_Permutation.
  - by apply insertSorted_sorted.
Qed.

Lemma insertSorted_keeps_sorted_witness :
  sorted_byPos [plain 1 2; plain 5 6] = true
  /\ insertSorted [plain 1 2; plain 5 6] (plain 3 4)
     ≡ₚ plain 3 4 :: [plain 1 2; plain 5 6]
  /\ sorted_byPos (insertSorted [plain 1 2; plain 5 6] (plain 3 4)) = true.
Proof.
  split; [reflexivity |].
  apply (insertSorted_keeps_sorted [plain 1 2; plain 5 6] (plain 3 4)).
  reflexivity.
Defined.

Lemma filterDecorations_loop_result (filter : DecorationFilter)
    (filterFrom filterTo offset : Z) (todo : list Decoration.t) :
  forall (seen : list Decoration.t) (copy : option (list Decoration.t)),
    filterDecorations_loop todo seen copy filter filterFrom filterTo offset
    = match copy with
      | Some c =>
          Some (c ++ List.filter (kept_by filter filterFrom filterTo offset) todo)
      | None =>
          if forallb (kept_by filter filterFrom filterTo offset) todo then None
          else Some (seen
                     ++ List.filter (kept_by filter filterFrom filterTo offset) todo)
      end.
Proof.
  induction todo as [| deco todo IH]; intros seen copy.
  - simpl. destruct copy; [by rewrite app_nil_r | done].
  - cbn [filterDecorations_loop List.filter forallb].
    fold (kept_by filter filterFrom filterTo offset deco).
    destruct (kept_by filter filterFrom filterTo offset deco); rewrite IH.
    + destruct copy; simpl; [by rewrite <- app_assoc |].
      destruct (forallb _ todo); [done |]. by rewrite <- app_assoc.
    + by destruct copy.
Qed.

(** X7. [filterDecorations] returns [null] when there is no filter or
    when every decoration is kept (it lies outside the window or the
    filter accepts it); otherwise it returns a copy that holds exactly
    the kept decorations, in their order. *)
Theorem filterDecorations_copies_on_drop :
  forall (decorations : list Decoration.t) (filter : DecorationFilter)
         (filterFrom filterTo offset : Z),
    filterDecorations decorations None filterFrom filterTo offset = None
    /\ filterDecorations decorations (Some filter) filterFrom filterTo offset
       = if forallb (kept_by filter filterFrom filterTo offset) decorations
         then None
         else Some (List.filter (kept_by filter filterFrom filterTo offset)
                                decorations).
Proof.
  intros decorations filter filterFrom filterTo offset. split; [done |].
  unfold filterDecorations. by rewrite filterDecorations_loop_result.
Qed.

(** ** Updates that change nothing *)

(** X8. [update] with no additions and no filter returns its receiver
    itself, whatever the set, and leaves the shared array alone. *)
Theorem update_without_changes_returns_this :
  forall (fuel : nat) (g : list Decoration.t) (this : DecorationSet.t)
         (filterFrom filterTo : Z),
    DecorationSet_update (S fuel) g this [] None filterFrom filterTo
    = Ok (This, g).
Proof.
  intros fuel g this filterFrom filterTo.
  unfold DecorationSet_update, update_with.
  change (if len [] =? 0 then [] else sort byPos []) with (@nil Decoration.t).
  cbn [foldl updateInner filterDecorations].
  match goal with
  | |- context [bind (?F (DecorationSet.children this) [] [] None None 0 0 0 g) _] =>
      assert (HF : forall todo done size pos,
                 exists size' pos',
                   F todo done [] None None size 0 pos g
                   = Ok (None, None, size', 0, pos', g))
  end.
  { induction todo as [| child todo IH]; intros done size pos.
    - by eexists _, _.
    - cbn -[Z.add]. apply IH. }
  destruct (HF (DecorationSet.children this) [] 0 0) as (size' & pos' & ->).
  reflexivity.
Qed.

Lemma height_children (s : DecorationSet.t) (fuel : nat) :
  (height s <= S fuel)%nat ->
  Forall (fun c => (height c <= fuel)%nat) (DecorationSet.children s).
Proof.
  destruct s as [length size local children]. simpl. intros H.
  assert (Hmax : (foldr (fun c n => Nat.max (height c) n) O children <= fuel)%nat)
    by lia.
  clear H. induction children as [| c children IH]; [constructor |].
  simpl in Hmax. apply Forall_cons. split; [lia |]. apply IH. lia.
Qed.

Lemma keeps_all_unfold (g : list Decoration.t) (filter : DecorationFilter)
    (filterFrom filterTo offset : Z) (s : DecorationSet.t) :
  keeps_all g filter filterFrom filterTo offset s
  = forallb (kept_by filter filterFrom filterTo offset)
            (deref g (DecorationSet.local s))
    && forall_children (keeps_all g filter filterFrom filterTo)
         (DecorationSet.children s) offset.
Proof. by destruct s. Qed.

Lemma updateInner_keeps_all (filter : DecorationFilter) (filterFrom filterTo : Z)
    (fuel : nat) :
  forall (this : DecorationSet.t) (offset length : Z),
    keeps_all [] filter filterFrom filterTo offset this = true ->
    (height this <= fuel)%nat ->
    updateInner fuel [] this [] (Some filter) filterFrom filterTo offset length
    = Ok (This, []).
Proof.
  induction fuel as [| fuel IH]; intros this offset length Hkeeps Hheight.
  { destruct this. simpl in Hheight. lia. }
  rewrite keeps_all_unfold in Hkeeps.
  apply andb_prop in Hkeeps as [Hlocal Hchildren].
  apply height_children in Hheight.
  cbn [updateInner filterDecorations].
  rewrite filterDecorations_loop_result, Hlocal.
  match goal with
  | |- context [bind (?F (DecorationSet.children this) [] [] None None 0 0
                        offset []) _] =>
      assert (HF : forall todo done size pos,
                 forall_children (keeps_all [] filter filterFrom filterTo)
                   todo pos = true ->
                 Forall (fun c => (height c <= fuel)%nat) todo ->
                 exists size' pos',
                   F todo done [] None None size 0 pos []
                   = Ok (None, None, size', 0, pos', []))
  end.
  { induction todo as [| child todo IHtodo]; intros done size pos Hk Hh.
    - by eexists _, _.
    - cbn [forall_children] in Hk. apply andb_prop in Hk as [Hchild Hrest].
      apply Forall_cons in Hh as [Hhc Hhrest].
      cbn -[Z.add updateInner].
      rewrite (IH child pos (DecorationSet.length child) Hchild Hhc).
      match goal with
      | |- context [if ?c then _ else _] => destruct c
      end; cbn -[Z.add updateInner]; by apply IHtodo. }
  destruct (HF (DecorationSet.children this) [] 0 offset Hchildren Hheight)
    as (size' & pos' & ->).
  reflexivity.
Qed.

(** X9. When the filter and its window keep every decoration of a set
    (each one lies outside the window or the filter accepts it),
    [update] with no additions returns its receiver itself: nothing is
    copied.  (The shared array is empty, as it is when the module is
    loaded.) *)
Theorem update_with_filter_that_keeps_all_returns_this :
  forall (fuel : nat) (this : DecorationSet.t) (filter : DecorationFilter)
         (filterFrom filterTo : Z),
    keeps_all [] filter filterFrom filterTo 0 this = true ->
    (height this <= fuel)%nat ->
    DecorationSet_update fuel [] this [] (Some filter) filterFrom filterTo
    = Ok (This, []).
Proof.
  intros fuel this filter filterFrom filterTo Hkeeps Hheight.
  unfold DecorationSet_update, update_with.
  change (if len [] =? 0 then [] else sort byPos []) with (@nil Decoration.t).
  by apply updateInner_keeps_all.
Qed.

Lemma update_with_filter_that_keeps_all_returns_this_witness :
  keeps_all [] (fun from _ _ => negb (from =? 2)) 5 10 0 two_leaves = true
  /\ (height two_leaves <= 2)%nat
  /\ DecorationSet_update 2 [] two_leaves []
       (Some (fun from _ _ => negb (from =? 2))) 5 10
     = Ok (This, []).
Proof.
  split; [reflexivity |]. split; [vm_compute; lia |].
  apply (update_with_filter_that_keeps_all_returns_this 2 two_leaves
           (fun from _ _ => negb (from =? 2)) 5 10).
  - reflexivity.
  - vm_compute. lia.
Defined.

(** ** Small sets *)

Lemma sort_insert_Permutation (x : Decoration.t) (a : list Decoration.t) :
  sort_insert byPos x a ≡ₚ x :: a.
Proof.
  induction a as [| y a IH]; simpl; [done |].
  destruct (_ <? _); [| done]. rewrite IH. apply perm_swap.
Qed.

Lemma sort_Permutation (a : list Decoration.t) : sort byPos a ≡ₚ a.
Proof.
  unfold sort. induction a as [| x a IH]; simpl; [done |].
  by rewrite sort_insert_Permutation, IH.
Qed.

Lemma byPos_swap (a b : Decoration.t) : byPos b a = - byPos a b.
Proof.
  unfold byPos.
  repeat match goal with
         | |- context [?x =? ?y] => destruct (Z.eqb_spec x y)
         end; lia.
Qed.

Lemma sort_insert_sorted (x : Decoration.t) (a : list Decoration.t) :
  sorted_byPos a = true -> sorted_byPos (sort_insert byPos x a) = true.
Proof.
  induction a as [| y a IH]; intros Hsorted; [done |].
  cbn [sort_insert]. destruct (Z.ltb_spec (byPos y x) 0) as [Hlt | Hge].
  - rewrite sorted_byPos_cons in Hsorted. rewrite sorted_byPos_cons.
    destruct a as [| z a].
    + simpl. rewrite andb_true_r. apply Z.leb_le. lia.
    + apply andb_prop in Hsorted as [Hyz Hrest]. specialize (IH Hrest).
      cbn [sort_insert] in *. destruct (byPos z x <? 0).
      * by rewrite Hyz, IH.
      * rewrite IH, andb_true_r. apply Z.leb_le. lia.
  - rewrite sorted_byPos_cons, Hsorted, andb_true_r.
    apply Z.leb_le. rewrite (byPos_swap y x). lia.
Qed.

Lemma sort_sorted (a : list Decoration.t) : sorted_byPos (sort byPos a) = true.
Proof.
  unfold sort. induction a as [| x a IH]; simpl; [done |].
  by apply sort_insert_sorted.
Qed.

Lemma len_Permutation {A : Type} (a b : list A) : a ≡ₚ b -> len a = len b.
Proof. intros H. unfold len. by rewrite H. Qed.

Lemma slice_all {A : Type} (a : list A) : slice a 0 (len a) = a.
Proof.
  unfold slice, len. rewrite Z.sub_0_r, Nat2Z.id. simpl.
  by rewrite take_ge.
Qed.

Lemma map_move_0 (a : list Decoration.t) :
  List.map (fun d => Decoration.move d 0) a = a.
Proof. induction a as [| d a IH]; simpl; [done |]. by rewrite IH. Qed.

(** What [updateInner] builds on the empty set from additions that,
    with the content of the shared array, are at most 32: a leaf that
    holds the content of the shared array, sorted, and then the
    additions, moved to the coordinates of the node. *)
Lemma updateInner_empty_small (fuel : nat) (g additions : list Decoration.t)
    (filterFrom filterTo offset length : Z) :
  0 < len additions -> len g + len additions <= 32 ->
  updateInner (S fuel) g DecorationSet.empty additions None filterFrom filterTo
    offset length
  = Ok (Built (DecorationSet.mk length (len g + len additions)
                 (OwnArray (sort byPos g
                            ++ List.map (fun d => Decoration.move d (- offset))
                                        additions)) []), g).
Proof.
  intros Hsome Hlen. cbn [updateInner filterDecorations DecorationSet.empty
                          DecorationSet.children DecorationSet.local deref bind].
  cbn [andb negb default].
  replace (bool_decide (is_Some (@None (list Decoration.t)))) with false
    by (symmetry; apply bool_decide_eq_false_2; by intros [? ?]).
  replace (bool_decide (is_Some (@None (list DecorationSet.t)))) with false
    by (symmetry; apply bool_decide_eq_false_2; by intros [? ?]).
  cbn [andb negb].
  destruct (Z.eqb_spec 0 (len additions)) as [Hzero | _]; [lia |].
  destruct (Z.leb_spec (0 + len g + len additions - 0) BASE_NODE_SIZE)
    as [_ | Hbig]; [| change BASE_NODE_SIZE with 32 in Hbig; lia].
  unfold collapseSet. rewrite slice_all.
  assert (Hsorted : (if len g =? 0 then g else sort byPos g) = sort byPos g).
  { destruct g as [| d g]; [done |]. by destruct (Z.eqb_spec (len (d :: g)) 0). }
  rewrite Hsorted. do 3 f_equal. f_equal.
  unfold len. rewrite length_app, length_map.
  rewrite (Permutation_length (sort_Permutation g)). lia.
Qed.

Lemma foldl_max_ge (a : list Decoration.t) :
  forall init : Z,
    init <= foldl (fun l d => Z.max l (Decoration.to d)) init a
    /\ Forall (fun d => Decoration.to d
                        <= foldl (fun l d => Z.max l (Decoration.to d)) init a) a.
Proof.
  induction a as [| d a IH]; intros init; simpl; [split; [lia | constructor] |].
  destruct (IH (Z.max init (Decoration.to d))) as [Hinit Hall].
  split; [lia |]. apply Forall_cons. split; [lia | done].
Qed.

Lemma forallb_Forall {A : Type} (f : A -> bool) (a : list A) :
  forallb f a = true <-> Forall (fun x => f x = true) a.
Proof.
  induction a as [| x a IH]; simpl.
  - split; [constructor | done].
  - rewrite andb_true_iff, Forall_cons, IH. done.
Qed.

(** X10. [DecorationSet.of] on an array of at least one decoration
    that, with the decorations the shared array [noDecorations] holds,
    makes at most 32, returns a leaf whose length is the largest [to]
    (or 0) and whose local array is the content of the shared array
    sorted by [byPos], followed by the input sorted by [byPos]; the
    shared array is left as it was.  When the shared array is empty, as
    it is when the module is loaded, the leaf holds exactly the input,
    and if the input decorations are well shaped and start at or after
    0 it satisfies the structural invariants P1 to P5. *)
Theorem of_small_array_is_a_sorted_leaf :
  forall (fuel : nat) (g xs : list Decoration.t),
    0 < len xs -> len g + len xs <= 32 ->
    let s :=
      DecorationSet.mk (foldl (fun l d => Z.max l (Decoration.to d)) 0 xs)
        (len g + len xs) (OwnArray (sort byPos g ++ sort byPos xs)) [] in
    DecorationSet_of (S fuel) g (Many xs) = Ok (Built s, g)
    /\ DecorationSet.collect g s [] 0 ≡ₚ g ++ xs
    /\ (g = [] ->
        DecorationSet.local s = OwnArray (sort byPos xs)
        /\ DecorationSet.size s = len xs
        /\ (forallb well_shaped xs = true ->
            forallb (fun d => 0 <=? Decoration.from d) xs = true ->
            invariants g s = true)).
Proof.
  intros fuel g xs Hsome Hlen s. subst s. split; [| split].
  - unfold DecorationSet_of, DecorationSet_update, update_with.
    destruct (Z.eqb_spec (len xs) 0) as [Hzero | _]; [lia |]. cbn [negb].
    rewrite updateInner_empty_small
      by (rewrite (len_Permutation _ _ (sort_Permutation xs)); lia).
    rewrite (len_Permutation _ _ (sort_Permutation xs)).
    change (- 0) with 0. by rewrite map_move_0.
  - simpl. rewrite map_move_0. by rewrite !sort_Permutation.
  - intros ->. split; [done |]. split; [done |].
    intros Hshaped Hstart.
    pose proof (sort_Permutation xs) as Hperm.
    destruct (foldl_max_ge xs 0) as [Hzero Hmax].
    rewrite forallb_Forall in Hshaped, Hstart.
    rewrite <- Hperm in Hshaped, Hstart, Hmax.
    unfold invariants. cbn [size_sound locals_sorted locals_in_bounds
                            children_fit locals_well_shaped DecorationSet.size
                            DecorationSet.local DecorationSet.children
                            DecorationSet.length deref forallb sum_sizes
                            sum_lengths foldr sort app].
    rewrite sort_sorted, !andb_true_r.
    change (len (@nil Decoration.t)) with 0.
    rewrite (len_Permutation _ _ Hperm), Z.add_0_r, Z.add_0_l, Z.eqb_refl.
    cbn [andb].
    repeat (apply andb_true_intro; split).
    + rewrite forallb_Forall. rewrite Forall_forall in Hshaped, Hstart, Hmax.
      apply Forall_forall. intros d Hd.
      pose proof (Hshaped d Hd) as Hs. pose proof (Hstart d Hd) as H0.
      pose proof (Hmax d Hd) as Hm. cbv beta in Hs, H0, Hm.
      unfold in_bounds, well_shaped in *.
      apply Z.leb_le in H0.
      destruct (Decoration.desc d);
        [apply Z.ltb_lt in Hs | apply Z.eqb_eq in Hs];
        repeat (apply andb_true_intro; split); apply Z.leb_le; lia.
    + apply Z.leb_le. lia.
    + by rewrite forallb_Forall.
Qed.

Lemma of_small_array_is_a_sorted_leaf_witness :
  0 < len [plain 7 9; plain_point 3]
  /\ len [plain 1 2] + len [plain 7 9; plain_point 3] <= 32
  /\ DecorationSet_of 1 [plain 1 2] (Many [plain 7 9; plain_point 3])
     = Ok (Built (DecorationSet.mk 9 3
                    (OwnArray [plain 1 2; plain_point 3; plain 7 9]) []),
           [plain 1 2]).
Proof.
  split; [reflexivity |]. split; [vm_compute; discriminate |].
  apply (of_small_array_is_a_sorted_leaf 0 [plain 1 2]
           [plain 7 9; plain_point 3]).
  - reflexivity.
  - vm_compute. discriminate.
Defined.

(** ** Growing a set *)

Lemma in_bounds_longer (length length' : Z) (a : list Decoration.t) :
  length <= length' ->
  forallb (in_bounds length) a = true -> forallb (in_bounds length') a = true.
Proof.
  intros Hle. rewrite !forallb_Forall. intros H.
  eapply Forall_impl; [exact H |].
  intros d. unfold in_bounds. rewrite !andb_true_iff, !Z.leb_le. lia.
Qed.

(** X11. [grow] by a length that is not negative keeps the structural
    invariants P1 to P5, keeps the size, adds the length, and the set
    still holds the same decorations at the same positions. *)
Theorem grow_keeps_the_invariants :
  forall (g : list Decoration.t) (s : DecorationSet.t) (n : Z),
    0 <= n -> invariants g s = true ->
    invariants g (DecorationSet.grow s n) = true
    /\ DecorationSet.size (DecorationSet.grow s n) = DecorationSet.size s
    /\ DecorationSet.length (DecorationSet.grow s n) = DecorationSet.length s + n
    /\ forall (target : list Decoration.t) (offset : Z),
         DecorationSet.collect g (DecorationSet.grow s n) target offset
         = DecorationSet.collect g s target offset.
Proof.
  intros g [length size local children] n Hn. unfold invariants, DecorationSet.grow.
  cbn [size_sound locals_sorted locals_in_bounds children_fit locals_well_shaped
       DecorationSet.size DecorationSet.local DecorationSet.children
       DecorationSet.length].
  rewrite !andb_true_iff.
  intros [[[[[Hsize Hsizes] [Hsorted Hsorteds]] [Hbounds Hboundss]]
            [[Hnonneg Hsum] Hfits]] [Hshape Hshapes]].
  repeat split; try done.
  - by eapply in_bounds_longer; [| exact Hbounds]; lia.
  - apply Z.leb_le. apply Z.leb_le in Hsum. lia.
Qed.

Lemma grow_keeps_the_invariants_witness :
  0 <= 3 /\ invariants [] two_leaves = true
  /\ invariants [] (DecorationSet.grow two_leaves 3) = true.
Proof.
  split; [lia |]. split; [reflexivity |].
  apply (grow_keeps_the_invariants [] two_leaves 3); [lia | reflexivity].
Defined.

(** ** Collecting the decorations of a set *)

Lemma set_ind (P : DecorationSet.t -> Prop) :
  (forall length size local children,
      Forall P children -> P (DecorationSet.mk length size local children)) ->
  forall s, P s.
Proof.
  intros H. fix IH 1. intros [length size local children]. apply H.
  induction children as [| c children IHc]; constructor; [apply IH | exact IHc].
Qed.

Lemma collect_unfold (g : list Decoration.t) (s : DecorationSet.t)
    (target : list Decoration.t) (offset : Z) :
  DecorationSet.collect g s target offset
  = collect_children g (DecorationSet.children s)
      (target ++ List.map (fun d => Decoration.move d offset)
                          (deref g (DecorationSet.local s)))
      offset.
Proof.
  destruct s as [length size local children].
  cbn [DecorationSet.collect DecorationSet.children DecorationSet.local].
  generalize (target ++ List.map (fun d => Decoration.move d offset) (deref g local)).
  generalize offset.
  induction children as [| c children IH]; intros off tgt; [done |].
  cbn [collect_children]. by rewrite IH.
Qed.

Lemma preorder_unfold (g : list Decoration.t) (offset : Z) (s : DecorationSet.t) :
  preorder g offset s
  = (if len (deref g (DecorationSet.local s)) >? 0
     then [(offset, deref g (DecorationSet.local s))] else [])
    ++ preorder_children g (DecorationSet.children s) offset.
Proof.
  destruct s as [length size local children].
  cbn [preorder DecorationSet.children DecorationSet.local]. f_equal.
  generalize offset.
  induction children as [| c children IH]; intros off; [done |].
  cbn [preorder_children]. by rewrite IH.
Qed.

Lemma collect_appends (g : list Decoration.t) (s : DecorationSet.t) :
  forall (target : list Decoration.t) (offset : Z),
    DecorationSet.collect g s target offset
    = target ++ DecorationSet.collect g s [] offset.
Proof.
  induction s as [length size local children IH] using set_ind.
  intros target offset. rewrite !collect_unfold.
  cbn [DecorationSet.children DecorationSet.local app].
  generalize (List.map (fun d => Decoration.move d offset) (deref g local)).
  intros moved. revert target moved offset.
  induction children as [| c children IHc]; intros target moved offset.
  - done.
  - apply Forall_cons in IH as [Hc Hrest]. cbn [collect_children].
    rewrite (Hc (target ++ moved)), (Hc moved).
    rewrite <- app_assoc. by apply IHc.
Qed.

Lemma collect_children_appends (g : list Decoration.t)
    (children : list DecorationSet.t) :
  forall (target : list Decoration.t) (offset : Z),
    collect_children g children target offset
    = target ++ collect_children g children [] offset.
Proof.
  induction children as [| c children IH]; intros target offset;
    cbn [collect_children]; [by rewrite app_nil_r |].
  rewrite (collect_appends g c target), IH.
  rewrite (IH (DecorationSet.collect g c [] offset)).
  by rewrite app_assoc.
Qed.

Lemma collect_moved (g : list Decoration.t) (s : DecorationSet.t) :
  forall offset : Z,
    DecorationSet.collect g s [] offset
    = List.map (fun d => Decoration.move d offset) (DecorationSet.collect g s [] 0).
Proof.
  induction s as [length size local children IH] using set_ind.
  intros offset. rewrite !collect_unfold.
  cbn [DecorationSet.children DecorationSet.local app].
  rewrite (collect_children_appends g children (List.map _ _) offset).
  rewrite (collect_children_appends g children (List.map _ _) 0).
  rewrite map_move_0, List.map_app. f_equal.
  assert (Hshift : forall base,
             collect_children g children [] (offset + base)
             = List.map (fun d => Decoration.move d offset)
                        (collect_children g children [] base)).
  { induction children as [| c children IHc]; intros base; [done |].
    apply Forall_cons in IH as [Hc Hrest]. cbn [collect_children].
    rewrite (collect_children_appends g children (DecorationSet.collect _ _ _ _)).
    rewrite (collect_children_appends g children
               (DecorationSet.collect g c [] base)).
    rewrite List.map_app. f_equal.
    - rewrite (Hc (offset + base)), (Hc base), List.map_map.
      apply List.map_ext. intros d. rewrite !move_fields. simpl.
      f_equal; lia.
    - replace (offset + base + DecorationSet.length c)
        with (offset + (base + DecorationSet.length c)) by lia.
      by apply IHc. }
  specialize (Hshift 0). by rewrite Z.add_0_r in Hshift.
Qed.

Lemma collect_length (g : list Decoration.t) (s : DecorationSet.t) :
  forall offset : Z,
    length (DecorationSet.collect g s [] offset) = stored g s.
Proof.
  induction s as [len0 size local children IH] using set_ind.
  intros offset. rewrite collect_unfold, stored_children.
  cbn [DecorationSet.children DecorationSet.local app].
  rewrite collect_children_appends, length_app, length_map. f_equal.
  clear len0 size local. revert offset.
  induction children as [| c children IHc]; intros offset; [done |].
  apply Forall_cons in IH as [Hc Hrest]. cbn [collect_children].
  rewrite collect_children_appends, length_app, Hc, sum_cons.
  f_equal. by apply IHc.
Qed.


(** ** The order in which the iterator yields *)

Lemma lengths_nonneg_unfold (s : DecorationSet.t) :
  lengths_nonneg s
  = (0 <=? DecorationSet.length s)
    && forallb lengths_nonneg (DecorationSet.children s).
Proof. by destruct s. Qed.

Lemma lengths_nonneg_child (s child : DecorationSet.t) (i : nat) :
  lengths_nonneg s = true -> DecorationSet.children s !! i = Some child ->
  0 <= DecorationSet.length child /\ lengths_nonneg child = true.
Proof.
  rewrite lengths_nonneg_unfold, andb_true_iff, forallb_Forall.
  intros [_ Hall] Hchild.
  pose proof (Forall_lookup_1 _ _ _ _ Hall Hchild) as Hc. cbv beta in Hc.
  split; [| done].
  rewrite lengths_nonneg_unfold, andb_true_iff in Hc. lia.
Qed.

Lemma stack_rest_cons (g : list Decoration.t) (f : IteratedSet.t)
    (stack : DecorationSetIterator) :
  stack_rest g (f :: stack) = frame_rest g f ++ stack_rest g stack.
Proof. reflexivity. Qed.

Lemma next_loop_yields_head (g : list Decoration.t) (fuel : nat) :
  forall (stack : DecorationSetIterator) (res : option LocalSet.t)
         (stack' : DecorationSetIterator),
    Forall wf_frame stack ->
    Forall (fun f => lengths_nonneg (IteratedSet.set f) = true) stack ->
    next_loop fuel g stack 0 = Ok (res, stack') ->
    yields_head g stack res stack'
    /\ Forall (fun f => lengths_nonneg (IteratedSet.set f) = true) stack'.
Proof.
  induction fuel as [| fuel IH]; intros stack res stack' Hwf Hnonneg Hrun;
    [done |].
  destruct stack as [| [index offset set] below].
  { simpl in Hrun. inversion Hrun. split; [done | constructor]. }
  apply Forall_cons in Hwf as [Htop Hbelow].
  apply Forall_cons in Hnonneg as [Hset Hsets].
  unfold wf_frame in Htop.
  cbn [IteratedSet.index IteratedSet.offset IteratedSet.set] in *.
  (* the part of the loop body after the locals are dealt with *)
  assert (Hrest : forall index',
    0 <= index' <= len (DecorationSet.children set) ->
    (if index' =? len (DecorationSet.children set)
     then next_loop fuel g below 0
     else
       do next <- at_index (DecorationSet.children set) index';
       if 0 >? DecorationSet.length next
       then next_loop fuel g
              (IteratedSet.mk (index' + 1)
                 (offset + DecorationSet.length next) set :: below)
              (0 - DecorationSet.length next)
       else next_loop fuel g
              (IteratedSet.mk (-1) offset next
               :: IteratedSet.mk (index' + 1)
                    (offset + DecorationSet.length next) set :: below) 0)
    = Ok (res, stack') ->
    match preorder_children g
            (drop (Z.to_nat index') (DecorationSet.children set)) offset
          ++ stack_rest g below with
    | [] => res = None
    | (offset, decorations) :: rest =>
        exists cursor,
          res = Some cursor
          /\ LocalSet.offset cursor = offset
          /\ LocalSet.decorations cursor = decorations
          /\ LocalSet.index cursor = 0
          /\ stack_rest g stack' = rest
    end
    /\ Forall (fun f => lengths_nonneg (IteratedSet.set f) = true) stack').
  { intros index' Hidx Hstep.
    destruct (Z.eqb_spec index' (len (DecorationSet.children set))) as [Heq | Hne].
    - rewrite drop_ge by (unfold len in *; lia). simpl.
      by apply (IH below res stack').
    - assert (Hlt : (Z.to_nat index' < length (DecorationSet.children set))%nat)
        by (unfold len in *; lia).
      destruct (lookup_lt_is_Some_2 _ _ Hlt) as [next Hnext].
      rewrite (at_index_lookup _ _ _ (proj1 Hidx) Hnext) in Hstep.
      cbn [bind] in Hstep.
      destruct (lengths_nonneg_child _ _ _ Hset Hnext) as [Hlen Hchild].
      destruct (Z.gtb_spec 0 (DecorationSet.length next)); [lia |].
      rewrite (drop_S _ _ _ Hnext). cbn [preorder_children].
      apply IH in Hstep.
      + destruct Hstep as [Hstep Hnonneg']. split; [| exact Hnonneg'].
        unfold yields_head in Hstep.
        rewrite !stack_rest_cons in Hstep. unfold frame_rest in Hstep.
        cbn [IteratedSet.index IteratedSet.offset IteratedSet.set] in Hstep.
        change (-1 <? 0) with true in Hstep.
        destruct (Z.ltb_spec (index' + 1) 0) as [| _]; [lia |].
        cbn [andb] in Hstep. simpl drop in Hstep at 1.
        replace (Z.to_nat (index' + 1)) with (S (Z.to_nat index')) in Hstep by lia.
        rewrite preorder_unfold.
        destruct (len (deref g (DecorationSet.local next)) >? 0);
          cbn [app] in *; by rewrite <- ?app_assoc in *.
      + apply Forall_cons. split; [unfold wf_frame; simpl; unfold len; lia |].
        apply Forall_cons. split; [| done].
        unfold wf_frame. simpl. unfold len in *. lia.
      + apply Forall_cons. split; [done |]. by apply Forall_cons. }
  unfold yields_head. rewrite stack_rest_cons. unfold frame_rest.
  cbn [next_loop IteratedSet.index IteratedSet.offset IteratedSet.set] in *.
  cbv zeta in Hrun.
  cbn [IteratedSet.index IteratedSet.offset IteratedSet.set] in Hrun.
  destruct (Z.ltb_spec index 0) as [Hfresh | Hold].
  - replace (Z.to_nat index) with O by lia. rewrite drop_0.
    cbn [andb IteratedSet.index IteratedSet.offset IteratedSet.set] in *.
    destruct (len (deref g (DecorationSet.local set)) >? 0).
    + inversion Hrun; subst res stack'. cbn [app]. split.
      * eexists. split; [reflexivity |]. cbn [LocalSet.offset
          LocalSet.decorations LocalSet.index].
        split; [done |]. split; [done |]. split; [done |].
        rewrite stack_rest_cons. unfold frame_rest.
        cbn [IteratedSet.index IteratedSet.offset IteratedSet.set].
        change (0 <? 0) with false. cbn [andb app Z.to_nat].
        by rewrite drop_0.
      * by apply Forall_cons.
    + cbn [app]. specialize (Hrest 0). rewrite drop_0 in Hrest.
      apply Hrest; [unfold len; lia | exact Hrun].
  - cbn [andb app] in *. apply Hrest; [lia | exact Hrun].
Qed.

(** X13. On trees without negative lengths, a new iterator has the
    nonempty local arrays of its tree to yield, in the order of a
    left-first descent and each with the position of its node; and
    every call [next(0)] returns the first array the iterator has still
    to yield, as a cursor at index 0, or [null] when none is left, and
    leaves the iterator with the arrays after it. *)
Theorem next_yields_locals_in_preorder :
  forall (g : list Decoration.t) (stack : DecorationSetIterator),
    Forall wf_frame stack ->
    Forall (fun f => lengths_nonneg (IteratedSet.set f) = true) stack ->
    (forall (set : DecorationSet.t) (offset : Z),
        stack_rest g (newDecorationSetIterator set offset) = preorder g offset set)
    /\ exists res stack',
         DecorationSetIterator_next g stack 0 = Ok (res, stack')
         /\ Forall wf_frame stack'
         /\ Forall (fun f => lengths_nonneg (IteratedSet.set f) = true) stack'
         /\ yields_head g stack res stack'.
Proof.
  intros g stack Hwf Hnonneg. split.
  - intros set offset. unfold newDecorationSetIterator, stack_rest. simpl.
    rewrite app_nil_r, preorder_unfold. unfold frame_rest. simpl.
    by rewrite drop_0.
  - destruct (next_returns g stack 0 Hwf) as (res & stack' & Hrun & Hwf' & _).
    exists res, stack'. split; [exact Hrun |]. split; [exact Hwf' |].
    destruct (next_loop_yields_head g _ _ _ _ Hwf Hnonneg Hrun) as [Hy Hn].
    split; [exact Hn | exact Hy].
Qed.

Lemma next_yields_locals_in_preorder_witness :
  Forall wf_frame (newDecorationSetIterator two_leaves 0)
  /\ Forall (fun f => lengths_nonneg (IteratedSet.set f) = true)
       (newDecorationSetIterator two_leaves 0)
  /\ exists res stack',
       DecorationSetIterator_next [] (newDecorationSetIterator two_leaves 0) 0
       = Ok (res, stack')
       /\ yields_head [] (newDecorationSetIterator two_leaves 0) res stack'.
Proof.
  assert (Hwf : Forall wf_frame (newDecorationSetIterator two_leaves 0)).
  { apply Forall_cons. split; [| constructor].
    unfold wf_frame. vm_compute. discriminate. }
  assert (Hnonneg : Forall (fun f => lengths_nonneg (IteratedSet.set f) = true)
                      (newDecorationSetIterator two_leaves 0)).
  { apply Forall_cons. split; [reflexivity | constructor]. }
  split; [exact Hwf |]. split; [exact Hnonneg |].
  destruct (next_yields_locals_in_preorder []
              (newDecorationSetIterator two_leaves 0) Hwf Hnonneg)
    as [_ (res & stack' & Hrun & _ & _ & Hy)].
  exists res, stack'. split; [exact Hrun | exact Hy].
Defined.

(** ** What the heap does guarantee *)

Lemma takeFromHeap_first (heap heap' : list Heapable) (elt : Heapable) :
  takeFromHeap heap = Ok (elt, heap') -> heap !! 0%nat = Some elt.
Proof.
  unfold takeFromHeap. destruct heap as [| first rest]; [done |].
  destruct (last (first :: rest)); [| done].
  destruct (_ =? _)%nat; [by intros [= -> _] |].
  destruct (siftDown _ _ _ _); simpl; [| done ..]. by intros [= -> _].
Qed.

(** X14. On a heap whose elements can be read, [addToHeap] returns the
    array with the new element and all the old ones, and [takeFromHeap]
    on a nonempty array returns its first element and leaves all the
    others: no element is lost or repeated. *)
Theorem heap_operations_keep_the_elements :
  forall (heap : list Heapable) (elt : Heapable),
    Forall valid_item heap -> valid_item elt ->
    (exists heap', addToHeap heap elt = Ok heap' /\ heap' ≡ₚ elt :: heap)
    /\ (heap <> [] ->
        exists first heap',
          takeFromHeap heap = Ok (first, heap')
          /\ heap !! 0%nat = Some first /\ heap ≡ₚ first :: heap').
Proof.
  intros heap elt Hheap Helt. split.
  - by apply addToHeap_keeps.
  - intros Hne.
    destruct (takeFromHeap_keeps heap Hne Hheap) as (first & heap' & Hrun & Hperm).
    exists first, heap'. split; [done |]. split; [| done].
    by eapply takeFromHeap_first.
Qed.

Lemma heap_operations_keep_the_elements_witness :
  Forall valid_item [HDecoration 0 (plain 1 4); HDecoration 1 (plain 2 9)]
  /\ valid_item (HDecoration 2 (plain 0 3))
  /\ exists heap',
       addToHeap [HDecoration 0 (plain 1 4); HDecoration 1 (plain 2 9)]
         (HDecoration 2 (plain 0 3)) = Ok heap'
       /\ heap' ≡ₚ HDecoration 2 (plain 0 3)
                    :: [HDecoration 0 (plain 1 4); HDecoration 1 (plain 2 9)].
Proof.
  assert (Hheap : Forall valid_item
                    [HDecoration 0 (plain 1 4); HDecoration 1 (plain 2 9)])
    by (repeat constructor).
  split; [exact Hheap |]. split; [exact I |].
  exact (proj1 (heap_operations_keep_the_elements
                  [HDecoration 0 (plain 1 4); HDecoration 1 (plain 2 9)]
                  (HDecoration 2 (plain 0 3)) Hheap I)).
Defined.

Lemma heap_key_heapPos (x : Heapable) (p : Z) :
  heapPos x = Ok p -> exists b, heap_key x = Some (p, b).
Proof.
  unfold heap_key. intros Hp. rewrite Hp.
  destruct x as [c | n d]; simpl in *; [| eauto].
  destruct (at_index _ _); simpl in *; [eauto | done ..].
Qed.

Lemma compareHeapable_keys (a b : Heapable) (c : Z) :
  compareHeapable a b = Ok c ->
  exists pa ba pb bb,
    heap_key a = Some (pa, ba) /\ heap_key b = Some (pb, bb)
    /\ c = if pa - pb =? 0 then ba - bb else pa - pb.
Proof.
  unfold compareHeapable. intros Hc.
  destruct (heapPos a) as [pa | | |] eqn:Ha; simpl in Hc; try done.
  destruct (heapPos b) as [pb | | |] eqn:Hb; simpl in Hc; try done.
  destruct (heap_key_heapPos a pa Ha) as [ba Hka].
  destruct (heap_key_heapPos b pb Hb) as [bb Hkb].
  exists pa, ba, pb, bb. split; [done |]. split; [done |].
  unfold heap_key in Hka, Hkb. rewrite Ha in Hka. rewrite Hb in Hkb.
  destruct (heapDesc a) as [da | | |]; try done.
  destruct (heapDesc b) as [db | | |]; try done.
  simpl in Hc. inversion Hka; inversion Hkb; subst.
  destruct (pa - pb =? 0); by inversion Hc.
Qed.

Lemma keys_compareHeapable (a b : Heapable) (pa ba pb bb : Z) :
  heap_key a = Some (pa, ba) -> heap_key b = Some (pb, bb) ->
  compareHeapable a b = Ok (if pa - pb =? 0 then ba - bb else pa - pb).
Proof.
  unfold heap_key, compareHeapable. intros Ha Hb.
  destruct (heapPos a) as [pa' | | |]; try done.
  destruct (heapDesc a) as [da | | |]; try done.
  destruct (heapPos b) as [pb' | | |]; try done.
  destruct (heapDesc b) as [db | | |]; try done.
  inversion Ha; inversion Hb; subst. simpl.
  by destruct (pa - pb =? 0).
Qed.

Lemma precedes_trans (a b c : Heapable) :
  precedes a b -> precedes b c -> precedes a c.
Proof.
  intros (ab & Hab & Hle1) (bc & Hbc & Hle2).
  apply compareHeapable_keys in Hab as (pa & ba & pb & bb & Ha & Hb & ->).
  apply compareHeapable_keys in Hbc as (pb' & bb' & pc & bc' & Hb' & Hc & ->).
  rewrite Hb in Hb'. inversion Hb'; subst pb' bb'.
  eexists. split; [by apply keys_compareHeapable |].
  repeat match goal with
         | H : context [?x =? ?y] |- _ => destruct (Z.eqb_spec x y)
         | |- context [?x =? ?y] => destruct (Z.eqb_spec x y)
         end; lia.
Qed.

Lemma precedes_of_compare (a b : Heapable) (c : Z) :
  compareHeapable a b = Ok c ->
  (c < 0 -> precedes a b) /\ (0 <= c -> precedes b a).
Proof.
  intros Hc. split; intros Hsign.
  - exists c. split; [done | lia].
  - apply compareHeapable_keys in Hc as (pa & ba & pb & bb & Ha & Hb & ->).
    eexists. split; [by apply keys_compareHeapable |].
    repeat match goal with
           | H : context [?x =? ?y] |- _ => destruct (Z.eqb_spec x y)
           | |- context [?x =? ?y] => destruct (Z.eqb_spec x y)
           end; lia.
Qed.

Lemma precedes_refl (a : Heapable) : valid_item a -> precedes a a.
Proof.
  intros Ha. destruct (compareHeapable_valid a a Ha Ha) as [c Hc].
  pose proof Hc as Hkeys.
  apply compareHeapable_keys in Hkeys as (pa & ba & pb & bb & H1 & H2 & ->).
  rewrite H1 in H2. inversion H2; subst.
  exists (if pb - pb =? 0 then bb - bb else pb - pb). split; [done |].
  destruct (Z.eqb_spec (pb - pb) 0); lia.
Qed.

Lemma swapped_lookup (heap : list Heapable) (k p : nat) (elt parent : Heapable)
    (j : nat) :
  k <> p -> (k < length heap)%nat -> (p < length heap)%nat ->
  <[p := elt]> (<[k := parent]> heap) !! j
  = if decide (j = p) then Some elt
    else if decide (j = k) then Some parent else heap !! j.
Proof.
  intros Hne Hk Hp. destruct (decide (j = p)) as [-> | Hjp].
  - apply list_lookup_insert_eq. by rewrite length_insert.
  - rewrite list_lookup_insert_ne by done.
    destruct (decide (j = k)) as [-> | Hjk].
    + by apply list_lookup_insert_eq.
    + by rewrite list_lookup_insert_ne.
Qed.

Lemma siftUp_orders (fuel : nat) :
  forall (heap heap' : list Heapable) (elt : Heapable) (k : nat),
    heap !! k = Some elt -> ordered_but heap k ->
    siftUp fuel heap elt k = Ok heap' -> parent_ordered heap'.
Proof.
  induction fuel as [| fuel IH]; intros heap heap' elt k Helt [Hord Hbelow] Hrun;
    [done |].
  cbn [siftUp] in Hrun. change (Nat.shiftr k 1) with (Nat.div2 k) in Hrun.
  destruct (Nat.ltb_spec 0 k) as [Hpos | Hzero].
  - unfold heap_at in Hrun.
    assert (Hdiv : (Nat.div2 k < k)%nat) by (apply Nat.lt_div2; lia).
    pose proof (lookup_lt_Some _ _ _ Helt) as Hklen.
    destruct (lookup_lt_is_Some_2 heap (Nat.div2 k)) as [parent Hparent]; [lia |].
    rewrite Hparent in Hrun. cbn [bind] in Hrun.
    destruct (compareHeapable elt parent) as [c | | |] eqn:Hc; try done.
    cbn [bind] in Hrun.
    destruct (precedes_of_compare _ _ _ Hc) as [Hless Hmore].
    pose proof (lookup_lt_Some _ _ _ Hparent) as Hplen.
    destruct (Z.geb_spec c 0) as [Hge | Hlt].
    + inversion Hrun; subst heap'. intros i x p Hi Hx Hp.
      destruct (decide (i = k)) as [-> | Hik].
      * rewrite Helt in Hx. rewrite Hparent in Hp.
        inversion Hx; inversion Hp; subst. apply Hmore. lia.
      * by eapply Hord.
    + specialize (Hless Hlt).
      eapply (IH _ heap' elt (Nat.div2 k)); [| | exact Hrun].
      { rewrite swapped_lookup by lia. by rewrite decide_True. }
      split.
      * intros i x p Hi Hip Hx Hp.
        rewrite swapped_lookup in Hx, Hp by lia.
        rewrite decide_False in Hx by done.
        destruct (decide (i = k)) as [-> | Hik].
        -- rewrite decide_True in Hp by done.
           inversion Hx; inversion Hp; by subst.
        -- destruct (decide (Nat.div2 i = Nat.div2 k)) as [Hsame | Hother].
           ++ inversion Hp; subst p.
              apply (precedes_trans _ parent); [done |].
              eapply (Hord i); [done | done | done |]. by rewrite Hsame.
           ++ destruct (decide (Nat.div2 i = k)) as [Hchild | Hnot].
              ** inversion Hp; subst p. by eapply (Hbelow i).
              ** by eapply (Hord i).
      * intros c0 x gp Hppos Hc0 Hx Hgp.
        assert (Hgdiv : (Nat.div2 (Nat.div2 k) < Nat.div2 k)%nat)
          by (apply Nat.lt_div2; lia).
        assert (Hc0pos : (Nat.div2 c0 < c0)%nat).
        { destruct c0 as [| c0]; [simpl in Hc0; lia |]. apply Nat.lt_div2. lia. }
        rewrite swapped_lookup in Hx, Hgp by lia.
        rewrite decide_False in Hx by lia.
        rewrite decide_False in Hgp by lia.
        rewrite decide_False in Hgp by lia.
        assert (Hpp : precedes gp parent).
        { eapply (Hord (Nat.div2 k)); [lia | lia | done | done]. }
        destruct (decide (c0 = k)) as [-> | Hck].
        -- inversion Hx; by subst.
        -- apply (precedes_trans _ parent); [done |].
           eapply (Hord c0); [lia | done | done |]. by rewrite Hc0.
  - inversion Hrun; subst heap'. intros i x p Hi Hx Hp.
    eapply Hord; [done | lia | done | done].
Qed.

Lemma addToHeap_orders (heap heap' : list Heapable) (elt : Heapable) :
  parent_ordered heap -> addToHeap heap elt = Ok heap' -> parent_ordered heap'.
Proof.
  intros Hord Hrun. unfold addToHeap in Hrun.
  assert (Hlast : (length (heap ++ [elt]) - 1)%nat = length heap)
    by (rewrite length_app; simpl; lia).
  rewrite Hlast in Hrun.
  eapply siftUp_orders; [| | exact Hrun].
  - by rewrite lookup_app_r, Nat.sub_diag by lia.
  - split.
    + intros i x p Hi Hik Hx Hp.
      assert (Hilt : (i < length heap)%nat).
      { apply lookup_lt_Some in Hx. rewrite length_app in Hx. simpl in Hx. lia. }
      assert (Hdiv : (Nat.div2 i < i)%nat) by (apply Nat.lt_div2; lia).
      rewrite lookup_app_l in Hx, Hp by lia. by eapply Hord.
    + intros c x gp Hk Hc Hx Hgp.
      apply lookup_lt_Some in Hx. rewrite length_app in Hx. simpl in Hx.
      assert (Hdouble : (2 * Nat.div2 c <= c)%nat).
      { rewrite (Nat.div2_odd c) at 2. lia. }
      lia.
Qed.

Lemma push_all_orders (elts : list Heapable) :
  forall heap : list Heapable,
    Forall valid_item heap -> parent_ordered heap -> Forall valid_item elts ->
    exists heap',
      push_all heap elts = Ok heap'
      /\ parent_ordered heap' /\ Forall valid_item heap'
      /\ heap' ≡ₚ heap ++ elts.
Proof.
  induction elts as [| elt elts IH]; intros heap Hheap Hord Helts.
  - exists heap. by rewrite app_nil_r.
  - apply Forall_cons in Helts as [Helt Helts]. cbn [push_all].
    destruct (addToHeap_keeps heap elt Hheap Helt) as (heap1 & Hadd & Hperm).
    rewrite Hadd. cbn [bind].
    destruct (IH heap1) as (heap' & -> & Hord' & Hvalid' & Hperm').
    + rewrite Hperm. by apply Forall_cons.
    + by eapply addToHeap_orders.
    + done.
    + exists heap'. repeat split; [done .. |].
      rewrite Hperm', Hperm. simpl. apply Permutation_middle.
Qed.

Lemma root_precedes_all (heap : list Heapable) (m : Heapable) :
  parent_ordered heap -> Forall valid_item heap -> heap !! 0%nat = Some m ->
  forall (i : nat) (x : Heapable), heap !! i = Some x -> precedes m x.
Proof.
  intros Hord Hvalid Hm i.
  induction i as [i IH] using lt_wf_ind. intros x Hx.
  destruct i as [| i].
  - rewrite Hm in Hx. inversion Hx; subst.
    apply precedes_refl. by eapply Forall_valid_lookup.
  - assert (Hdiv : (Nat.div2 (S i) < S i)%nat) by (apply Nat.lt_div2; lia).
    destruct (lookup_lt_is_Some_2 heap (Nat.div2 (S i))) as [p Hp].
    { apply lookup_lt_Some in Hx. lia. }
    apply (precedes_trans _ p); [by apply (IH (Nat.div2 (S i))) |].
    eapply (Hord (S i)); [lia | done | done].
Qed.

(** X15. After any elements that can be read are pushed with
    [addToHeap] into an empty array, the array holds exactly these
    elements, and the first [takeFromHeap] returns one that is not
    after any of them for [compareHeapable]: a minimal element. *)
Theorem first_take_after_pushes_is_minimal :
  forall elts : list Heapable,
    Forall valid_item elts -> elts <> [] ->
    exists heap first rest,
      push_all [] elts = Ok heap
      /\ heap ≡ₚ elts
      /\ takeFromHeap heap = Ok (first, rest)
      /\ first :: rest ≡ₚ elts
      /\ forall x, x ∈ elts -> precedes first x.
Proof.
  intros elts Hvalid Hne.
  destruct (push_all_orders elts []) as (heap & Hpush & Hord & Hv & Hperm);
    [constructor | by intros i x p _ Hx | done |].
  simpl in Hperm.
  assert (Hheap : heap <> []).
  { intros ->. apply Permutation_nil_l in Hperm. by subst. }
  destruct (takeFromHeap_keeps heap Hheap Hv) as (first & rest & Htake & Hp).
  exists heap, first, rest. repeat split; [done .. | by rewrite <- Hp |].
  intros x Hx. rewrite <- Hperm in Hx.
  apply list_elem_of_lookup in Hx as [i Hi].
  eapply root_precedes_all; [done | done | | exact Hi].
  by eapply takeFromHeap_first.
Qed.

Lemma first_take_after_pushes_is_minimal_witness :
  Forall valid_item [HDecoration 0 (plain 1 4); HDecoration 1 (plain 0 3)]
  /\ [HDecoration 0 (plain 1 4); HDecoration 1 (plain 0 3)] <> []
  /\ exists heap first rest,
       push_all [] [HDecoration 0 (plain 1 4); HDecoration 1 (plain 0 3)]
       = Ok heap
       /\ takeFromHeap heap = Ok (first, rest)
       /\ forall x,
            x ∈ [HDecoration 0 (plain 1 4); HDecoration 1 (plain 0 3)] ->
            precedes first x.
Proof.
  assert (Hvalid : Forall valid_item
                     [HDecoration 0 (plain 1 4); HDecoration 1 (plain 0 3)])
    by (repeat constructor).
  split; [exact Hvalid |]. split; [discriminate |].
  destruct (first_take_after_pushes_is_minimal
              [HDecoration 0 (plain 1 4); HDecoration 1 (plain 0 3)] Hvalid)
    as (heap & first & rest & Hpush & _ & Htake & _ & Hmin); [discriminate |].
  exists heap, first, rest. split; [exact Hpush |]. split; [exact Htake |].
  exact Hmin.
Defined.

(** ** Mapping a set through changes *)

(** X16. [touchesChange] on a smaller interval: when no change of the
    list touches [outerFrom, outerTo], none touches an interval inside
    it.  The changes have [from <= to]. *)
Theorem touchesChange_inside_untouched :
  forall (changes : list TextChange.t) (outerFrom from to outerTo : Z),
    Forall (fun c => TextChange.from c <= TextChange.to c) changes ->
    outerFrom <= from -> from <= to -> to <= outerTo ->
    touchesChange outerFrom outerTo changes = false ->
    touchesChange from to changes = false.
Proof.
  induction changes as [| c changes IH]; intros A a b B Hc HA Hab HB Houter;
    [done |].
  apply Forall_cons in Hc as [Hc Hrest]. cbn [touchesChange] in *.
  destruct (Z.geb_spec (TextChange.to c) A) as [H1 | H1];
    destruct (Z.leb_spec (TextChange.from c) B) as [H2 | H2];
    cbn [andb] in Houter; try done;
    destruct (Z.geb_spec (TextChange.to c) a) as [H3 | H3];
    destruct (Z.leb_spec (TextChange.from c) b) as [H4 | H4];
    cbn [andb]; try lia;
    (eapply IH; [exact Hrest | | | | exact Houter]);
    repeat match goal with
           | |- context [?x >? ?y] => destruct (Z.gtb_spec x y)
           end; lia.
Qed.

Lemma touchesChange_inside_untouched_witness :
  touchesChange 0 10 [TextChange.mk (Change.mk (fun pos _ => pos)) 12 15 0] = false
  /\ touchesChange 2 5 [TextChange.mk (Change.mk (fun pos _ => pos)) 12 15 0] = false.
Proof.
  split; [reflexivity |].
  apply (touchesChange_inside_untouched
           [TextChange.mk (Change.mk (fun pos _ => pos)) 12 15 0] 0 2 5 10).
  - repeat constructor. simpl. lia.
  - lia.
  - lia.
  - lia.
  - reflexivity.
Defined.

Lemma mapInner_unfold (g : list Decoration.t) (this : DecorationSet.t)
    (changes : list TextChange.t) (oldStart newStart newEnd : Z) :
  mapInner g this changes oldStart newStart newEnd
  = let newLength := newEnd - newStart in
    let thisLocal := deref g (DecorationSet.local this) in
    let first :=
      mapInner_locals thisLocal [] (methods changes) newLength None None in
    do r <- mapInner_children g changes newStart newLength thisLocal
              (len (DecorationSet.children this)) (DecorationSet.children this)
              [] 0 oldStart newStart first.1 first.2 None 0;
    Ok (mapInner_result g this newLength r).
Proof.
  destruct this as [length size local children].
  cbn [mapInner DecorationSet.children DecorationSet.local DecorationSet.length].
  cbv zeta.
  destruct (mapInner_locals (deref g local) [] (methods changes)
              (newEnd - newStart) None None) as [newLocal escaped].
  cbn [fst snd].
  match goal with
  | |- context [bind (?F children [] 0 oldStart newStart newLocal escaped None 0) _] =>
      assert (Hloop : forall todo done i oldPos newPos nl es nc nsz,
                 F todo done i oldPos newPos nl es nc nsz
                 = mapInner_children g changes newStart (newEnd - newStart)
                     (deref g local) (len children) todo done i oldPos newPos
                     nl es nc nsz)
  end.
  { induction todo as [| child todo IHtodo]; intros; [done |].
    cbn [mapInner_children].
    match goal with
    | |- bind ?X _ = bind ?X _ =>
        destruct X as [[[u nl'] es'] | | |]; cbn [bind]; [| done ..]
    end.
    destruct (place_child nc done child u i (len children)); cbn [bind];
      [| done ..].
    apply IHtodo. }
  rewrite Hloop.
  destruct (mapInner_children _ _ _ _ _ _ _ _ _ _ _ _ _ _ _) as [r | | |];
    [| done ..].
  destruct r as [[[nl es] nc] nsz]. reflexivity.
Qed.

Lemma sum_sizes_app (a b : list DecorationSet.t) :
  sum_sizes (a ++ b) = sum_sizes a + sum_sizes b.
Proof. induction a as [| x a IH]; simpl; [done | rewrite IH; lia]. Qed.

Lemma sum_sizes_insert (a : list DecorationSet.t) (n : nat)
    (old new : DecorationSet.t) :
  a !! n = Some old -> DecorationSet.size new = DecorationSet.size old ->
  sum_sizes (<[n := new]> a) = sum_sizes a.
Proof.
  revert n. induction a as [| x a IH]; intros [| n] Hold Hsize; simpl in *;
    try done.
  - inversion Hold; subst. lia.
  - by rewrite (IH n).
Qed.

Lemma size_sound_unfold (g : list Decoration.t) (s : DecorationSet.t) :
  size_sound g s
  = (DecorationSet.size s
     =? len (deref g (DecorationSet.local s)) + sum_sizes (DecorationSet.children s))
    && forallb (size_sound g) (DecorationSet.children s).
Proof. by destruct s. Qed.

Lemma at_index_Ok {A : Type} (a : list A) (i : Z) (x : A) :
  at_index a i = Ok x -> a !! Z.to_nat i = Some x.
Proof.
  unfold at_index. destruct (i <? 0); [done |].
  destruct (a !! Z.to_nat i); [by intros [= ->] | done].
Qed.

(** What [place_child] does to the sizes: the array that stands for
    the new children ([newChildren], or the children seen so far) gains
    the size of the new child. *)
Lemma place_child_sizes (g : list Decoration.t)
    (newChildren newChildren' : option (list DecorationSet.t))
    (done : list DecorationSet.t) (child : DecorationSet.t) (u : updated)
    (i count : Z) :
  Forall (fun c => size_sound g c = true) (default done newChildren) ->
  size_sound g (resolve child u) = true ->
  place_child newChildren done child u i count = Ok newChildren' ->
  Forall (fun c => size_sound g c = true)
         (default (done ++ [child]) newChildren')
  /\ sum_sizes (default (done ++ [child]) newChildren')
     = sum_sizes (default done newChildren)
       + DecorationSet.size (resolve child u).
Proof.
  intros Hcur Hnew. unfold place_child.
  destruct u as [| s]; cbn [is_built resolve] in *.
  - destruct newChildren as [cs |]; intros [= <-]; cbn [from_option id] in *;
      rewrite sum_sizes_app; simpl;
      (split; [apply Forall_app; split; [done | by constructor] | lia]).
  - destruct (Z.eqb_spec (DecorationSet.size s) 0) as [Hzero | Hsize];
      cbn [andb].
    + destruct ((DecorationSet.length s =? 0) || (i >? 0) || (i =? count)).
      * destruct ((DecorationSet.length s >? 0) && (i >? 0)).
        -- destruct (at_index (default done newChildren) (i - 1))
             as [last | | |] eqn:Hlast; cbn [bind]; try done.
           intros [= <-]. cbn [from_option id]. apply at_index_Ok in Hlast. split.
           ++ apply Forall_insert; [done |].
              rewrite size_sound_unfold. cbn.
              rewrite <- size_sound_unfold.
              by eapply (proj1 (Forall_lookup _ _) Hcur).
           ++ rewrite (sum_sizes_insert _ _ last) by done. lia.
        -- intros [= <-]. cbn [from_option id]. split; [done | lia].
      * intros [= <-]. cbn [from_option id]. rewrite sum_sizes_app. simpl.
        split; [apply Forall_app; split; [done | by constructor] | lia].
    + intros [= <-]. cbn [from_option id]. rewrite sum_sizes_app. simpl.
      split; [apply Forall_app; split; [done | by constructor] | lia].
Qed.

Lemma mapInner_children_sizes (g : list Decoration.t)
    (changes : list TextChange.t) (newStart newLength : Z)
    (thisLocal : list Decoration.t) (count : Z) (todo : list DecorationSet.t) :
  Forall (fun child =>
            forall oldStart newStart newEnd u escaped,
              size_sound g child = true ->
              mapInner g child changes oldStart newStart newEnd = Ok (u, escaped) ->
              size_sound g (resolve child u) = true) todo ->
  Forall (fun c => size_sound g c = true) todo ->
  forall done i oldPos newPos newLocal escaped newChildren newSize r,
    Forall (fun c => size_sound g c = true) (default done newChildren) ->
    sum_sizes (default done newChildren) = newSize ->
    mapInner_children g changes newStart newLength thisLocal count todo done
      i oldPos newPos newLocal escaped newChildren newSize = Ok r ->
    Forall (fun c => size_sound g c = true) (default (done ++ todo) r.1.2)
    /\ sum_sizes (default (done ++ todo) r.1.2) = r.2.
Proof.
  induction todo as [| child todo IH];
    intros Hrec Hsound done i oldPos newPos nl es nc nsz r Hcur Hsum Hrun.
  - cbn [mapInner_children] in Hrun. inversion Hrun; subst r. cbn [fst snd].
    rewrite app_nil_r. split; [| done].
    destruct nc; cbn [from_option id] in *; [done |]. done.
  - apply Forall_cons in Hrec as [Hchild Hrec].
    apply Forall_cons in Hsound as [Hc Hsound].
    cbn [mapInner_children] in Hrun.
    match type of Hrun with
    | bind ?X _ = _ =>
        assert (Hstep : forall u nl' es',
                   X = Ok (u, nl', es') -> size_sound g (resolve child u) = true)
    end.
    { intros u nl' es'. destruct (touchesChange _ _ _).
      - destruct (mapInner g child changes oldPos newPos _)
          as [[u0 inner] | | |] eqn:Hinner; cbn [bind]; try done.
        destruct (match inner with Some _ => _ | None => _ end).
        intros [= <- _ _]. by eapply Hchild.
      - destruct (negb _); intros [= <- _ _]; cbn [resolve]; [| done].
        rewrite size_sound_unfold. cbn. by rewrite <- size_sound_unfold. }
    match type of Hrun with
    | bind ?X _ = _ => destruct X as [[[u nl'] es'] | | |]; cbn [bind] in Hrun;
                       try done
    end.
    specialize (Hstep u nl' es' eq_refl).
    destruct (place_child nc done child u i count) as [nc' | | |] eqn:Hplace;
      cbn [bind] in Hrun; try done.
    destruct (place_child_sizes g nc nc' done child u i count Hcur Hstep Hplace)
      as [Hcur' Hsum'].
    destruct (IH Hrec Hsound (done ++ [child]) (i + 1)
                (oldPos + DecorationSet.length child)
                (mapPos (oldPos + DecorationSet.length child) (methods changes) 1)
                nl' es' nc' (nsz + DecorationSet.size (resolve child u)) r)
      as [Hfinal Hsize]; [done | lia | exact Hrun |].
    rewrite <- app_assoc in Hfinal, Hsize. done.
Qed.

Lemma mapInner_size_sound (g : list Decoration.t) (this : DecorationSet.t) :
  forall (changes : list TextChange.t) (oldStart newStart newEnd : Z)
         (u : updated) (escaped : option (list Decoration.t)),
    size_sound g this = true ->
    mapInner g this changes oldStart newStart newEnd = Ok (u, escaped) ->
    size_sound g (resolve this u) = true.
Proof.
  induction this as [length size local children IH] using set_ind.
  intros changes oldStart newStart newEnd u escaped Hsound.
  rewrite mapInner_unfold. cbv zeta.
  cbn [DecorationSet.children DecorationSet.local DecorationSet.length].
  destruct (mapInner_children _ _ _ _ _ _ _ _ _ _ _ _ _ _ _)
    as [r | | |] eqn:Hloop; cbn [bind]; try done.
  pose proof Hsound as Hparts. rewrite size_sound_unfold in Hparts.
  cbn [DecorationSet.children DecorationSet.local DecorationSet.size] in Hparts.
  apply andb_true_iff in Hparts as [Hsize Hchildren].
  apply forallb_Forall in Hchildren.
  eapply mapInner_children_sizes in Hloop as [Hfinal Hsum];
    [| eapply Forall_impl; [exact IH |]; intros c Hc; intros; by eapply Hc
     | done | by constructor | done].
  destruct r as [[[nl es] nc] nsz]. cbn [fst snd app] in *.
  unfold mapInner_result.
  cbn [DecorationSet.children DecorationSet.local DecorationSet.length].
  destruct (_ && _ && _); intros [= <- _]; cbn [resolve]; [done |].
  rewrite size_sound_unfold.
  cbn [DecorationSet.children DecorationSet.local DecorationSet.size].
  apply andb_true_iff. split; [| by apply forallb_Forall].
  rewrite Hsum. destruct nl; cbn [from_option id deref]; lia.
Qed.

Lemma mapInner_length (g : list Decoration.t) (this : DecorationSet.t)
    (changes : list TextChange.t) (oldStart newStart newEnd : Z)
    (u : updated) (escaped : option (list Decoration.t)) :
  mapInner g this changes oldStart newStart newEnd = Ok (u, escaped) ->
  DecorationSet.length (resolve this u) = newEnd - newStart.
Proof.
  rewrite mapInner_unfold. cbv zeta.
  destruct (mapInner_children _ _ _ _ _ _ _ _ _ _ _ _ _ _ _)
    as [[[[nl es] nc] nsz] | | |]; cbn [bind]; try done.
  unfold mapInner_result.
  destruct (Z.eqb_spec (newEnd - newStart) (DecorationSet.length this));
    cbn [andb]; [| by intros [= <- _]].
  destruct (_ && _); by intros [= <- _].
Qed.

(** X17. When [map] returns, the set it returns has the length to which
    the changes map the old length (unless the receiver is the empty
    set object, which is returned as it is), and if the count [size]
    was right at every node of the receiver, it is right at every node
    of the result. *)
Theorem map_keeps_the_counts :
  forall (g : list Decoration.t) (this : DecorationSet.t) (sentinel : bool)
         (changes : list TextChange.t) (u : updated),
    DecorationSet_map g this sentinel changes = Ok u ->
    (size_sound g this = true -> size_sound g (resolve this u) = true)
    /\ (sentinel = false ->
        DecorationSet.length (resolve this u)
        = mapPos (DecorationSet.length this) (methods changes) 1).
Proof.
  intros g this sentinel changes u. unfold DecorationSet_map.
  destruct changes as [| c changes].
  - intros [= <-]. by split.
  - change (len (c :: changes) =? 0) with false. cbn [orb].
    destruct sentinel; [intros [= <-]; by split |].
    destruct (mapInner g this (c :: changes) 0 0 _)
      as [[set esc] | | |] eqn:Hmap; cbn [bind]; try done.
    intros [= <-]. split.
    + intros Hsound. by eapply mapInner_size_sound.
    + intros _. rewrite (mapInner_length _ _ _ _ _ _ _ _ Hmap). lia.
Qed.

Lemma map_keeps_the_counts_witness :
  exists u,
    DecorationSet_map [] (DecorationSet.mk 20 1 (OwnArray [plain 5 10]) []) false
      [TextChange.mk (Change.mk (fun pos _ => if pos <? 2 then pos else pos + 3))
         2 2 3] = Ok u
    /\ size_sound [] (resolve (DecorationSet.mk 20 1 (OwnArray [plain 5 10]) []) u)
       = true
    /\ DecorationSet.length
         (resolve (DecorationSet.mk 20 1 (OwnArray [plain 5 10]) []) u) = 23.
Proof.
  eexists. split; [vm_compute; reflexivity |].
  destruct (map_keeps_the_counts []
              (DecorationSet.mk 20 1 (OwnArray [plain 5 10]) []) false
              [TextChange.mk
                 (Change.mk (fun pos _ => if pos <? 2 then pos else pos + 3))
                 2 2 3] _ eq_refl) as [Hsize Hlength].
  split; [apply Hsize; reflexivity | apply Hlength; reflexivity].
Defined.

Lemma Decoration_map_well_shaped (d d' : Decoration.t) (changes : list Change.t) :
  Decoration.map d changes = Some d' -> well_shaped d' = true.
Proof.
  destruct d as [from to desc]. unfold Decoration.map, well_shaped.
  cbn [Decoration.desc Decoration.from Decoration.to].
  destruct desc as [spec | spec].
  - destruct (Z.ltb_spec (mapPos from changes (bias (RangeDesc spec)))
                         (mapPos to changes (endBias spec))); [| done].
    intros [= <-]. cbn. by apply Z.ltb_lt.
  - intros [= <-]. cbn. apply Z.eqb_refl.
Qed.

Lemma move_well_shaped (d : Decoration.t) (offset : Z) :
  well_shaped d = true -> well_shaped (Decoration.move d offset) = true.
Proof.
  rewrite move_fields. unfold well_shaped.
  cbn [Decoration.desc Decoration.from Decoration.to].
  destruct (Decoration.desc d); rewrite ?Z.ltb_lt, ?Z.eqb_eq; lia.
Qed.

Lemma mapInner_locals_shaped (changes : list Change.t) (newLength : Z)
    (todo : list Decoration.t) :
  forall seen newLocal escaped,
    all_shaped newLocal -> all_shaped escaped ->
    (newLocal = None -> seen = []) ->
    all_shaped (mapInner_locals todo seen changes newLength newLocal escaped).1
    /\ all_shaped (mapInner_locals todo seen changes newLength newLocal escaped).2.
Proof.
  induction todo as [| deco todo IH]; intros seen nl es Hnl Hes Hseen;
    cbn [mapInner_locals]; [done |].
  assert (Hnl' : all_shaped (match nl with None => Some seen | Some a => Some a end)).
  { destruct nl; [done |]. intros a [= <-]. by rewrite Hseen. }
  destruct (Decoration.map deco changes) as [m |] eqn:Hm.
  - apply Decoration_map_well_shaped in Hm.
    destruct (_ || _); apply IH.
    + done.
    + intros a [= <-]. apply Forall_app. split; [| by repeat constructor].
      destruct es; [by apply Hes | constructor].
    + by destruct nl.
    + destruct nl as [a |]; intros b [= <-]; apply Forall_app;
        (split; [| by repeat constructor]); [by apply Hnl | by apply Hnl'].
    + done.
    + by destruct nl.
  - apply IH; [done | done | by destruct nl].
Qed.

Lemma mapInner_escaped_shaped (shift newLength : Z)
    (thisLocal : list Decoration.t) (inner : list Decoration.t) :
  Forall (fun d => well_shaped d = true) thisLocal ->
  Forall (fun d => well_shaped d = true) inner ->
  forall newLocal escaped,
    all_shaped newLocal -> all_shaped escaped ->
    all_shaped (mapInner_escaped inner shift newLength thisLocal newLocal escaped).1
    /\ all_shaped (mapInner_escaped inner shift newLength thisLocal newLocal escaped).2.
Proof.
  intros Hlocal. induction inner as [| d inner IH]; intros Hinner nl es Hnl Hes;
    cbn [mapInner_escaped]; [done |].
  apply Forall_cons in Hinner as [Hd Hinner].
  pose proof (move_well_shaped d shift Hd) as Hmoved.
  destruct (_ || _); apply IH; try done.
  - intros a [= <-]. apply Forall_app. split; [| by repeat constructor].
    destruct es; [by apply Hes | constructor].
  - intros a [= <-]. rewrite insertSorted_Permutation. constructor; [done |].
    destruct nl; [by apply Hnl | done].
Qed.

Lemma locals_well_shaped_unfold (g : list Decoration.t) (s : DecorationSet.t) :
  locals_well_shaped g s
  = forallb well_shaped (deref g (DecorationSet.local s))
    && forallb (locals_well_shaped g) (DecorationSet.children s).
Proof. by destruct s. Qed.

Lemma place_child_shaped (g : list Decoration.t)
    (newChildren newChildren' : option (list DecorationSet.t))
    (done : list DecorationSet.t) (child : DecorationSet.t) (u : updated)
    (i count : Z) :
  Forall (fun c => locals_well_shaped g c = true) (default done newChildren) ->
  locals_well_shaped g (resolve child u) = true ->
  place_child newChildren done child u i count = Ok newChildren' ->
  Forall (fun c => locals_well_shaped g c = true)
         (default (done ++ [child]) newChildren').
Proof.
  intros Hcur Hnew. unfold place_child.
  destruct u as [| s]; cbn [is_built resolve] in *.
  - destruct newChildren as [cs |]; intros [= <-]; cbn [from_option id] in *;
      (apply Forall_app; split; [done | by constructor]).
  - destruct ((DecorationSet.size s =? 0) && _).
    + destruct ((DecorationSet.length s >? 0) && (i >? 0)).
      * destruct (at_index (default done newChildren) (i - 1))
          as [last | | |] eqn:Hlast; cbn [bind]; try done.
        intros [= <-]. cbn [from_option id]. apply at_index_Ok in Hlast.
        apply Forall_insert; [done |].
        rewrite locals_well_shaped_unfold. cbn.
        rewrite <- locals_well_shaped_unfold.
        by eapply (proj1 (Forall_lookup _ _) Hcur).
      * by intros [= <-].
    + intros [= <-]. cbn [from_option id].
      apply Forall_app; split; [done | by constructor].
Qed.

Lemma mapInner_children_shaped (g : list Decoration.t)
    (changes : list TextChange.t) (newStart newLength : Z)
    (thisLocal : list Decoration.t) (count : Z) (todo : list DecorationSet.t) :
  Forall (fun d => well_shaped d = true) thisLocal ->
  Forall (fun child =>
            forall oldStart newStart newEnd u escaped,
              locals_well_shaped g child = true ->
              mapInner g child changes oldStart newStart newEnd = Ok (u, escaped) ->
              locals_well_shaped g (resolve child u) = true
              /\ all_shaped escaped) todo ->
  Forall (fun c => locals_well_shaped g c = true) todo ->
  forall done i oldPos newPos newLocal escaped newChildren newSize r,
    Forall (fun c => locals_well_shaped g c = true) (default done newChildren) ->
    all_shaped newLocal -> all_shaped escaped ->
    mapInner_children g changes newStart newLength thisLocal count todo done
      i oldPos newPos newLocal escaped newChildren newSize = Ok r ->
    Forall (fun c => locals_well_shaped g c = true)
           (default (done ++ todo) r.1.2)
    /\ all_shaped r.1.1.1 /\ all_shaped r.1.1.2.
Proof.
  intros Hlocal.
  induction todo as [| child todo IH];
    intros Hrec Hsound done i oldPos newPos nl es nc nsz r Hcur Hnl Hes Hrun.
  - cbn [mapInner_children] in Hrun. inversion Hrun; subst r. cbn [fst snd].
    by rewrite app_nil_r.
  - apply Forall_cons in Hrec as [Hchild Hrec].
    apply Forall_cons in Hsound as [Hc Hsound].
    cbn [mapInner_children] in Hrun.
    match type of Hrun with
    | bind ?X _ = _ =>
        assert (Hstep : forall u nl' es',
                   X = Ok (u, nl', es') ->
                   locals_well_shaped g (resolve child u) = true
                   /\ all_shaped nl' /\ all_shaped es')
    end.
    { intros u nl' es'. destruct (touchesChange _ _ _).
      - destruct (mapInner g child changes oldPos newPos _)
          as [[u0 inner] | | |] eqn:Hinner; cbn [bind]; try done.
        destruct (Hchild _ _ _ _ _ Hc Hinner) as [Hu0 Hesc].
        destruct inner as [inner |].
        + pose proof (mapInner_escaped_shaped (newPos - newStart) newLength
                        thisLocal inner Hlocal (Hesc _ eq_refl) nl es Hnl Hes)
            as [H1 H2].
          destruct (mapInner_escaped _ _ _ _ _ _) as [nl1 es1].
          by intros [= <- <- <-].
        + by intros [= <- <- <-].
      - destruct (negb _); intros [= <- <- <-]; cbn [resolve]; [| done].
        split; [| done].
        rewrite locals_well_shaped_unfold. cbn.
        by rewrite <- locals_well_shaped_unfold. }
    match type of Hrun with
    | bind ?X _ = _ => destruct X as [[[u nl'] es'] | | |]; cbn [bind] in Hrun;
                       try done
    end.
    destruct (Hstep u nl' es' eq_refl) as (Hu & Hnl' & Hes').
    destruct (place_child nc done child u i count) as [nc' | | |] eqn:Hplace;
      cbn [bind] in Hrun; try done.
    pose proof (place_child_shaped g nc nc' done child u i count Hcur Hu Hplace)
      as Hcur'.
    destruct (IH Hrec Hsound (done ++ [child]) (i + 1)
                (oldPos + DecorationSet.length child)
                (mapPos (oldPos + DecorationSet.length child) (methods changes) 1)
                nl' es' nc' (nsz + DecorationSet.size (resolve child u)) r)
      as (Hfinal & H1 & H2); [done | done | done | exact Hrun |].
    rewrite <- app_assoc in Hfinal. done.
Qed.

Lemma mapInner_shaped (g : list Decoration.t) (this : DecorationSet.t) :
  forall (changes : list TextChange.t) (oldStart newStart newEnd : Z)
         (u : updated) (escaped : option (list Decoration.t)),
    locals_well_shaped g this = true ->
    mapInner g this changes oldStart newStart newEnd = Ok (u, escaped) ->
    locals_well_shaped g (resolve this u) = true /\ all_shaped escaped.
Proof.
  induction this as [length size local children IH] using set_ind.
  intros changes oldStart newStart newEnd u escaped Hshaped.
  rewrite mapInner_unfold. cbv zeta.
  cbn [DecorationSet.children DecorationSet.local DecorationSet.length].
  destruct (mapInner_children _ _ _ _ _ _ _ _ _ _ _ _ _ _ _)
    as [r | | |] eqn:Hloop; cbn [bind]; try done.
  pose proof Hshaped as Hparts. rewrite locals_well_shaped_unfold in Hparts.
  cbn [DecorationSet.children DecorationSet.local] in Hparts.
  apply andb_true_iff in Hparts as [Hlocal Hchildren].
  apply forallb_Forall in Hlocal, Hchildren.
  destruct (mapInner_locals_shaped (methods changes) (newEnd - newStart)
              (deref g local) [] None None) as [Hfirst1 Hfirst2]; try done.
  eapply mapInner_children_shaped in Hloop as (Hfinal & Hnl & Hes);
    [| done
     | eapply Forall_impl; [exact IH |]; intros c Hc; intros; by eapply Hc
     | done | by constructor | done | done].
  destruct r as [[[nl es] nc] nsz]. cbn [fst snd app] in *.
  unfold mapInner_result.
  cbn [DecorationSet.children DecorationSet.local DecorationSet.length].
  destruct (_ && _ && _); intros [= <- <-]; cbn [resolve]; [done |].
  split; [| done].
  rewrite locals_well_shaped_unfold.
  cbn [DecorationSet.children DecorationSet.local].
  apply andb_true_iff. split; [| by apply forallb_Forall].
  apply forallb_Forall.
  destruct nl; cbn [deref]; [by apply Hnl | done].
Qed.

(** X18. If in every node of a set the ranges are not empty and the
    points are, the same holds in every node of the set that [map]
    returns, whatever the changes. *)
Theorem map_keeps_decorations_well_shaped :
  forall (g : list Decoration.t) (this : DecorationSet.t) (sentinel : bool)
         (changes : list TextChange.t) (u : updated),
    locals_well_shaped g this = true ->
    DecorationSet_map g this sentinel changes = Ok u ->
    locals_well_shaped g (resolve this u) = true.
Proof.
  intros g this sentinel changes u Hshaped. unfold DecorationSet_map.
  destruct ((len changes =? 0) || sentinel); [by intros [= <-] |].
  destruct (mapInner g this changes 0 0 _) as [[set esc] | | |] eqn:Hmap;
    cbn [bind]; try done.
  intros [= <-]. by eapply mapInner_shaped.
Qed.

Lemma map_keeps_decorations_well_shaped_witness :
  exists u,
    DecorationSet_map [] (DecorationSet.mk 20 2 (OwnArray [plain 1 3; plain 5 10]) [])
      false
      [TextChange.mk (Change.mk (fun pos _ => if pos <? 4 then Z.min pos 1 else pos - 3))
         1 4 0] = Ok u
    /\ locals_well_shaped []
         (resolve (DecorationSet.mk 20 2 (OwnArray [plain 1 3; plain 5 10]) []) u)
       = true.
Proof.
  eexists. split; [vm_compute; reflexivity |].
  apply (map_keeps_decorations_well_shaped []
           (DecorationSet.mk 20 2 (OwnArray [plain 1 3; plain 5 10]) []) false
           [TextChange.mk
              (Change.mk (fun pos _ => if pos <? 4 then Z.min pos 1 else pos - 3))
              1 4 0]); reflexivity.
Defined.

(** ** What [update] returns *)

Lemma scan_additions_progress (rest : list Decoration.t) :
  forall (decI endPos offset : Z) (thisLocal : list Decoration.t)
         (local localDeco : option (list Decoration.t)) rest' decI' local' localDeco',
    scan_additions rest decI endPos offset thisLocal local localDeco
    = (rest', decI', local', localDeco') ->
    decI <= decI'
    /\ (is_Some local -> is_Some local')
    /\ ((exists l, localDeco = Some l /\ l <> []) ->
        exists l, localDeco' = Some l /\ l <> [])
    /\ (decI < decI' ->
        is_Some local' \/ exists l, localDeco' = Some l /\ l <> []).
Proof.
  induction rest as [| next rest IH];
    intros decI endPos offset thisLocal local ld rest' decI' local' ld' Hscan;
    cbn [scan_additions] in Hscan.
  - inversion Hscan; subst. repeat split; [lia | done | done | lia].
  - destruct (Decoration.from next >=? endPos).
    { inversion Hscan; subst. repeat split; [lia | done | done | lia]. }
    destruct (Decoration.to next >? endPos);
      apply IH in Hscan as (Hle & Hlocal & Hdeco & Hmore).
    + split; [lia |]. split; [intros _; by apply Hlocal |].
      split; [done |]. intros _. left. by apply Hlocal.
    + assert (Hfilled : exists l, Some (default [] ld ++ [next]) = Some l /\ l <> []).
      { eexists. split; [done |]. by destruct (default [] ld). }
      split; [lia |]. split; [done |].
      split; [intros _; by apply Hdeco |]. intros _. right. by apply Hdeco.
Qed.

Lemma updateInner_result (fuel : nat) :
  forall (g : list Decoration.t) (this : DecorationSet.t)
         (decorations : list Decoration.t) (filter : option DecorationFilter)
         (filterFrom filterTo offset length : Z) (u : updated)
         (g' : list Decoration.t),
    updateInner fuel g this decorations filter filterFrom filterTo offset length
    = Ok (u, g') ->
    (decorations <> [] -> is_built u = true)
    /\ (is_built u = true -> DecorationSet.length (resolve this u) = length).
Proof.
  induction fuel as [| fuel IH];
    intros g this decorations filter filterFrom filterTo offset length u g' Hrun;
    [done |].
  cbn [updateInner] in Hrun.
  match type of Hrun with
  | context [bind (?F (DecorationSet.children this) [] decorations ?l None 0 0
                     offset g) _] =>
      assert (HF : forall todo done rest local children size decI pos g0 r,
                 0 <= decI ->
                 (local = None -> children = None -> decI = 0) ->
                 F todo done rest local children size decI pos g0 = Ok r ->
                 0 <= r.1.1.2
                 /\ (r.1.1.1.1.1 = None -> r.1.1.1.1.2 = None -> r.1.1.2 = 0));
        [| destruct (F (DecorationSet.children this) [] decorations l None 0 0
                      offset g) as [r | | |] eqn:Hloop;
           cbn [bind] in Hrun; try done;
           apply HF in Hloop as [Hpos Hnone]; [| lia | done]; clear HF ]
  end.
  { induction todo as [| child todo IHtodo];
      intros done rest local children size decI pos g0 r Hpos Hnone Hloop.
    - inversion Hloop; subst r. done.
    - cbn -[Z.add updateInner] in Hloop.
      destruct (scan_additions rest decI (pos + DecorationSet.length child)
                  offset (deref g0 (DecorationSet.local this)) local None)
        as [[[rest1 decI1] local1] localDeco] eqn:Hscan.
      apply scan_additions_progress in Hscan as (Hle & Hlocal & _ & Hmore).
      match type of Hloop with
      | bind ?X _ = _ =>
          assert (Hchild : forall u1 g1,
                     X = Ok (u1, g1) ->
                     (exists l, localDeco = Some l /\ l <> []) ->
                     is_built u1 = true)
      end.
      { intros u1 g1 Hu (l & -> & Hl). cbn [bool_decide orb] in Hu.
        rewrite bool_decide_true in Hu by done. cbn [orb from_option id] in Hu.
        apply IH in Hu as [Hbuilt _]. by apply Hbuilt. }
      match type of Hloop with
      | bind ?X _ = _ =>
          destruct X as [[u1 g1] | | |]; cbn [bind] in Hloop; try done
      end.
      specialize (Hchild u1 g1 eq_refl).
      apply IHtodo in Hloop; [done | lia |].
      intros Hl1 Hc1.
      assert (Hl : local = None).
      { destruct local; [| done].
        destruct Hlocal as [? ->]; [by eexists | done]. }
      assert (Hc : children = None).
      { destruct (is_built u1); [done |]. by destruct children. }
      destruct (Z.eq_dec decI decI1) as [<- | Hne]; [by apply Hnone |].
      destruct Hmore as [[? ->] | Hfilled]; [lia | done |].
      apply Hchild in Hfilled. by rewrite Hfilled in Hc1. }
  destruct r as [[[[[local' children'] size'] decI'] pos'] g1].
  cbn [fst snd] in *.
  destruct (negb (bool_decide (is_Some local'))
            && negb (bool_decide (is_Some children'))
            && (decI' =? len decorations)) eqn:Hsame.
  - inversion Hrun; subst u g'. split; [| done]. intros Hne. exfalso.
    apply andb_prop in Hsame as [Hsame Hall].
    apply andb_prop in Hsame as [Hl Hc].
    apply Z.eqb_eq in Hall.
    assert (decI' = 0).
    { apply Hnone.
      - destruct local'; [| done]. by rewrite bool_decide_true in Hl.
      - destruct children'; [| done]. by rewrite bool_decide_true in Hc. }
    destruct decorations; [done |]. unfold len in Hall. simpl in Hall. lia.
  - assert (Hbuilt : exists s, u = Built s /\ DecorationSet.length s = length).
    { destruct (_ <=? BASE_NODE_SIZE).
      - inversion Hrun; subst. by eexists.
      - repeat match type of Hrun with
               | bind ?X _ = _ =>
                   destruct X as [[[? ?] ?] | | |]; cbn [bind] in Hrun; try done
               end.
        inversion Hrun; subst. by eexists. }
    destruct Hbuilt as (s & -> & Hlen). by split.
Qed.



(** ** Edge cases of [decoratedSpansInRange] *)

Lemma seed_heap_of_empty_sets (g : list Decoration.t) (from : Z)
    (sets : list DecorationSet.t) (heap : list Heapable) :
  Forall (fun s => DecorationSet.size s <= 0) sets ->
  seed_heap g heap sets from = Ok heap.
Proof.
  induction 1 as [| set sets Hset Hsets IH]; [done |].
  cbn [seed_heap]. destruct (Z.gtb_spec (DecorationSet.size set) 0); [lia |].
  cbn [bind]. exact IH.
Qed.

(** X20. When no set holds a decoration (each [size] is at most 0, as
    for no sets at all or for empty sets), [decoratedSpansInRange]
    returns one range [from, to] without tag name or attributes, or no
    range when [from < to] fails. *)
Theorem spans_of_empty_sets_are_one_plain_range :
  forall (g : list Decoration.t) (sets : list DecorationSet.t) (from to : Z),
    Forall (fun s => DecorationSet.size s <= 0) sets ->
    decoratedSpansInRange g sets from to
    = Ok (if from <? to then [DecoratedRange.mk from to None None] else []).
Proof.
  intros g sets from to Hsets. unfold decoratedSpansInRange.
  rewrite seed_heap_of_empty_sets by done. cbn [bind spans_loop].
  change (0 <? length (@nil Heapable))%nat with false.
  unfold finish_spans. by destruct (from <? to).
Qed.

Lemma spans_of_empty_sets_are_one_plain_range_witness :
  Forall (fun s => DecorationSet.size s <= 0)
         [DecorationSet.empty; DecorationSet.mk 30 0 NoDecorations []]
  /\ decoratedSpansInRange []
       [DecorationSet.empty; DecorationSet.mk 30 0 NoDecorations []] 2 9
     = Ok [DecoratedRange.mk 2 9 None None].
Proof.
  assert (Hsets : Forall (fun s => DecorationSet.size s <= 0)
                    [DecorationSet.empty; DecorationSet.mk 30 0 NoDecorations []])
    by (repeat constructor; simpl; lia).
  split; [exact Hsets |].
  exact (spans_of_empty_sets_are_one_plain_range []
           [DecorationSet.empty; DecorationSet.mk 30 0 NoDecorations []] 2 9 Hsets).
Defined.

(** Once [pos] has reached [to], the loop adds no range. *)
Lemma spans_loop_past_the_end (g : list Decoration.t) (from to : Z) (fuel : nat) :
  forall (heap : list Heapable) (result : list DecoratedRange.t)
         (active : list (nat * Decoration.t)) (pos : Z) (serial : nat),
    Forall valid_item heap -> (heap_weight g heap < fuel)%nat -> to <= pos ->
    spans_loop fuel g heap result active pos serial from to = Ok result.
Proof.
  induction fuel as [| fuel IH];
    intros heap result active pos serial Hheap Hfuel Hpos; [lia |].
  assert (Hfinish : forall active', finish_spans result active' pos to = result).
  { intros active'. unfold finish_spans. by destruct (Z.ltb_spec pos to); [lia |]. }
  cbn [spans_loop].
  destruct (Nat.ltb_spec 0 (length heap)) as [Hsome | Hnone];
    [| by rewrite Hfinish].
  destruct (takeFromHeap_keeps heap) as (next & heap1 & -> & Hperm);
    [by destruct heap; [simpl in Hsome; lia |] | done |].
  cbn [bind].
  assert (Hvalid : Forall valid_item (next :: heap1)) by (by rewrite <- Hperm).
  apply Forall_cons in Hvalid as [Hnext Hheap1].
  rewrite (heap_weight_perm _ _ _ Hperm), heap_weight_cons in Hfuel.
  destruct next as [c | id deco].
  - destruct Hnext as [[Hlo Hhi] Hiter].
    assert (Hdeco : exists deco,
               LocalSet.decorations c !! Z.to_nat (LocalSet.index c) = Some deco).
    { apply lookup_lt_is_Some_2. unfold len in Hhi. lia. }
    destruct Hdeco as [deco Hdeco].
    rewrite (at_index_lookup _ _ _ Hlo Hdeco).
    cbn [bind LocalSet.index LocalSet.decorations LocalSet.next LocalSet.offset].
    assert (Hheap2 : exists heap2,
               (if LocalSet.index c + 1 <? len (LocalSet.decorations c)
                then addToHeap heap1
                       (HLocalSet
                          (LocalSet.mk (LocalSet.offset c) (LocalSet.decorations c)
                             (LocalSet.index c + 1) (LocalSet.next c)))
                else match LocalSet.next c with
                     | Some iter => addIterToHeap g heap1 iter 0
                     | None => Ok heap1
                     end) = Ok heap2
               /\ Forall valid_item heap2
               /\ (heap_weight g heap2 + 2
                   <= item_weight g (HLocalSet c) + heap_weight g heap1)%nat).
    { simpl item_weight. unfold len in *.
      destruct (Z.ltb_spec (LocalSet.index c + 1)
                  (Z.of_nat (length (LocalSet.decorations c)))) as [Hmore | Hlast].
      - destruct (addToHeap_keeps heap1
                    (HLocalSet
                       (LocalSet.mk (LocalSet.offset c) (LocalSet.decorations c)
                          (LocalSet.index c + 1) (LocalSet.next c))))
          as (heap2 & -> & Hperm2); [done | |].
        { simpl. split; [unfold len; lia | done]. }
        exists heap2. split; [done |]. split.
        + rewrite Hperm2. apply Forall_cons. split; [| done].
          simpl. split; [unfold len; lia | done].
        + rewrite (heap_weight_perm _ _ _ Hperm2), heap_weight_cons. simpl. lia.
      - destruct (LocalSet.next c) as [iter |].
        + destruct (addIterToHeap_returns g heap1 iter 0 Hheap1 Hiter)
            as (heap2 & -> & Hv & Hw).
          exists heap2. repeat split; [done |]. lia.
        + exists heap1. repeat split; [done |]. lia. }
    destruct Hheap2 as (heap2 & -> & Hvalid2 & Hweight2). cbn [bind].
    destruct (Decoration.to deco + LocalSet.offset c <? from).
    { apply IH; [done | lia | done]. }
    destruct (Z.gtb_spec (Decoration.from deco + LocalSet.offset c) to)
      as [Hpast | Hin]; [by rewrite Hfinish |].
    destruct (Decoration.desc deco) as [spec | spec];
      [| apply IH; [done | lia | done]].
    destruct (affectsSpans spec); cbn [negb];
      [| apply IH; [done | lia | done]].
    destruct (addToHeap_keeps heap2
                (HDecoration serial (Decoration.move deco (LocalSet.offset c))))
      as (heap3 & Hadd & Hperm3); [done | done |].
    assert (Hvalid3 : Forall valid_item heap3)
      by (rewrite Hperm3; by apply Forall_cons).
    assert (Hweight3 : heap_weight g heap3 = S (heap_weight g heap2))
      by (by rewrite (heap_weight_perm _ _ _ Hperm3)).
    pose proof (move_from deco (LocalSet.offset c)) as Hmoved.
    destruct (Z.gtb_spec
                (Decoration.from (Decoration.move deco (LocalSet.offset c))) pos)
      as [Hgap | Hnogap]; [lia |].
    rewrite Hadd. cbn [bind]. apply IH; [done | lia | done].
  - simpl item_weight in Hfuel.
    destruct (Z.geb_spec (Decoration.to deco) to) as [Hend | Hbefore];
      [by rewrite Hfinish |].
    destruct (Z.gtb_spec (Decoration.to deco) pos) as [Hgap | Hnogap]; [lia |].
    apply IH; [done | lia | done].
Qed.

(** X21. For a range that is empty or reversed ([to <= from]),
    [decoratedSpansInRange] returns no range at all, whatever the
    sets. *)
Theorem spans_of_a_reversed_range_are_none :
  forall (g : list Decoration.t) (sets : list DecorationSet.t) (from to : Z),
    to <= from -> decoratedSpansInRange g sets from to = Ok [].
Proof.
  intros g sets from to Hle. unfold decoratedSpansInRange.
  destruct (seed_heap_returns g from sets []) as (heap & -> & Hvalid & Hweight);
    [constructor |].
  cbn [bind]. apply spans_loop_past_the_end; [done | | done].
  unfold heap_weight in Hweight at 2. simpl in Hweight. lia.
Qed.

Lemma spans_of_a_reversed_range_are_none_witness :
  9 <= 12 /\ decoratedSpansInRange [] [set_a; set_b] 12 9 = Ok [].
Proof.
  split; [lia |].
  apply (spans_of_a_reversed_range_are_none [] [set_a; set_b] 12 9). lia.
Defined.

(** ** The attributes of a span *)

Lemma append_assoc (a b c : string) :
  String.append (String.append a b) c = String.append a (String.append b c).
Proof.
  induction a as [| x a IH]; [done |].
  change (String x (String.append (String.append a b) c)
          = String x (String.append a (String.append b c))).
  by f_equal.
Qed.

Lemma append_not_empty (a b : string) :
  a <> EmptyString -> String.append a b <> EmptyString.
Proof.
  destruct a as [| x a]; [done |]. intros _.
  change (String x (String.append a b) <> EmptyString). done.
Qed.

Lemma add_attribute_lookup (name key value : string)
    (attrs : option (gmap string string)) :
  attribute_of name (DecoratedRange.add_attribute key value attrs)
  = if decide (key = name /\ name <> "__proto__")
    then Some (joined_value name (attribute_of name attrs) value)
    else attribute_of name attrs.
Proof.
  unfold DecoratedRange.add_attribute, attribute_of, joined_value.
  assert (Hsame : default ∅ attrs !! name
                  = match attrs with Some m => m !! name | None => None end)
    by (destruct attrs; [done | apply lookup_empty]).
  destruct (String.eqb_spec key "__proto__") as [-> | Hproto].
  - rewrite Hsame. rewrite decide_False; [done |]. by intros [<- ?].
  - destruct (decide (key = name)) as [-> | Hne].
    + rewrite decide_True by done. rewrite lookup_insert_eq. f_equal.
      by rewrite Hsame.
    + rewrite decide_False by (by intros [? _]).
      rewrite lookup_insert_ne by done. exact Hsame.
Qed.

Lemma add_attributes_lookup (name : string) (attrs : option (gmap string string))
    (a : gmap string string) :
  name <> "__proto__" ->
  attribute_of name (map_fold DecoratedRange.add_attribute attrs a)
  = match a !! name with
    | Some value => Some (joined_value name (attribute_of name attrs) value)
    | None => attribute_of name attrs
    end.
Proof.
  intros Hproto.
  apply (map_fold_weak_ind
           (fun r m =>
              attribute_of name r
              = match m !! name with
                | Some value =>
                    Some (joined_value name (attribute_of name attrs) value)
                | None => attribute_of name attrs
                end)).
  - by rewrite lookup_empty.
  - intros key value m r Hfresh Hr. rewrite add_attribute_lookup.
    destruct (decide (key = name)) as [-> | Hne].
    + rewrite decide_True by done.
      rewrite lookup_insert_eq. rewrite Hfresh in Hr. by rewrite Hr.
    + rewrite decide_False by (by intros [? _]). by rewrite lookup_insert_ne.
Qed.

Lemma add_attributes_proto (attrs : option (gmap string string))
    (a : gmap string string) :
  attribute_of "__proto__" (map_fold DecoratedRange.add_attribute attrs a)
  = attribute_of "__proto__" attrs.
Proof.
  apply (map_fold_weak_ind
           (fun r (m : gmap string string) =>
              attribute_of "__proto__" r = attribute_of "__proto__" attrs)).
  - done.
  - intros key value m r _ Hr. rewrite add_attribute_lookup.
    by rewrite decide_False by (by intros [_ ?]).
Qed.

Lemma build_fold (from to : Z) (ranges : list Decoration.t) (name : string) :
  forall (tagName : option string) (attrs : option (gmap string string)),
    let state :=
      foldl (fun '(tagName, attrs) range =>
               match Decoration.desc range with
               | RangeDesc spec =>
                   (if truthy_string (spec_tagName spec)
                    then spec_tagName spec else tagName,
                    match attributes spec with
                    | Some a => map_fold DecoratedRange.add_attribute attrs a
                    | None => attrs
                    end)
               | PointDesc _ => (tagName, attrs)
               end)
            (tagName, attrs) ranges in
    state.1 = from_option Some tagName (last (tag_names ranges))
    /\ (name <> "__proto__" ->
        attribute_of name state.2
        = foldl (fun old value => Some (joined_value name old value))
            (attribute_of name attrs) (attribute_values name ranges))
    /\ attribute_of "__proto__" state.2 = attribute_of "__proto__" attrs.
Proof.
  induction ranges as [| r ranges IH]; intros tagName attrs; [done |].
  cbn [foldl tag_names attribute_values omap list_omap].
  destruct (Decoration.desc r) as [spec | spec]; [| apply IH].
  match goal with
  | |- context [foldl _ (?t, ?a) ranges] =>
      destruct (IH t a) as (Htag & Hattr & Hproto)
  end.
  cbv zeta in *. split; [| split].
  - rewrite Htag. fold (tag_names ranges).
    destruct (truthy_string (spec_tagName spec)) eqn:Htruthy.
    + destruct (spec_tagName spec) as [tag |] eqn:Hspec; [| done].
      cbn [from_option]. rewrite last_cons.
      by destruct (last (tag_names ranges)).
    + done.
  - intros Hname. rewrite Hattr by done. fold (attribute_values name ranges).
    destruct (attributes spec) as [a |]; cbn [attribute_of]; [| done].
    rewrite add_attributes_lookup by done. by destruct (a !! name).
  - rewrite Hproto. destruct (attributes spec) as [a |]; [| done].
    apply add_attributes_proto.
Qed.

Lemma joined_plain (name : string) (values : list string) :
  name <> "style" -> name <> "class" ->
  forall old,
    foldl (fun old value => Some (joined_value name old value)) old values
    = from_option Some old (last values).
Proof.
  intros Hstyle Hclass. induction values as [| v values IH]; intros old; [done |].
  cbn [foldl]. rewrite IH, last_cons. unfold joined_value.
  apply String.eqb_neq in Hstyle, Hclass. rewrite Hstyle, Hclass.
  by destruct (last values).
Qed.

Lemma joined_separated (name sep : string) (values : list string) :
  (forall old value,
      joined_value name (Some old) value
      = if String.eqb old EmptyString then value
        else String.append old (String.append sep value)) ->
  Forall (fun v => v <> EmptyString) values ->
  forall old,
    old <> EmptyString ->
    foldl (fun old value => Some (joined_value name old value)) (Some old) values
    = Some (String.concat sep (old :: values)).
Proof.
  intros Hjoin. induction 1 as [| v values Hv Hvalues IH]; intros old Hold;
    [done |].
  cbn [foldl]. rewrite Hjoin.
  apply String.eqb_neq in Hold as Hfalse. rewrite Hfalse.
  rewrite IH by (apply append_not_empty; by apply String.eqb_neq).
  f_equal. destruct values as [| w values]; cbn [String.concat]; [done |].
  by rewrite !append_assoc.
Qed.

(** X22. What [DecoratedRange.build] makes of its ranges: the tag name
    is the last tag name among them that is not empty (or null); an
    attribute other than [style], [class] and [__proto__] has the value
    of the last range that gives it; when the values given for [class]
    are not empty, the class is these values joined by spaces in the
    order of the ranges (likewise [style], joined by semicolons); and
    nothing is ever stored under the name [__proto__]. *)
Theorem build_combines_the_specs :
  forall (from to : Z) (ranges : list Decoration.t),
    let span := DecoratedRange.build from to ranges in
    DecoratedRange.from span = from /\ DecoratedRange.to span = to
    /\ DecoratedRange.tagName span = last (tag_names ranges)
    /\ (forall name,
           name <> "style" -> name <> "class" -> name <> "__proto__" ->
           attribute_of name (DecoratedRange.attrs span)
           = last (attribute_values name ranges))
    /\ (forall name sep,
           (name = "class" /\ sep = " ") \/ (name = "style" /\ sep = ";") ->
           Forall (fun v => v <> EmptyString) (attribute_values name ranges) ->
           attribute_values name ranges <> [] ->
           attribute_of name (DecoratedRange.attrs span)
           = Some (String.concat sep (attribute_values name ranges)))
    /\ attribute_of "__proto__" (DecoratedRange.attrs span) = None.
Proof.
  intros from to ranges. cbv zeta. unfold DecoratedRange.build.
  match goal with
  | |- context [let '(_, _) := ?s in _] => destruct s as [tagName attrs] eqn:Hfold
  end.
  cbn [DecoratedRange.from DecoratedRange.to DecoratedRange.tagName
       DecoratedRange.attrs].
  split; [done |]. split; [done |]. split; [| split; [| split]].
  - destruct (build_fold from to ranges "class" None None) as [Htag _].
    cbv zeta in Htag. rewrite Hfold in Htag. cbn [fst] in Htag. rewrite Htag.
    by destruct (last (tag_names ranges)).
  - intros name Hstyle Hclass Hproto.
    destruct (build_fold from to ranges name None None) as (_ & Hattr & _).
    cbv zeta in Hattr. rewrite Hfold in Hattr. cbn [snd] in Hattr.
    rewrite Hattr, joined_plain by done. cbn [attribute_of].
    by destruct (last (attribute_values name ranges)).
  - intros name sep Hname Hvalues Hsome.
    destruct (build_fold from to ranges name None None) as (_ & Hattr & _).
    cbv zeta in Hattr. rewrite Hfold in Hattr. cbn [snd] in Hattr.
    rewrite Hattr by (by destruct Hname as [[-> _] | [-> _]]).
    cbn [attribute_of].
    destruct (attribute_values name ranges) as [| v values]; [done |].
    apply Forall_cons in Hvalues as [Hv Hvalues]. cbn [foldl].
    replace (joined_value name None v) with v
      by (unfold joined_value; by destruct (String.eqb name "style"),
                                            (String.eqb name "class")).
    apply joined_separated; [| done | done].
    intros old value. by destruct Hname as [[-> ->] | [-> ->]].
  - destruct (build_fold from to ranges "class" None None) as (_ & _ & Hproto).
    cbv zeta in Hproto. rewrite Hfold in Hproto. exact Hproto.
Qed.

Lemma build_combines_the_specs_witness :
  attribute_of "class"
    (DecoratedRange.attrs
       (DecoratedRange.build 0 5
          [Decoration.mk 0 10 (RangeDesc (class_spec "a"));
           Decoration.mk 5 15 (RangeDesc (class_spec "b"))]))
  = Some "a b".
Proof.
  apply (proj1 (proj2 (proj2 (proj2 (proj2
           (build_combines_the_specs 0 5
              [Decoration.mk 0 10 (RangeDesc (class_spec "a"));
               Decoration.mk 5 15 (RangeDesc (class_spec "b"))])))))
           "class" " ").
  - by left.
  - vm_compute. by repeat constructor.
  - vm_compute. discriminate.
Defined.

(** ** [update] keeps the decorations well shaped *)

Notation "'shaped' a" := (Forall (fun d => well_shaped d = true) a)
  (at level 10, a at level 9, only parsing).
Notation "'sets_shaped' g" := (Forall (fun c => locals_well_shaped g c = true))
  (at level 10, g at level 9, only parsing).

Lemma locals_well_shaped_parts (g : list Decoration.t) (s : DecorationSet.t) :
  locals_well_shaped g s = true
  <-> shaped (deref g (DecorationSet.local s))
      /\ sets_shaped g (DecorationSet.children s).
Proof.
  rewrite locals_well_shaped_unfold, andb_true_iff.
  by rewrite !forallb_Forall.
Qed.

Lemma locals_well_shaped_other_store (g g' : list Decoration.t)
    (s : DecorationSet.t) :
  shaped g' -> locals_well_shaped g s = true -> locals_well_shaped g' s = true.
Proof.
  intros Hg'. induction s as [length size local children IH] using set_ind.
  rewrite !locals_well_shaped_parts.
  cbn [DecorationSet.local DecorationSet.children]. intros [Hlocal Hchildren].
  split; [by destruct local |].
  rewrite Forall_forall in IH, Hchildren. apply Forall_forall.
  intros c Hc. apply IH; [done |]. by apply Hchildren.
Qed.

Lemma sets_shaped_other_store (g g' : list Decoration.t)
    (cs : list DecorationSet.t) :
  shaped g' -> sets_shaped g cs -> sets_shaped g' cs.
Proof.
  intros Hg' Hcs. eapply Forall_impl; [exact Hcs |]. intros c.
  by apply locals_well_shaped_other_store.
Qed.

Lemma insertSorted_shaped (target : list Decoration.t) (d : Decoration.t) :
  shaped target -> well_shaped d = true -> shaped (insertSorted target d).
Proof. intros Ht Hd. rewrite insertSorted_Permutation. by constructor. Qed.

Lemma foldl_insertSorted_shaped (ds target : list Decoration.t) :
  shaped target -> shaped ds -> shaped (foldl insertSorted target ds).
Proof.
  revert target. induction ds as [| d ds IH]; intros target Ht Hds; [done |].
  apply Forall_cons in Hds as [Hd Hds]. cbn [foldl].
  apply IH; [by apply insertSorted_shaped | done].
Qed.

Lemma moved_shaped (a : list Decoration.t) (offset : Z) :
  shaped a -> shaped (List.map (fun d => Decoration.move d offset) a).
Proof.
  intros Ha. apply Forall_map. eapply Forall_impl; [exact Ha |].
  intros d. apply move_well_shaped.
Qed.

Lemma filter_shaped (f : Decoration.t -> bool) (a : list Decoration.t) :
  shaped a -> shaped (List.filter f a).
Proof.
  induction 1 as [| d a Hd Ha IH]; simpl; [done |].
  destruct (f d); [by constructor | done].
Qed.

Lemma slice_shaped (a : list Decoration.t) (i j : Z) :
  shaped a -> shaped (slice a i j).
Proof. intros Ha. unfold slice. by apply Forall_take, Forall_drop. Qed.

Lemma splice_sets_shaped (g : list Decoration.t) (cs items : list DecorationSet.t)
    (i n : Z) :
  sets_shaped g cs -> sets_shaped g items -> sets_shaped g (splice cs i n items).
Proof.
  intros Hcs Hitems. unfold splice. rewrite !Forall_app.
  split; [by apply Forall_take |]. split; [done | by apply Forall_drop].
Qed.

Lemma filterDecorations_shaped (a : list Decoration.t)
    (filter : option DecorationFilter) (filterFrom filterTo offset : Z) :
  shaped a -> all_shaped (filterDecorations a filter filterFrom filterTo offset).
Proof.
  intros Ha. unfold filterDecorations. destruct filter as [f |]; [| done].
  rewrite filterDecorations_loop_result.
  destruct (forallb _ a); [done |]. intros b [= <-]. by apply filter_shaped.
Qed.

Lemma scan_additions_shaped (rest : list Decoration.t) :
  forall (decI endPos offset : Z) (thisLocal : list Decoration.t)
         (local localDeco : option (list Decoration.t)) rest' decI' local' localDeco',
    scan_additions rest decI endPos offset thisLocal local localDeco
    = (rest', decI', local', localDeco') ->
    shaped rest -> shaped thisLocal -> all_shaped local -> all_shaped localDeco ->
    shaped rest' /\ all_shaped local' /\ all_shaped localDeco'.
Proof.
  induction rest as [| next rest IH];
    intros decI endPos offset thisLocal local ld rest' decI' local' ld' Hscan
           Hrest Hthis Hlocal Hld; cbn [scan_additions] in Hscan.
  - by inversion Hscan; subst.
  - destruct (Decoration.from next >=? endPos); [by inversion Hscan; subst |].
    apply Forall_cons in Hrest as [Hnext Hrest].
    destruct (Decoration.to next >? endPos);
      (eapply IH; [exact Hscan | done | done | |]); try done.
    + intros a [= <-]. apply insertSorted_shaped; [| by apply move_well_shaped].
      destruct local; [by apply Hlocal | done].
    + intros a [= <-]. apply Forall_app. split; [| by repeat constructor].
      destruct ld; [by apply Hld | constructor].
Qed.

Lemma collect_shaped (g : list Decoration.t) (s : DecorationSet.t) :
  forall (target : list Decoration.t) (offset : Z),
    locals_well_shaped g s = true -> shaped target ->
    shaped (DecorationSet.collect g s target offset).
Proof.
  induction s as [length size local children IH] using set_ind.
  intros target offset Hs Htarget. rewrite collect_unfold.
  apply locals_well_shaped_parts in Hs as [Hlocal Hchildren].
  cbn [DecorationSet.local DecorationSet.children] in *.
  assert (Hstart : shaped (target ++ List.map (fun d => Decoration.move d offset)
                                        (deref g local)))
    by (apply Forall_app; split; [done | by apply moved_shaped]).
  revert Hstart. generalize (target ++ List.map (fun d => Decoration.move d offset)
                                        (deref g local)).
  generalize offset.
  induction children as [| c children IHc]; intros off tgt Htgt; [done |].
  apply Forall_cons in IH as [Hc IH].
  apply Forall_cons in Hchildren as [Hcs Hchildren].
  cbn [collect_children]. apply IHc; [done | done |]. by apply Hc.
Qed.

Lemma collapseSet_shaped (g g' : list Decoration.t)
    (children : list DecorationSet.t) (local add : list Decoration.t)
    (start offset length : Z) :
  sets_shaped g children -> shaped local -> shaped add ->
  locals_well_shaped g'
    (collapseSet g children local add start offset length) = true.
Proof.
  intros Hchildren Hlocal Hadd. unfold collapseSet.
  apply locals_well_shaped_parts.
  cbn [DecorationSet.local DecorationSet.children deref].
  split; [| constructor].
  apply Forall_app. split; [| by apply moved_shaped, slice_shaped].
  match goal with
  | |- context [?F children local 0] =>
      assert (HF : forall cs a off, sets_shaped g cs -> shaped a -> shaped (F cs a off))
  end.
  { induction cs as [| c cs IH]; intros a off Hcs Ha; [done |].
    apply Forall_cons in Hcs as [Hc Hcs]. cbn.
    apply IH; [done |]. by apply collect_shaped. }
  destruct (len local =? 0); [by apply HF |].
  rewrite sort_Permutation. by apply HF.
Qed.

Lemma reparent_shaped (local g : list Decoration.t) (detached : bool)
    (off length : Z) local' detached' g' joinedLocals :
  reparent local detached g off length = (local', detached', g', joinedLocals) ->
  shaped local -> shaped g ->
  shaped local' /\ shaped g' /\ shaped joinedLocals.
Proof.
  unfold reparent. intros Hrun Hlocal Hg.
  destruct detached; [| destruct (_ && _)]; inversion Hrun; subst;
    repeat split;
    repeat first [ done | apply filter_shaped | apply moved_shaped
                 | apply Forall_app; split ].
Qed.

Lemma append_step_shaped (endPos offset : Z) (ds : list Decoration.t) :
  forall local add : list Decoration.t,
    shaped ds -> shaped local -> shaped add ->
    shaped (foldl (fun '(local, add) deco =>
                     if Decoration.to deco >? endPos
                     then (insertSorted local (Decoration.move deco (- offset)), add)
                     else (local, add ++ [deco]))
                  (local, add) ds).1
    /\ shaped (foldl (fun '(local, add) deco =>
                        if Decoration.to deco >? endPos
                        then (insertSorted local (Decoration.move deco (- offset)),
                              add)
                        else (local, add ++ [deco]))
                     (local, add) ds).2.
Proof.
  induction ds as [| d ds IH]; intros local add Hds Hlocal Hadd; [done |].
  apply Forall_cons in Hds as [Hd Hds]. cbn [foldl].
  destruct (Decoration.to d >? endPos); apply IH; try done.
  - apply insertSorted_shaped; [done | by apply move_well_shaped].
  - apply Forall_app. split; [done | by repeat constructor].
Qed.

Lemma appendDecorations_shaped_step (fuel : nat) :
  updateInner_keeps_shape fuel -> appendDecorations_keeps_shape fuel ->
  appendDecorations_keeps_shape (S fuel).
Proof.
  intros IHu IHa g local children decorations i offset length pos childSize
         local' children' g' Hg Hlocal Hchildren Hds Hrun.
  cbn [appendDecorations] in Hrun.
  destruct (i <? len decorations); [| by inversion Hrun; subst].
  match type of Hrun with
  | bind ?X _ = _ => destruct X as [endPos | | |]; cbn [bind] in Hrun; try done
  end.
  pose proof (append_step_shaped endPos offset
                (slice decorations i (Z.min (i + childSize) (len decorations)))
                local [] (slice_shaped _ _ _ Hds) Hlocal ltac:(constructor))
    as [Hlocal1 Hadd].
  destruct (foldl _ (local, []) _) as [local1 add]. cbn [fst snd] in *.
  destruct (negb (len add =? 0)).
  - destruct (updateInner fuel g DecorationSet.empty add None 0 0 pos
                (endPos - pos)) as [[u g1] | | |] eqn:Hupdate;
      cbn [bind] in Hrun; try done.
    apply IHu in Hupdate as [Hg1 Hnew]; [| done | | done].
    + assert (Hchildren1 : sets_shaped g1
                             (children ++ [resolve DecorationSet.empty u])).
      { apply Forall_app. split; [| by repeat constructor].
        by eapply sets_shaped_other_store. }
      exact (IHa _ _ _ _ _ _ _ _ _ _ _ _ Hg1 Hlocal1 Hchildren1 Hds Hrun).
    + apply locals_well_shaped_parts. by split; [| constructor].
  - exact (IHa _ _ _ _ _ _ _ _ _ _ _ _ Hg Hlocal1 Hchildren Hds Hrun).
Qed.

Lemma grow_shaped (g : list Decoration.t) (s : DecorationSet.t) (n : Z) :
  locals_well_shaped g s = true ->
  locals_well_shaped g (DecorationSet.grow s n) = true.
Proof. by rewrite !locals_well_shaped_parts. Qed.

Lemma sorted_additions_shaped (ds : list Decoration.t) :
  shaped ds -> shaped (if len ds =? 0 then ds else sort byPos ds).
Proof. intros Hds. destruct (len ds =? 0); [done |]. by rewrite sort_Permutation. Qed.

Lemma rebalanceChildren_shaped_step (fuel : nat) :
  updateInner_keeps_shape fuel -> rebalanceChildren_keeps_shape fuel ->
  rebalanceChildren_keeps_shape (S fuel).
Proof.
  intros IHu IHr g local detached children childSize i off local' children' g'
         Hg Hlocal Hchildren Hrun.
  cbn [rebalanceChildren] in Hrun.
  destruct (i <? len children); [| by inversion Hrun; subst].
  destruct (at_index children i) as [child | | |] eqn:Hchild;
    cbn [bind] in Hrun; try done.
  apply at_index_Ok in Hchild.
  pose proof (proj1 (Forall_lookup _ _) Hchildren _ _ Hchild) as Hc.
  pose proof (proj1 (locals_well_shaped_parts _ _) Hc) as [Hclocal Hcchildren].
  destruct ((DecorationSet.size child =? 0) && ((i >? 0) || (len children =? 1))).
  { (* an empty node is dropped *)
    match type of Hrun with
    | bind ?X _ = _ =>
        destruct X as [children1 | | |] eqn:Hdrop; cbn [bind] in Hrun; try done
    end.
    assert (Hchildren1 : sets_shaped g children1).
    { pose proof (splice_sets_shaped g children [] i 1 Hchildren
                    ltac:(constructor)) as Hspliced.
      destruct (i - 1 >=? 0); [| by inversion Hdrop; subst].
      destruct (at_index (splice children i 1 []) (i - 1)) as [prev | | |]
        eqn:Hprev; cbn [bind] in Hdrop; try done.
      inversion Hdrop; subst. apply at_index_Ok in Hprev.
      apply Forall_insert; [done |]. apply grow_shaped.
      by eapply (proj1 (Forall_lookup _ _) Hspliced). }
    exact (IHr _ _ _ _ _ _ _ _ _ _ Hg Hlocal Hchildren1 Hrun). }
  destruct ((DecorationSet.size child >? shiftLeft childSize 1) && _).
  { (* a big node is unwrapped *)
    pose proof (splice_sets_shaped g children (DecorationSet.children child) i 1
                  Hchildren Hcchildren) as Hspliced.
    pose proof (moved_shaped _ off Hclocal) as Hmoved.
    destruct detached, (DecorationSet.local child) eqn:Hlocal_child.
    - destruct (len g =? 0); [| done].
      exact (IHr _ _ _ _ _ _ _ _ _ _ Hg Hlocal Hspliced Hrun).
    - cbn beta iota zeta in Hrun.
      pose proof (foldl_insertSorted_shaped _ g Hg Hmoved) as Hg1.
      refine (IHr _ _ _ _ _ _ _ _ _ _ Hg1 Hlocal _ Hrun).
      by eapply sets_shaped_other_store.
    - cbn beta iota zeta in Hrun.
      pose proof (foldl_insertSorted_shaped _ local Hlocal Hmoved) as Hlocal1.
      exact (IHr _ _ _ _ _ _ _ _ _ _ Hg Hlocal1 Hspliced Hrun).
    - cbn beta iota zeta in Hrun.
      pose proof (foldl_insertSorted_shaped _ local Hlocal Hmoved) as Hlocal1.
      exact (IHr _ _ _ _ _ _ _ _ _ _ Hg Hlocal1 Hspliced Hrun). }
  cbv zeta in Hrun.
  match type of Hrun with
  | (if ?c then _ else _) = _ => destruct c
  end.
  { (* two leaves are joined *)
    destruct (at_index children (i + 1)) as [next | | |] eqn:Hnext;
      cbn [bind] in Hrun; try done.
    apply at_index_Ok in Hnext.
    pose proof (proj1 (Forall_lookup _ _) Hchildren _ _ Hnext) as Hn.
    apply locals_well_shaped_parts in Hn as [Hnlocal _].
    refine (IHr _ _ _ _ _ _ _ _ _ _ Hg Hlocal _ Hrun).
    apply splice_sets_shaped; [done |]. repeat constructor.
    apply locals_well_shaped_parts.
    cbn [DecorationSet.local DecorationSet.children deref].
    split; [| constructor].
    apply Forall_app. split; [done | by apply moved_shaped]. }
  (* nodes are wrapped *)
  destruct (if DecorationSet.size child <? shiftRight childSize 1 then _ else _)
    as [[joinTo size] length].
  destruct (joinTo >? i + 1);
    [| exact (IHr _ _ _ _ _ _ _ _ _ _ Hg Hlocal Hchildren Hrun)].
  destruct (reparent local detached g off length)
    as [[[local1 detached1] g1] joinedLocals] eqn:Hreparent.
  apply reparent_shaped in Hreparent as (Hlocal1 & Hg1 & Hjoined); [| done ..].
  assert (Hwrapper : locals_well_shaped g1
                       (DecorationSet.mk length size NoDecorations
                          (slice children i joinTo)) = true).
  { apply locals_well_shaped_parts.
    cbn [DecorationSet.local DecorationSet.children deref]. split; [done |].
    unfold slice. apply Forall_take, Forall_drop.
    by eapply sets_shaped_other_store. }
  match type of Hrun with
  | bind ?X _ = _ =>
      assert (Hstep : forall joined g2,
                 X = Ok (joined, g2) ->
                 shaped g2 /\ locals_well_shaped g2 joined = true)
  end.
  { intros joined g2. destruct (len joinedLocals =? 0).
    - by intros [= <- <-].
    - unfold update_with.
      destruct (updateInner fuel g1 _ _ None 0 _ 0 _) as [[u g3] | | |] eqn:Hupdate;
        cbn [bind]; try done.
      intros [= <- <-].
      apply IHu in Hupdate; [done | done | done |].
      apply sorted_additions_shaped. by rewrite sort_Permutation. }
  match type of Hrun with
  | bind ?X _ = _ =>
      destruct X as [[joined g2] | | |]; cbn [bind] in Hrun; try done
  end.
  destruct (Hstep joined g2 eq_refl) as [Hg2 Hjoined2].
  refine (IHr _ _ _ _ _ _ _ _ _ _ Hg2 Hlocal1 _ Hrun).
  apply splice_sets_shaped; [| by repeat constructor].
  by eapply sets_shaped_other_store.
Qed.

Lemma updateInner_shaped_step (fuel : nat) :
  updateInner_keeps_shape fuel -> appendDecorations_keeps_shape fuel ->
  rebalanceChildren_keeps_shape fuel -> updateInner_keeps_shape (S fuel).
Proof.
  intros IHu IHa IHr g this decorations filter filterFrom filterTo offset length
         u g' Hg Hthis Hds Hrun.
  cbn [updateInner] in Hrun.
  pose proof (proj1 (locals_well_shaped_parts _ _) Hthis) as [Hlocal Hchildren].
  match type of Hrun with
  | context [bind (?F (DecorationSet.children this) [] decorations ?l None 0 0
                     offset g) _] =>
      assert (HF : forall todo done rest local children size decI pos g0 r,
                 shaped g0 -> sets_shaped g0 todo -> shaped rest ->
                 all_shaped local -> sets_shaped g0 (default done children) ->
                 F todo done rest local children size decI pos g0 = Ok r ->
                 shaped r.2 /\ all_shaped r.1.1.1.1.1
                 /\ sets_shaped r.2 (default (done ++ todo) r.1.1.1.1.2));
        [| destruct (F (DecorationSet.children this) [] decorations l None 0 0
                      offset g) as [r | | |] eqn:Hloop;
           cbn [bind] in Hrun; try done;
           apply HF in Hloop as (Hg1 & Hlocal1 & Hchildren1);
           [| done | done | done | by apply filterDecorations_shaped
            | constructor ];
           clear HF ]
  end.
  { induction todo as [| child todo IHtodo];
      intros done rest local children size decI pos g0 r Hg0 Htodo Hrest Hl Hc
             Hloop.
    - inversion Hloop; subst r. cbn [fst snd]. by rewrite app_nil_r.
    - apply Forall_cons in Htodo as [Hchild Htodo].
      cbn -[Z.add updateInner] in Hloop.
      destruct (scan_additions rest decI (pos + DecorationSet.length child)
                  offset (deref g0 (DecorationSet.local this)) local None)
        as [[[rest1 decI1] local1] localDeco] eqn:Hscan.
      apply scan_additions_shaped in Hscan as (Hrest1 & Hl1 & Hld);
        [| done | | done | done].
      2: { apply (locals_well_shaped_other_store g g0 this Hg0) in Hthis.
           by apply locals_well_shaped_parts in Hthis as [? _]. }
      match type of Hloop with
      | bind ?X _ = _ =>
          assert (Hstep : forall u1 g1,
                     X = Ok (u1, g1) ->
                     shaped g1 /\ locals_well_shaped g1 (resolve child u1) = true)
      end.
      { intros u1 g1. destruct (_ || _); [| by intros [= <- <-]].
        intros Hupdate. apply IHu in Hupdate; [done | done | done |].
        destruct localDeco; [by apply Hld | done]. }
      match type of Hloop with
      | bind ?X _ = _ =>
          destruct X as [[u1 g1] | | |]; cbn [bind] in Hloop; try done
      end.
      destruct (Hstep u1 g1 eq_refl) as [Hg1 Hnew].
      apply IHtodo in Hloop; [| done | by eapply sets_shaped_other_store | done
                              | done |].
      + by rewrite <- app_assoc in Hloop.
      + pose proof (sets_shaped_other_store g0 g1 _ Hg1 Hc) as Hc1.
        destruct (is_built u1) eqn:Hbuilt.
        * cbn [from_option id]. apply Forall_app. split; [done |].
          by repeat constructor.
        * destruct u1; [| done]. cbn [resolve] in *.
          destruct children; cbn [from_option id] in *;
            (apply Forall_app; split; [done | by repeat constructor]). }
  destruct r as [[[[[local1 children1] size1] decI1] pos1] g1].
  cbn [fst snd app] in *.
  pose proof (locals_well_shaped_other_store g g1 this Hg1 Hthis) as Hthis1.
  pose proof (proj1 (locals_well_shaped_parts _ _) Hthis1) as [Hlocal' Hchildren'].
  assert (Hkept : shaped (default (deref g1 (DecorationSet.local this)) local1))
    by (destruct local1; [by apply Hlocal1 | done]).
  destruct (negb _ && negb _ && (decI1 =? len decorations));
    [by inversion Hrun; subst |].
  destruct (_ <=? BASE_NODE_SIZE).
  { inversion Hrun; subst. split; [done |]. cbn [resolve].
    by apply (collapseSet_shaped g'). }
  match type of Hrun with
  | bind ?X _ = _ =>
      assert (Happend : forall local2 children2 g2,
                 X = Ok (local2, children2, g2) ->
                 shaped g2 /\ all_shaped local2
                 /\ sets_shaped g2 (default (DecorationSet.children this) children2)
                 /\ shaped (deref g2 (DecorationSet.local this)))
  end.
  { intros local2 children2 g2. destruct (decI1 <? len decorations).
    - destruct (appendDecorations fuel g1 _ _ decorations decI1 offset length
                  pos1 _) as [[[local3 children3] g3] | | |] eqn:Hcall;
        cbn [bind]; try done.
      intros [= <- <- <-].
      apply IHa in Hcall as (Hg3 & Hlocal3 & Hchildren3); [| done ..].
      split; [done |]. split; [by intros a [= <-] |]. split; [done |].
      pose proof (locals_well_shaped_other_store g g3 this Hg3 Hthis) as H3.
      by apply locals_well_shaped_parts in H3 as [? _].
    - by intros [= <- <- <-]. }
  match type of Hrun with
  | bind ?X _ = _ =>
      destruct X as [[[local2 children2] g2] | | |]; cbn [bind] in Hrun; try done
  end.
  destruct (Happend local2 children2 g2 eq_refl)
    as (Hg2 & Hlocal2 & Hchildren2 & Hthis2).
  match type of Hrun with
  | bind ?X _ = _ =>
      assert (Hbalance : forall local3 children3 g3,
                 X = Ok (local3, children3, g3) ->
                 shaped g3 /\ all_shaped local3
                 /\ sets_shaped g3 (default (DecorationSet.children this) children3)
                 /\ shaped (deref g3 (DecorationSet.local this)))
  end.
  { intros local3 children3 g3. destruct children2 as [children2 |].
    - destruct (rebalanceChildren fuel g2 _ false children2 _ 0 0)
        as [[[local4 children4] g4] | | |] eqn:Hcall; cbn [bind]; try done.
      intros [= <- <- <-].
      apply IHr in Hcall as (Hg4 & Hlocal4 & Hchildren4);
        [| done | by destruct local2; [apply Hlocal2 |] | done].
      split; [done |]. split; [by intros a [= <-] |]. split; [done |].
      pose proof (locals_well_shaped_other_store g g4 this Hg4 Hthis) as H4.
      by apply locals_well_shaped_parts in H4 as [? _].
    - by intros [= <- <- <-]. }
  match type of Hrun with
  | bind ?X _ = _ =>
      destruct X as [[[local3 children3] g3] | | |]; cbn [bind] in Hrun; try done
  end.
  destruct (Hbalance local3 children3 g3 eq_refl)
    as (Hg3 & Hlocal3 & Hchildren3 & Hthis3).
  inversion Hrun; subst. split; [done |]. cbn [resolve].
  apply locals_well_shaped_parts.
  cbn [DecorationSet.local DecorationSet.children]. split; [| done].
  destruct local3; cbn [deref]; [by apply Hlocal3 | done].
Qed.

Lemma update_path_shaped (fuel : nat) :
  updateInner_keeps_shape fuel /\ appendDecorations_keeps_shape fuel
  /\ rebalanceChildren_keeps_shape fuel.
Proof.
  induction fuel as [| fuel (IHu & IHa & IHr)].
  - split; [| split].
    + intros g this ds filter ff ft off len u g' _ _ _ Hrun. discriminate Hrun.
    + intros g local children ds i off len pos childSize local' children' g'
             _ _ _ _ Hrun.
      discriminate Hrun.
    + intros g local detached children childSize i off local' children' g'
             _ _ _ Hrun.
      discriminate Hrun.
  - split; [by apply updateInner_shaped_step |].
    split; [by apply appendDecorations_shaped_step
           | by apply rebalanceChildren_shaped_step].
Qed.



(** ** [map] copies every node that has decorations of its own *)

Lemma mapInner_locals_some (changes : list Change.t) (newLength : Z)
    (todo : list Decoration.t) :
  forall seen newLocal escaped,
    is_Some newLocal \/ todo <> [] ->
    is_Some (mapInner_locals todo seen changes newLength newLocal escaped).1.
Proof.
  induction todo as [| deco todo IH]; intros seen nl es Hsome;
    cbn [mapInner_locals].
  - by destruct Hsome.
  - destruct (Decoration.map deco changes) as [m |];
      [destruct (_ || _) |]; apply IH; left; by destruct nl.
Qed.

Lemma mapInner_escaped_some (shift newLength : Z) (thisLocal : list Decoration.t)
    (inner : list Decoration.t) :
  forall newLocal escaped,
    is_Some newLocal ->
    is_Some (mapInner_escaped inner shift newLength thisLocal newLocal escaped).1.
Proof.
  induction inner as [| d inner IH]; intros nl es Hsome;
    cbn [mapInner_escaped]; [done |].
  destruct (_ || _); by apply IH.
Qed.

Lemma mapInner_children_some (g : list Decoration.t)
    (changes : list TextChange.t) (newStart newLength : Z)
    (thisLocal : list Decoration.t) (count : Z) (todo : list DecorationSet.t) :
  forall done i oldPos newPos newLocal escaped newChildren newSize r,
    is_Some newLocal ->
    mapInner_children g changes newStart newLength thisLocal count todo done
      i oldPos newPos newLocal escaped newChildren newSize = Ok r ->
    is_Some r.1.1.1.
Proof.
  induction todo as [| child todo IH];
    intros done i oldPos newPos nl es nc nsz r Hsome Hrun;
    cbn [mapInner_children] in Hrun.
  - by inversion Hrun; subst.
  - match type of Hrun with
    | bind ?X _ = _ =>
        assert (Hstep : forall u nl' es', X = Ok (u, nl', es') -> is_Some nl')
    end.
    { intros u nl' es'. destruct (touchesChange _ _ _).
      - destruct (mapInner g child changes oldPos newPos _)
          as [[u0 inner] | | |]; cbn [bind]; try done.
        destruct inner as [inner |]; [| by intros [= <- <- <-]].
        pose proof (mapInner_escaped_some (newPos - newStart) newLength thisLocal
                      inner nl es Hsome) as Hkept.
        destruct (mapInner_escaped _ _ _ _ _ _). by intros [= <- <- <-].
      - destruct (negb _); by intros [= <- <- <-]. }
    match type of Hrun with
    | bind ?X _ = _ =>
        destruct X as [[[u nl'] es'] | | |]; cbn [bind] in Hrun; try done
    end.
    specialize (Hstep u nl' es' eq_refl).
    destruct (place_child nc done child u i count); cbn [bind] in Hrun; try done.
    by eapply IH.
Qed.

(** X24. [Decoration.map] never returns the decoration it is given, so
    when a set whose root has decorations of its own is mapped through
    at least one change, what [map] returns is a new set, even if no
    position moves.  The one exception is the object
    [DecorationSet.empty]: [map] returns it as it is, also when the
    shared array [noDecorations] holds decorations. *)
Theorem map_copies_a_root_with_decorations :
  forall (g : list Decoration.t) (this : DecorationSet.t) (sentinel : bool)
         (changes : list TextChange.t) (u : updated),
    changes <> [] -> deref g (DecorationSet.local this) <> [] ->
    DecorationSet_map g this sentinel changes = Ok u ->
    is_built u = negb sentinel.
Proof.
  intros g this sentinel changes u Hchanges Hlocal. unfold DecorationSet_map.
  destruct changes as [| c changes]; [done |].
  change (len (c :: changes) =? 0) with false. cbn [orb].
  destruct sentinel; [by intros [= <-] |]. cbn [negb].
  rewrite mapInner_unfold. cbv zeta.
  destruct (mapInner_children _ _ _ _ _ _ _ _ _ _ _ _ _ _ _)
    as [r | | |] eqn:Hloop; cbn [bind]; try done.
  apply mapInner_children_some in Hloop;
    [| apply mapInner_locals_some; by right].
  destruct r as [[[nl es] nc] nsz]. cbn [fst snd] in Hloop.
  unfold mapInner_result. destruct Hloop as [a ->].
  rewrite (bool_decide_true (is_Some (Some a))) by done.
  rewrite andb_false_r. by intros [= <-].
Qed.

Lemma map_copies_a_root_with_decorations_witness :
  exists u,
    DecorationSet_map [] (DecorationSet.mk 20 1 (OwnArray [plain 5 10]) []) false
      [TextChange.mk (Change.mk (fun pos _ => pos)) 30 30 0] = Ok u
    /\ is_built u = true.
Proof.
  eexists. split; [vm_compute; reflexivity |].
  apply (map_copies_a_root_with_decorations []
           (DecorationSet.mk 20 1 (OwnArray [plain 5 10]) []) false
           [TextChange.mk (Change.mk (fun pos _ => pos)) 30 30 0]).
  - discriminate.
  - discriminate.
  - reflexivity.
Defined.

(** ** Mapping a leaf *)

Lemma mapInner_locals_result (changes : list Change.t) (newLength : Z)
    (todo : list Decoration.t) :
  forall (seen a : list Decoration.t) (escaped : option (list Decoration.t)),
    mapInner_locals todo seen changes newLength (Some a) escaped
    = (Some (a ++ List.filter (fits newLength) (mapped_through changes todo)),
       match List.filter (fun m => negb (fits newLength m))
                         (mapped_through changes todo) with
       | [] => escaped
       | out => Some (default [] escaped ++ out)
       end).
Proof.
  induction todo as [| deco todo IH]; intros seen a escaped;
    cbn [mapInner_locals mapped_through omap list_omap].
  - by rewrite app_nil_r.
  - fold (mapped_through changes todo).
    destruct (Decoration.map deco changes) as [m |]; [| by rewrite IH].
    cbn [List.filter].
    assert (Hfits : fits newLength m
                    = negb ((Decoration.from m <? 0)
                            || (Decoration.to m >? newLength))) by done.
    destruct ((Decoration.from m <? 0) || (Decoration.to m >? newLength));
      cbn [negb] in Hfits; rewrite Hfits; cbn [negb]; rewrite IH.
    + destruct (List.filter (fun m0 => negb (fits newLength m0))
                  (mapped_through changes todo));
        cbn [from_option id]; [done |].
      by rewrite <- app_assoc.
    + by rewrite <- app_assoc.
Qed.

(** X25. Mapping a leaf with decorations: [mapInner] maps each local
    decoration with [Decoration.map], at the position it has in the
    node and whatever the position [oldStart] of the node in the
    document; it keeps, in their order, the mapped decorations that lie
    in [0, newEnd - newStart] and reports the others as escaped.  [map]
    on such a set returns the new leaf and drops what escaped, unless
    there is no change or the receiver is the object
    [DecorationSet.empty]: then it returns the receiver itself. *)
Theorem map_of_a_leaf :
  forall (g : list Decoration.t) (this : DecorationSet.t)
         (changes : list TextChange.t) (oldStart newStart newEnd : Z),
    DecorationSet.children this = [] ->
    deref g (DecorationSet.local this) <> [] ->
    let mapped :=
      mapped_through (methods changes) (deref g (DecorationSet.local this)) in
    let leaf newLength :=
      DecorationSet.mk newLength (len (List.filter (fits newLength) mapped))
        (OwnArray (List.filter (fits newLength) mapped)) [] in
    mapInner g this changes oldStart newStart newEnd
    = Ok (Built (leaf (newEnd - newStart)),
          match List.filter (fun m => negb (fits (newEnd - newStart) m)) mapped with
          | [] => None
          | out => Some out
          end)
    /\ forall sentinel : bool,
         DecorationSet_map g this sentinel changes
         = Ok (if (len changes =? 0) || sentinel then This
               else Built (leaf (mapPos (DecorationSet.length this)
                                   (methods changes) 1))).
Proof.
  intros g this changes oldStart newStart newEnd Hleaf Hlocal. cbv zeta.
  assert (Hinner : forall oldStart newStart newEnd,
             mapInner g this changes oldStart newStart newEnd
             = Ok (Built
                     (DecorationSet.mk (newEnd - newStart)
                        (len (List.filter (fits (newEnd - newStart))
                                (mapped_through (methods changes)
                                   (deref g (DecorationSet.local this)))))
                        (OwnArray
                           (List.filter (fits (newEnd - newStart))
                              (mapped_through (methods changes)
                                 (deref g (DecorationSet.local this)))))
                        []),
                   match List.filter (fun m => negb (fits (newEnd - newStart) m))
                           (mapped_through (methods changes)
                              (deref g (DecorationSet.local this))) with
                   | [] => None
                   | out => Some out
                   end)).
  { intros a b c. rewrite mapInner_unfold. cbv zeta. rewrite Hleaf.
    cbn [mapInner_children bind].
    destruct (deref g (DecorationSet.local this)) as [| d ds] eqn:Hds; [done |].
    assert (Hfirst : mapInner_locals (d :: ds) [] (methods changes) (c - b)
                       None None
                     = mapInner_locals (d :: ds) [] (methods changes) (c - b)
                         (Some []) None).
    { cbn [mapInner_locals]. by destruct (Decoration.map d (methods changes)). }
    rewrite Hfirst, mapInner_locals_result. cbn [fst snd app].
    unfold mapInner_result. rewrite Hds.
    cbn [negb]. rewrite andb_false_r. cbn [from_option id].
    rewrite Hleaf, Z.add_0_l.
    by destruct (List.filter (fun m => negb (fits (c - b) m)) _). }
  split; [apply Hinner |].
  intros sentinel. unfold DecorationSet_map.
  destruct ((len changes =? 0) || sentinel); [done |].
  rewrite Hinner. cbn [bind]. by rewrite Z.sub_0_r.
Qed.

Lemma map_of_a_leaf_witness :
  DecorationSet_map []
    (DecorationSet.mk 30 3 (OwnArray [plain 2 5; plain 12 15; plain 22 25]) [])
    false [deletion 11 19]
  = Ok (Built (DecorationSet.mk 22 2 (OwnArray [plain 2 5; plain 14 17]) [])).
Proof.
  exact (proj2 (map_of_a_leaf []
                  (DecorationSet.mk 30 3
                     (OwnArray [plain 2 5; plain 12 15; plain 22 25]) [])
                  [deletion 11 19] 0 0 0 eq_refl ltac:(discriminate)) false).
Defined.

(** X26. [map] can throw.  On a root with three leaves, mapped through
    the deletion of the text from 11 to 29, the second and the third
    leaf lose all they hold; [mapInner] drops the second from
    [newChildren] and then reads [newChildren[i - 1]] for the third,
    where the array has one element only: a [TypeError].  The set
    satisfies the structural invariants P1 to P5. *)
Theorem map_throws_when_two_children_are_dropped :
  invariants [] three_leaves = true
  /\ DecorationSet_map [] three_leaves false [deletion 11 29] = TypeError.
Proof. split; vm_compute; reflexivity. Qed.
